(** * AODV protocol simulator: the protocol engine of [aodv_simulator.py]

    A shallow embedding of the packet motion model ([AnimatedPacket]), the
    node store ([Node]) and the discovery engine ([AODVSimulator]), followed
    by the properties of the engine.

    Conventions of the embedding:
    - Python floats are IEEE-754 binary64 numbers: they are primitive floats
      here, with the same rounding and the same comparisons.
    - A method that mutates [self] is a function from the object to the new
      object (with its return value when it has one); a method that can raise
      ([IndexError], [TypeError]) returns an [option].
    - [Node] objects live in the list [self.nodes]; [setup_nodes] gives the
      k-th node the id k, so a reference to a [Node] object is its id, and
      [neighbor.id] is that reference itself.
    - The event log and the PCAP list only record what happened; no control
      path reads them, and they are left out. *)

From Stdlib Require Import PrimFloat ZArith.
From stdpp Require Import gmap list.

Set Warnings "-inexact-float".

(** ** Packets *)

Inductive PacketType := RREQ | RREP | DATA | RERR.

#[global] Instance PacketType_eq_dec : EqDecision PacketType.
Proof. solve_decision. Defined.

Module AnimatedPacket.

Record t := mk {
  id : nat;
  type : PacketType;
  path : list nat;
  current_node_index : nat;
  progress : float;
  base_speed : float;
  completed : bool;
  from_node : option nat;
  to_node : option nat
}.

(** [AnimatedPacket.__init__] *)
Definition init (packet_id : nat) (packet_type : PacketType) (path : list nat)
    (base_speed : float) (from_node to_node : option nat) : t :=
  {| id := packet_id; type := packet_type; path := path;
     current_node_index := 0; progress := 0%float; base_speed := base_speed;
     completed := false; from_node := from_node; to_node := to_node |}.

Definition set_progress (x : float) (self : t) : t :=
  {| id := id self; type := type self; path := path self;
     current_node_index := current_node_index self; progress := x;
     base_speed := base_speed self; completed := completed self;
     from_node := from_node self; to_node := to_node self |}.

Definition set_current_node_index (i : nat) (self : t) : t :=
  {| id := id self; type := type self; path := path self;
     current_node_index := i; progress := progress self;
     base_speed := base_speed self; completed := completed self;
     from_node := from_node self; to_node := to_node self |}.

Definition set_completed (b : bool) (self : t) : t :=
  {| id := id self; type := type self; path := path self;
     current_node_index := current_node_index self; progress := progress self;
     base_speed := base_speed self; completed := b;
     from_node := from_node self; to_node := to_node self |}.

(** [self.current_node_index >= len(self.path) - 1], on Python's integers. *)
Definition at_last_node (self : t) : bool :=
  bool_decide (Z.of_nat (length (path self)) - 1 ≤ Z.of_nat (current_node_index self))%Z.

(** [AnimatedPacket.update]: the packet after the call, and the returned flag. *)
Definition update (self : t) (delta_time speed_multiplier : float) : t * bool :=
  if completed self then (self, false)
  else
    let actual_speed := (base_speed self * speed_multiplier)%float in
    let self := set_progress (progress self + actual_speed * delta_time)%float self in
    if (1 <=? progress self)%float then
      let self := set_current_node_index (S (current_node_index self)) self in
      let self := set_progress 0%float self in
      if at_last_node self then
        let self := set_completed true self in
        let self := set_progress 1%float self in
        (self, true)
      else (self, false)
    else (self, false).

(** A sequence of calls with the same multiplier: the packet at the end and
    the flag each call returned. *)
Fixpoint updates (self : t) (deltas : list float) (speed_multiplier : float)
    : t * list bool :=
  match deltas with
  | [] => (self, [])
  | d :: ds =>
      let '(self1, r) := update self d speed_multiplier in
      let '(self2, rs) := updates self1 ds speed_multiplier in
      (self2, r :: rs)
  end.

End AnimatedPacket.

(** ** Nodes *)

(** [best_path_hop_count] is [float('inf')] until a path is found, and the
    integer [len(path) - 1] afterwards. *)
Inductive hop_count := Inf | Hops (n : nat).

(** [hop_count < self.best_path_hop_count] *)
Definition hop_lt (n : nat) (best : hop_count) : bool :=
  match best with Inf => true | Hops m => bool_decide (n < m) end.

(** [self.best_path_hop_count <= 2] *)
Definition hop_le_2 (best : hop_count) : bool :=
  match best with Inf => false | Hops m => bool_decide (m ≤ 2) end.

(** The order of the hop counts, [Inf] on top. *)
Definition hop_count_le (a b : hop_count) : Prop :=
  match a, b with
  | _, Inf => True
  | Inf, Hops _ => False
  | Hops n, Hops m => n ≤ m
  end.

Definition hop_count_lt (a b : hop_count) : Prop :=
  match a, b with
  | Inf, _ => False
  | Hops _, Inf => True
  | Hops n, Hops m => n < m
  end.

(** A flood is named by the pair [(self.source, self.rreq_broadcast_id)];
    [self.source] may be [None]. *)
Definition rreq_key : Type := option nat * nat.

Module Node.

(** The fields of a node the engine reads.  Positions, velocities and the
    radio range enter the engine only through the test
    [distance_to(node) <= communication_range], whose outcome is an
    argument ([in_range]) of the operations that make it. *)
Record t := mk {
  neighbors : list nat;
  rreq_seen : gset rreq_key;
  is_moving : bool
}.

(** [Node.__init__] *)
Definition init : t := {| neighbors := []; rreq_seen := ∅; is_moving := false |}.

(** [Node.add_neighbor] *)
Definition add_neighbor (neighbor : nat) (self : t) : t :=
  if bool_decide (neighbor ∈ neighbors self) then self
  else {| neighbors := neighbors self ++ [neighbor];
          rreq_seen := rreq_seen self; is_moving := is_moving self |}.

(** [Node.start_moving] and [Node.stop_moving] *)
Definition start_moving (self : t) : t :=
  {| neighbors := neighbors self; rreq_seen := rreq_seen self; is_moving := true |}.

Definition stop_moving (self : t) : t :=
  {| neighbors := neighbors self; rreq_seen := rreq_seen self; is_moving := false |}.

(** [Node.update_neighbors] of the node with id [self_id], among
    [all_nodes] nodes: every other node that is in range, in id order. *)
Definition update_neighbors (self_id all_nodes : nat) (in_range : nat → bool)
    (self : t) : t :=
  if is_moving self then
    {| neighbors := filter (λ j, j ≠ self_id ∧ in_range j = true) (seq 0 all_nodes);
       rreq_seen := rreq_seen self; is_moving := is_moving self |}
  else self.

(** [self.rreq_seen.add(key)] and [self.rreq_seen.clear()] *)
Definition see (key : rreq_key) (self : t) : t :=
  {| neighbors := neighbors self; rreq_seen := {[ key ]} ∪ rreq_seen self;
     is_moving := is_moving self |}.

Definition clear_seen (self : t) : t :=
  {| neighbors := neighbors self; rreq_seen := ∅; is_moving := is_moving self |}.

End Node.

(** ** The engine *)

Module AODVSimulator.

Record t := mk {
  nodes : list Node.t;
  active_packets : list AnimatedPacket.t;
  packet_queue : list AnimatedPacket.t;
  num_nodes : nat;
  source : option nat;
  destination : option nat;
  simulation_running : bool;
  simulation_complete : bool;
  packet_counter : nat;
  final_path : list nat;
  discovered_paths : list (list nat);
  all_discovered_paths_to_dest : list (list nat);
  animation_speed : float;
  rreq_broadcast_id : nat;
  best_path_hop_count : hop_count;
  route_established : bool;
  mobility_enabled : bool
}.

Definition set_nodes (x : list Node.t) (s : t) : t :=
  {| nodes := x; active_packets := active_packets s; packet_queue := packet_queue s;
     num_nodes := num_nodes s; source := source s; destination := destination s;
     simulation_running := simulation_running s;
     simulation_complete := simulation_complete s; packet_counter := packet_counter s;
     final_path := final_path s; discovered_paths := discovered_paths s;
     all_discovered_paths_to_dest := all_discovered_paths_to_dest s;
     animation_speed := animation_speed s; rreq_broadcast_id := rreq_broadcast_id s;
     best_path_hop_count := best_path_hop_count s;
     route_established := route_established s; mobility_enabled := mobility_enabled s |}.

Definition set_active_packets (x : list AnimatedPacket.t) (s : t) : t :=
  {| nodes := nodes s; active_packets := x; packet_queue := packet_queue s;
     num_nodes := num_nodes s; source := source s; destination := destination s;
     simulation_running := simulation_running s;
     simulation_complete := simulation_complete s; packet_counter := packet_counter s;
     final_path := final_path s; discovered_paths := discovered_paths s;
     all_discovered_paths_to_dest := all_discovered_paths_to_dest s;
     animation_speed := animation_speed s; rreq_broadcast_id := rreq_broadcast_id s;
     best_path_hop_count := best_path_hop_count s;
     route_established := route_established s; mobility_enabled := mobility_enabled s |}.

Definition set_packet_queue (x : list AnimatedPacket.t) (s : t) : t :=
  {| nodes := nodes s; active_packets := active_packets s; packet_queue := x;
     num_nodes := num_nodes s; source := source s; destination := destination s;
     simulation_running := simulation_running s;
     simulation_complete := simulation_complete s; packet_counter := packet_counter s;
     final_path := final_path s; discovered_paths := discovered_paths s;
     all_discovered_paths_to_dest := all_discovered_paths_to_dest s;
     animation_speed := animation_speed s; rreq_broadcast_id := rreq_broadcast_id s;
     best_path_hop_count := best_path_hop_count s;
     route_established := route_established s; mobility_enabled := mobility_enabled s |}.

Definition set_num_nodes (x : nat) (s : t) : t :=
  {| nodes := nodes s; active_packets := active_packets s; packet_queue := packet_queue s;
     num_nodes := x; source := source s; destination := destination s;
     simulation_running := simulation_running s;
     simulation_complete := simulation_complete s; packet_counter := packet_counter s;
     final_path := final_path s; discovered_paths := discovered_paths s;
     all_discovered_paths_to_dest := all_discovered_paths_to_dest s;
     animation_speed := animation_speed s; rreq_broadcast_id := rreq_broadcast_id s;
     best_path_hop_count := best_path_hop_count s;
     route_established := route_established s; mobility_enabled := mobility_enabled s |}.

Definition set_source (x : option nat) (s : t) : t :=
  {| nodes := nodes s; active_packets := active_packets s; packet_queue := packet_queue s;
     num_nodes := num_nodes s; source := x; destination := destination s;
     simulation_running := simulation_running s;
     simulation_complete := simulation_complete s; packet_counter := packet_counter s;
     final_path := final_path s; discovered_paths := discovered_paths s;
     all_discovered_paths_to_dest := all_discovered_paths_to_dest s;
     animation_speed := animation_speed s; rreq_broadcast_id := rreq_broadcast_id s;
     best_path_hop_count := best_path_hop_count s;
     route_established := route_established s; mobility_enabled := mobility_enabled s |}.

Definition set_destination (x : option nat) (s : t) : t :=
  {| nodes := nodes s; active_packets := active_packets s; packet_queue := packet_queue s;
     num_nodes := num_nodes s; source := source s; destination := x;
     simulation_running := simulation_running s;
     simulation_complete := simulation_complete s; packet_counter := packet_counter s;
     final_path := final_path s; discovered_paths := discovered_paths s;
     all_discovered_paths_to_dest := all_discovered_paths_to_dest s;
     animation_speed := animation_speed s; rreq_broadcast_id := rreq_broadcast_id s;
     best_path_hop_count := best_path_hop_count s;
     route_established := route_established s; mobility_enabled := mobility_enabled s |}.

Definition set_simulation_running (x : bool) (s : t) : t :=
  {| nodes := nodes s; active_packets := active_packets s; packet_queue := packet_queue s;
     num_nodes := num_nodes s; source := source s; destination := destination s;
     simulation_running := x; simulation_complete := simulation_complete s;
     packet_counter := packet_counter s; final_path := final_path s;
     discovered_paths := discovered_paths s;
     all_discovered_paths_to_dest := all_discovered_paths_to_dest s;
     animation_speed := animation_speed s; rreq_broadcast_id := rreq_broadcast_id s;
     best_path_hop_count := best_path_hop_count s;
     route_established := route_established s; mobility_enabled := mobility_enabled s |}.

Definition set_simulation_complete (x : bool) (s : t) : t :=
  {| nodes := nodes s; active_packets := active_packets s; packet_queue := packet_queue s;
     num_nodes := num_nodes s; source := source s; destination := destination s;
     simulation_running := simulation_running s; simulation_complete := x;
     packet_counter := packet_counter s; final_path := final_path s;
     discovered_paths := discovered_paths s;
     all_discovered_paths_to_dest := all_discovered_paths_to_dest s;
     animation_speed := animation_speed s; rreq_broadcast_id := rreq_broadcast_id s;
     best_path_hop_count := best_path_hop_count s;
     route_established := route_established s; mobility_enabled := mobility_enabled s |}.

Definition set_packet_counter (x : nat) (s : t) : t :=
  {| nodes := nodes s; active_packets := active_packets s; packet_queue := packet_queue s;
     num_nodes := num_nodes s; source := source s; destination := destination s;
     simulation_running := simulation_running s;
     simulation_complete := simulation_complete s; packet_counter := x;
     final_path := final_path s; discovered_paths := discovered_paths s;
     all_discovered_paths_to_dest := all_discovered_paths_to_dest s;
     animation_speed := animation_speed s; rreq_broadcast_id := rreq_broadcast_id s;
     best_path_hop_count := best_path_hop_count s;
     route_established := route_established s; mobility_enabled := mobility_enabled s |}.

Definition set_final_path (x : list nat) (s : t) : t :=
  {| nodes := nodes s; active_packets := active_packets s; packet_queue := packet_queue s;
     num_nodes := num_nodes s; source := source s; destination := destination s;
     simulation_running := simulation_running s;
     simulation_complete := simulation_complete s; packet_counter := packet_counter s;
     final_path := x; discovered_paths := discovered_paths s;
     all_discovered_paths_to_dest := all_discovered_paths_to_dest s;
     animation_speed := animation_speed s; rreq_broadcast_id := rreq_broadcast_id s;
     best_path_hop_count := best_path_hop_count s;
     route_established := route_established s; mobility_enabled := mobility_enabled s |}.

Definition set_discovered_paths (x : list (list nat)) (s : t) : t :=
  {| nodes := nodes s; active_packets := active_packets s; packet_queue := packet_queue s;
     num_nodes := num_nodes s; source := source s; destination := destination s;
     simulation_running := simulation_running s;
     simulation_complete := simulation_complete s; packet_counter := packet_counter s;
     final_path := final_path s; discovered_paths := x;
     all_discovered_paths_to_dest := all_discovered_paths_to_dest s;
     animation_speed := animation_speed s; rreq_broadcast_id := rreq_broadcast_id s;
     best_path_hop_count := best_path_hop_count s;
     route_established := route_established s; mobility_enabled := mobility_enabled s |}.

Definition set_all_discovered_paths_to_dest (x : list (list nat)) (s : t) : t :=
  {| nodes := nodes s; active_packets := active_packets s; packet_queue := packet_queue s;
     num_nodes := num_nodes s; source := source s; destination := destination s;
     simulation_running := simulation_running s;
     simulation_complete := simulation_complete s; packet_counter := packet_counter s;
     final_path := final_path s; discovered_paths := discovered_paths s;
     all_discovered_paths_to_dest := x; animation_speed := animation_speed s;
     rreq_broadcast_id := rreq_broadcast_id s;
     best_path_hop_count := best_path_hop_count s;
     route_established := route_established s; mobility_enabled := mobility_enabled s |}.

Definition set_animation_speed (x : float) (s : t) : t :=
  {| nodes := nodes s; active_packets := active_packets s; packet_queue := packet_queue s;
     num_nodes := num_nodes s; source := source s; destination := destination s;
     simulation_running := simulation_running s;
     simulation_complete := simulation_complete s; packet_counter := packet_counter s;
     final_path := final_path s; discovered_paths := discovered_paths s;
     all_discovered_paths_to_dest := all_discovered_paths_to_dest s; animation_speed := x;
     rreq_broadcast_id := rreq_broadcast_id s;
     best_path_hop_count := best_path_hop_count s;
     route_established := route_established s; mobility_enabled := mobility_enabled s |}.

Definition set_rreq_broadcast_id (x : nat) (s : t) : t :=
  {| nodes := nodes s; active_packets := active_packets s; packet_queue := packet_queue s;
     num_nodes := num_nodes s; source := source s; destination := destination s;
     simulation_running := simulation_running s;
     simulation_complete := simulation_complete s; packet_counter := packet_counter s;
     final_path := final_path s; discovered_paths := discovered_paths s;
     all_discovered_paths_to_dest := all_discovered_paths_to_dest s;
     animation_speed := animation_speed s; rreq_broadcast_id := x;
     best_path_hop_count := best_path_hop_count s;
     route_established := route_established s; mobility_enabled := mobility_enabled s |}.

Definition set_best_path_hop_count (x : hop_count) (s : t) : t :=
  {| nodes := nodes s; active_packets := active_packets s; packet_queue := packet_queue s;
     num_nodes := num_nodes s; source := source s; destination := destination s;
     simulation_running := simulation_running s;
     simulation_complete := simulation_complete s; packet_counter := packet_counter s;
     final_path := final_path s; discovered_paths := discovered_paths s;
     all_discovered_paths_to_dest := all_discovered_paths_to_dest s;
     animation_speed := animation_speed s; rreq_broadcast_id := rreq_broadcast_id s;
     best_path_hop_count := x; route_established := route_established s;
     mobility_enabled := mobility_enabled s |}.

Definition set_route_established (x : bool) (s : t) : t :=
  {| nodes := nodes s; active_packets := active_packets s; packet_queue := packet_queue s;
     num_nodes := num_nodes s; source := source s; destination := destination s;
     simulation_running := simulation_running s;
     simulation_complete := simulation_complete s; packet_counter := packet_counter s;
     final_path := final_path s; discovered_paths := discovered_paths s;
     all_discovered_paths_to_dest := all_discovered_paths_to_dest s;
     animation_speed := animation_speed s; rreq_broadcast_id := rreq_broadcast_id s;
     best_path_hop_count := best_path_hop_count s; route_established := x;
     mobility_enabled := mobility_enabled s |}.

Definition set_mobility_enabled (x : bool) (s : t) : t :=
  {| nodes := nodes s; active_packets := active_packets s; packet_queue := packet_queue s;
     num_nodes := num_nodes s; source := source s; destination := destination s;
     simulation_running := simulation_running s;
     simulation_complete := simulation_complete s; packet_counter := packet_counter s;
     final_path := final_path s; discovered_paths := discovered_paths s;
     all_discovered_paths_to_dest := all_discovered_paths_to_dest s;
     animation_speed := animation_speed s; rreq_broadcast_id := rreq_broadcast_id s;
     best_path_hop_count := best_path_hop_count s;
     route_established := route_established s; mobility_enabled := x |}.
(** The record of floods seen by the node [i]. *)
Definition seen (i : nat) (self : t) : gset rreq_key :=
  match nodes self !! i with
  | Some n => Node.rreq_seen n
  | None => ∅
  end.

(** The adjacency part of [setup_nodes]: [num_nodes] fresh nodes with the
    ids [0 .. num_nodes - 1]; a link from [i] to every [j ≠ i] in range;
    then, for [i < j], both links of an extra long link.  [in_range i j]
    is the outcome of [distance <= node1.communication_range], and
    [extra i j] that of the band test together with the random draw. *)
Definition basic_links (in_range : nat → nat → bool) (n : nat)
    (ns : list Node.t) : list Node.t :=
  foldl (λ ns i,
    foldl (λ ns j,
      if bool_decide (i ≠ j) && in_range i j
      then alter (Node.add_neighbor j) i ns else ns) ns (seq 0 n)) ns (seq 0 n).

Definition extra_links (extra : nat → nat → bool) (n : nat)
    (ns : list Node.t) : list Node.t :=
  foldl (λ ns i,
    foldl (λ ns j,
      if bool_decide (i ≠ j) && extra i j
      then alter (Node.add_neighbor i) j (alter (Node.add_neighbor j) i ns)
      else ns) ns (seq (S i) (n - S i))) ns (seq 0 n).

Definition setup_nodes (in_range extra : nat → nat → bool) (self : t) : t :=
  let n := num_nodes self in
  set_nodes (extra_links extra n (basic_links in_range n (replicate n Node.init))) self.

(** [AODVSimulator.__init__] *)
Definition init (in_range extra : nat → nat → bool) : t :=
  setup_nodes in_range extra
    {| nodes := []; active_packets := []; packet_queue := []; num_nodes := 15;
       source := None; destination := None; simulation_running := false;
       simulation_complete := false; packet_counter := 0; final_path := [];
       discovered_paths := []; all_discovered_paths_to_dest := [];
       animation_speed := 1%float; rreq_broadcast_id := 0;
       best_path_hop_count := Inf; route_established := false;
       mobility_enabled := false |}.

(** [toggle_mobility] *)
Definition toggle_mobility (self : t) : t :=
  let self := set_mobility_enabled (negb (mobility_enabled self)) self in
  set_nodes
    ((if mobility_enabled self then Node.start_moving else Node.stop_moving)
       <$> nodes self) self.

(** [reset_simulation] *)
Definition reset_simulation (self : t) : t :=
  let self := set_active_packets [] self in
  let self := set_packet_queue [] self in
  let self := set_simulation_running false self in
  let self := set_simulation_complete false self in
  let self := set_final_path [] self in
  let self := set_discovered_paths [] self in
  let self := set_all_discovered_paths_to_dest [] self in
  let self := set_best_path_hop_count Inf self in
  let self := set_route_established false self in
  let self := set_packet_counter 0 self in
  set_nodes (Node.clear_seen <$> nodes self) self.

(** One turn of the loop of [start_rreq_flooding], for the neighbor
    [neighbor] of the source [src]. *)
Definition seed (src : nat) (self : t) (neighbor : nat) : t :=
  let path := [src; neighbor] in
  let packet := AnimatedPacket.init (packet_counter self) RREQ path 0.8%float
                  (Some src) (Some neighbor) in
  let self := set_packet_queue (packet_queue self ++ [packet]) self in
  let self := set_packet_counter (S (packet_counter self)) self in
  let self := set_discovered_paths (discovered_paths self ++ [path]) self in
  set_nodes (alter (Node.see (source self, rreq_broadcast_id self)) src (nodes self)) self.

(** [start_rreq_flooding]; [self.nodes[self.source]] raises when the source
    is [None] or is not the id of a node. *)
Definition start_rreq_flooding (self : t) : option t :=
  let self := set_rreq_broadcast_id (packet_counter self) self in
  let self := set_packet_counter (S (packet_counter self)) self in
  src ← source self;
  source_node ← nodes self !! src;
  Some (foldl (seed src) self (Node.neighbors source_node)).

(** [start_simulation] *)
Definition start_simulation (self : t) : option t :=
  if bool_decide (source self = None ∨ destination self = None) then Some self
  else
    let self := reset_simulation self in
    let self := set_simulation_running true self in
    start_rreq_flooding self.

(** [send_rrep_back]; [path[-2]] raises on a path of fewer than two nodes. *)
Definition send_rrep_back (path : list nat) (self : t) : option t :=
  let rrep_path := reverse path in
  let rrep_packet := AnimatedPacket.init (packet_counter self) RREP rrep_path 0.8%float
                       None None in
  let self := set_packet_queue (packet_queue self ++ [rrep_packet]) self in
  let self := set_packet_counter (S (packet_counter self)) self in
  if bool_decide (2 ≤ length path) then Some self else None.

(** [send_data_packet]; [self.final_path[1]] raises on a path of fewer than
    two nodes. *)
Definition send_data_packet (self : t) : option t :=
  let data_packet := AnimatedPacket.init (packet_counter self) DATA (final_path self)
                       0.8%float None None in
  let self := set_packet_queue (packet_queue self ++ [data_packet]) self in
  let self := set_packet_counter (S (packet_counter self)) self in
  if bool_decide (2 ≤ length (final_path self)) then Some self else None.

(** One turn of the forwarding loop of [process_packet_completion], for the
    neighbor [neighbor] of the node [current_node_id] the packet reached. *)
Definition forward (packet : AnimatedPacket.t) (current_node_id : nat)
    (self : t) (neighbor : nat) : t :=
  if bool_decide (neighbor ∉ AnimatedPacket.path packet) then
    let key : rreq_key := (source self, rreq_broadcast_id self) in
    if bool_decide (key ∉ seen neighbor self) then
      let new_path := AnimatedPacket.path packet ++ [neighbor] in
      let new_packet := AnimatedPacket.init (packet_counter self) RREQ new_path
                          0.8%float (Some current_node_id) (Some neighbor) in
      let self := set_packet_queue (packet_queue self ++ [new_packet]) self in
      let self := set_packet_counter (S (packet_counter self)) self in
      let self := set_discovered_paths (discovered_paths self ++ [new_path]) self in
      set_nodes (alter (Node.see key) neighbor (nodes self)) self
    else self
  else self.

(** The part of the [RREQ] branch that runs when the packet reached the
    destination: the state, and whether the method returns there. *)
Definition record_path (path : list nat) (self : t) : option (t * bool) :=
  let self := set_all_discovered_paths_to_dest
                (all_discovered_paths_to_dest self ++ [path]) self in
  let hop_count := length path - 1 in
  self ← (if hop_lt hop_count (best_path_hop_count self) then
            let self := set_best_path_hop_count (Hops hop_count) self in
            let self := set_final_path path self in
            send_rrep_back path self
          else Some self);
  if bool_decide (5 ≤ length (all_discovered_paths_to_dest self))
     || hop_le_2 (best_path_hop_count self)
  then Some (set_route_established true self, true)
  else Some (self, false).

(** [process_packet_completion]; [packet.path[-1]] raises on an empty path
    and [self.nodes[current_node_id]] on an id that is not a node's. *)
Definition process_packet_completion (packet : AnimatedPacket.t) (self : t)
    : option t :=
  current_node_id ← last (AnimatedPacket.path packet);
  match AnimatedPacket.type packet with
  | RREQ =>
      '(self, returned) ←
        (if bool_decide (Some current_node_id = destination self)
         then record_path (AnimatedPacket.path packet) self
         else Some (self, false));
      if returned : bool then Some self
      else
        current_node ← nodes self !! current_node_id;
        Some (foldl (forward packet current_node_id) self (Node.neighbors current_node))
  | RREP =>
      if bool_decide (Some current_node_id = source self)
      then send_data_packet self
      else Some self
  | DATA =>
      if bool_decide (Some current_node_id = destination self)
      then Some (set_simulation_running false (set_simulation_complete true self))
      else Some self
  | RERR =>
      if bool_decide (Some current_node_id = source self)
      then start_rreq_flooding self
      else Some self
  end.

(** [simulate_route_error]; [break_index] is the value drawn by
    [random.randint(1, len(self.final_path) - 2)], so a value outside that
    range is no outcome of the call. *)
Definition simulate_route_error (break_index : nat) (self : t) : option t :=
  if bool_decide (final_path self = [] ∨ length (final_path self) < 3) then Some self
  else if bool_decide (1 ≤ break_index ≤ length (final_path self) - 2) then
    from_node ← final_path self !! (break_index - 1);
    to_node ← final_path self !! break_index;
    let rerr_path := [from_node; to_node] in
    let rerr_packet := AnimatedPacket.init (packet_counter self) RERR rerr_path
                         0.8%float (Some from_node) (Some to_node) in
    let self := set_packet_queue (packet_queue self ++ [rerr_packet]) self in
    Some (set_packet_counter (S (packet_counter self)) self)
  else None.

(** *** The tick: [AODVSimulator.update] *)

(** The mobility step: every node in turn moves and recomputes its
    neighbors; [in_range i j] is the outcome of node [i]'s range test
    against node [j] at that moment. *)
Definition move_nodes (in_range : nat → nat → bool) (self : t) : t :=
  if mobility_enabled self then
    set_nodes
      (imap (λ i, Node.update_neighbors i (length (nodes self)) (in_range i))
         (nodes self)) self
  else self.

(** [packet.update(delta_time, self.animation_speed)] on every active
    packet, in order: each packet after the call, with the flag returned. *)
Definition advance_packets (delta_time : float) (self : t)
    : list (AnimatedPacket.t * bool) :=
  (λ packet, AnimatedPacket.update packet delta_time (animation_speed self))
    <$> active_packets self.

(** [completed_packets], and what is left of [active_packets] once they
    are removed. *)
Definition completed_of (rs : list (AnimatedPacket.t * bool)) : list AnimatedPacket.t :=
  (filter (λ r, r.2 = true) rs).*1.

Definition remaining_of (rs : list (AnimatedPacket.t * bool)) : list AnimatedPacket.t :=
  (filter (λ r, r.2 = false) rs).*1.

(** The loop over [completed_packets]. *)
Fixpoint process_completions (completed_packets : list AnimatedPacket.t) (self : t)
    : option t :=
  match completed_packets with
  | [] => Some self
  | packet :: rest =>
      self ← process_packet_completion packet self;
      process_completions rest self
  end.

(** [while self.packet_queue and len(self.active_packets) < 5] *)
Fixpoint refill (active queue : list AnimatedPacket.t)
    : list AnimatedPacket.t * list AnimatedPacket.t :=
  match queue with
  | [] => (active, [])
  | new_packet :: queue' =>
      if bool_decide (length active < 5) then refill (active ++ [new_packet]) queue'
      else (active, queue)
  end.

Definition refill_active (self : t) : t :=
  let '(active, queue) := refill (active_packets self) (packet_queue self) in
  set_packet_queue queue (set_active_packets active self).

(** The state of the tick before its last [if]: nodes moved, packets
    advanced, completed packets handed to the state machine, active set
    refilled. *)
Definition drain (delta_time : float) (in_range : nat → nat → bool) (self : t)
    : option t :=
  let self := move_nodes in_range self in
  let rs := advance_packets delta_time self in
  let self := set_active_packets (remaining_of rs) self in
  self ← process_completions (completed_of rs) self;
  Some (refill_active self).

(** The last [if] of the tick. *)
Definition finish (self : t) : option t :=
  if bool_decide (active_packets self = []) && bool_decide (packet_queue self = [])
     && simulation_running self
  then
    if bool_decide (final_path self ≠ []) then send_data_packet self
    else Some (set_simulation_running false (set_simulation_complete true self))
  else Some self.

Definition update (delta_time : float) (in_range : nat → nat → bool) (self : t)
    : option t :=
  if negb (simulation_running self) then Some self
  else
    self ← drain delta_time in_range self;
    finish self.

End AODVSimulator.

(** ** The driver: what [main] does to the engine *)

Inductive Command :=
  | SetSpeed (value : float)
  | ToggleMobility
  | ApplyNodes (n : nat) (in_range extra : nat → nat → bool)
  | RunSim
  | ResetSim
  | SimRerr (break_index : nat)
  | NewFormation (in_range extra : nat → nat → bool)
  | ClickNode (node_id : nat)
  | Tick (delta_time : float) (in_range : nat → nat → bool).

(** A click on the node [node_id]: first the source, then the destination,
    then the source again. *)
Definition click_node (node_id : nat) (self : AODVSimulator.t) : AODVSimulator.t :=
  if bool_decide (length (AODVSimulator.nodes self) ≤ node_id) then self
  else if bool_decide (AODVSimulator.source self = None)
  then AODVSimulator.set_source (Some node_id) self
  else if bool_decide (AODVSimulator.destination self = None)
          && bool_decide (Some node_id ≠ AODVSimulator.source self)
  then AODVSimulator.set_destination (Some node_id) self
  else AODVSimulator.set_destination None (AODVSimulator.set_source (Some node_id) self).

Definition clear_endpoints (self : AODVSimulator.t) : AODVSimulator.t :=
  AODVSimulator.set_destination None (AODVSimulator.set_source None self).

(** [min(delta_time, 0.033)] *)
Definition clamp_delta (delta_time : float) : float :=
  if (0.033 <? delta_time)%float then 0.033%float else delta_time.

Definition handle (self : AODVSimulator.t) (c : Command) : option AODVSimulator.t :=
  match c with
  | SetSpeed value => Some (AODVSimulator.set_animation_speed value self)
  | ToggleMobility => Some (AODVSimulator.toggle_mobility self)
  | ApplyNodes n in_range extra =>
      let self := AODVSimulator.set_num_nodes (Nat.min (Nat.max 3 n) 99) self in
      Some (clear_endpoints (AODVSimulator.setup_nodes in_range extra self))
  | RunSim =>
      if bool_decide (AODVSimulator.source self ≠ None ∧ AODVSimulator.destination self ≠ None)
      then AODVSimulator.start_simulation self
      else Some self
  | ResetSim => Some (clear_endpoints (AODVSimulator.reset_simulation self))
  | SimRerr break_index => AODVSimulator.simulate_route_error break_index self
  | NewFormation in_range extra =>
      Some (AODVSimulator.reset_simulation
              (clear_endpoints (AODVSimulator.setup_nodes in_range extra self)))
  | ClickNode node_id => Some (click_node node_id self)
  | Tick delta_time in_range =>
      AODVSimulator.update (clamp_delta delta_time) in_range self
  end.

Fixpoint run (self : AODVSimulator.t) (cs : list Command) : option AODVSimulator.t :=
  match cs with
  | [] => Some self
  | c :: cs => self ← handle self c; run self cs
  end.

(** The states the program can be in: those a run of commands reaches from
    a freshly constructed engine. *)
Definition reachable (self : AODVSimulator.t) : Prop :=
  ∃ in_range extra cs, run (AODVSimulator.init in_range extra) cs = Some self.

(** ** Topologies and runs used in the examples *)

(** The range test of a topology given by its links. *)
Definition linked (links : list (nat * nat)) (i j : nat) : bool :=
  bool_decide ((i, j) ∈ links ∨ (j, i) ∈ links).

Definition no_extra (i j : nat) : bool := false.

Definition ticks (n : nat) (links : list (nat * nat)) : list Command :=
  replicate n (Tick 0.033%float (linked links)).

Definition engine_with (n : nat) (links : list (nat * nat)) : list Command :=
  [ApplyNodes n (linked links) no_extra].

Definition state_after (cs : list Command) : AODVSimulator.t :=
  default (AODVSimulator.init no_extra no_extra)
    (run (AODVSimulator.init no_extra no_extra) cs).

Definition paths_of (ps : list AnimatedPacket.t) : list (PacketType * list nat) :=
  (λ p, (AnimatedPacket.type p, AnimatedPacket.path p)) <$> ps.

Definition chain : list (nat * nat) := [(0, 3); (3, 5); (5, 7)].


(** ** Relations between the states of a session *)

(** The links of the topology, node by node. *)
Definition adjacency (self : AODVSimulator.t) : list (list nat) :=
  Node.neighbors <$> AODVSimulator.nodes self.

(** What [setup_nodes] and [update_neighbors] guarantee of the links: no node
    is its own neighbor, and every neighbor is a node of the list. *)
Definition links_ok (adj : list (list nat)) : Prop :=
  ∀ i links, adj !! i = Some links → ∀ j, j ∈ links → j ≠ i ∧ j < length adj.

Definition topology_ok (self : AODVSimulator.t) : Prop := links_ok (adjacency self).

(** Every [RREQ] packet in flight or in the queue, and every path the flood
    recorded in [discovered_paths], visits no node twice. *)
Definition loop_free (self : AODVSimulator.t) : Prop :=
  (∀ p, p ∈ AODVSimulator.active_packets self ++ AODVSimulator.packet_queue self →
        AnimatedPacket.type p = RREQ → NoDup (AnimatedPacket.path p)) ∧
  (∀ path, path ∈ AODVSimulator.discovered_paths self → NoDup path).

(** The commands of the driver that call [reset_simulation] or rebuild the
    topology under a running session. *)
Definition calls_reset (c : Command) : bool :=
  match c with
  | RunSim | ResetSim | NewFormation _ _ => true
  | _ => false
  end.

(** [evolves st st']: [st'] is [st] after some packets were handed to the
    state machine; what such a step leaves alone and what it only moves in
    one direction. *)
Record evolves (st st' : AODVSimulator.t) : Prop := {
  evolves_active : AODVSimulator.active_packets st' = AODVSimulator.active_packets st;
  evolves_source : AODVSimulator.source st' = AODVSimulator.source st;
  evolves_destination : AODVSimulator.destination st' = AODVSimulator.destination st;
  evolves_num_nodes : AODVSimulator.num_nodes st' = AODVSimulator.num_nodes st;
  evolves_speed : AODVSimulator.animation_speed st' = AODVSimulator.animation_speed st;
  evolves_mobility :
    AODVSimulator.mobility_enabled st' = AODVSimulator.mobility_enabled st;
  evolves_adjacency : adjacency st' = adjacency st;
  evolves_moving :
    Node.is_moving <$> AODVSimulator.nodes st' = Node.is_moving <$> AODVSimulator.nodes st;
  evolves_seen : ∀ n, AODVSimulator.seen n st ⊆ AODVSimulator.seen n st';
  evolves_queue :
    ∃ new, AODVSimulator.packet_queue st' = AODVSimulator.packet_queue st ++ new;
  evolves_counter : AODVSimulator.packet_counter st ≤ AODVSimulator.packet_counter st';
  evolves_discovered :
    ∃ new, AODVSimulator.discovered_paths st' = AODVSimulator.discovered_paths st ++ new;
  evolves_best :
    hop_count_le (AODVSimulator.best_path_hop_count st')
      (AODVSimulator.best_path_hop_count st);
  evolves_final :
    (AODVSimulator.final_path st' = AODVSimulator.final_path st ∧
     AODVSimulator.best_path_hop_count st' = AODVSimulator.best_path_hop_count st) ∨
    (hop_count_lt (AODVSimulator.best_path_hop_count st')
       (AODVSimulator.best_path_hop_count st) ∧
     2 ≤ length (AODVSimulator.final_path st'));
  evolves_flags :
    (AODVSimulator.simulation_running st' = AODVSimulator.simulation_running st ∧
     AODVSimulator.simulation_complete st' = AODVSimulator.simulation_complete st) ∨
    (AODVSimulator.simulation_running st' = false ∧
     AODVSimulator.simulation_complete st' = true)
}.

(** A source with six neighbors. *)
Definition star : list (nat * nat) := [(0, 1); (0, 2); (0, 3); (0, 4); (0, 5); (0, 6)].

(** Three nodes in a line. *)
Definition line : list (nat * nat) := [(0, 1); (1, 2)].

(** [advances st st']: what a whole tick guarantees of the session. *)
Record advances (st st' : AODVSimulator.t) : Prop := {
  advances_source : AODVSimulator.source st' = AODVSimulator.source st;
  advances_destination : AODVSimulator.destination st' = AODVSimulator.destination st;
  advances_best :
    hop_count_le (AODVSimulator.best_path_hop_count st')
      (AODVSimulator.best_path_hop_count st);
  advances_final :
    (AODVSimulator.final_path st' = AODVSimulator.final_path st ∧
     AODVSimulator.best_path_hop_count st' = AODVSimulator.best_path_hop_count st) ∨
    (hop_count_lt (AODVSimulator.best_path_hop_count st')
       (AODVSimulator.best_path_hop_count st) ∧
     2 ≤ length (AODVSimulator.final_path st'));
  advances_flags :
    (AODVSimulator.simulation_running st' = AODVSimulator.simulation_running st ∧
     AODVSimulator.simulation_complete st' = AODVSimulator.simulation_complete st) ∨
    (AODVSimulator.simulation_running st' = false ∧
     AODVSimulator.simulation_complete st' = true)
}.

(** The best path is a path some [RREQ] packet completed, and a running
    session is not complete. *)
Definition session_ok (st : AODVSimulator.t) : Prop :=
  (AODVSimulator.final_path st = [] ∨ 2 ≤ length (AODVSimulator.final_path st)) ∧
  (AODVSimulator.simulation_running st = true →
   AODVSimulator.simulation_complete st = false).

(** Two linked nodes and a third out of reach. *)
Definition island : list (nat * nat) := [(0, 1)].

(** Four nodes in a ring. *)
Definition ring : list (nat * nat) := [(0, 1); (1, 2); (2, 3); (3, 0)].

(** ** The flood of one discovery *)



(** A destination next to the source, and a branch leading away from it. *)
Definition fork : list (nat * nat) := [(0, 1); (0, 2); (2, 3); (3, 4)].

(** The session of the chain [0 - 3 - 5 - 7] once the route is found: source
    0, destination 7, best path [0, 3, 5, 7], the reply on its way back. *)
Definition route_found : list Command :=
  engine_with 8 chain ++ [ClickNode 0; ClickNode 7; RunSim] ++ ticks 234 chain.

(** The session of the fork, [n] ticks after its start: source 0 and
    destination 1, which are neighbors. *)
Definition fork_session (n : nat) : list Command :=
  engine_with 5 fork ++ [ClickNode 0; ClickNode 1; RunSim] ++ ticks n fork.




(** The session of the island from 0 to 1 in which, once the route [0, 1] is
    found, the source is moved to node 2 and node 1 is selected as the
    destination again while the reply is on its way; [n] ticks later. *)
Definition rerouted_session (n : nat) : list Command :=
  engine_with 3 island ++ [ClickNode 0; ClickNode 1; RunSim] ++ ticks 39 island
    ++ [ClickNode 2; ClickNode 1] ++ ticks n island.

(** ** Further invariants of the engine and of the driver *)

(** The endpoints the driver selected: each is the id of a node, a
    destination is only chosen once a source is, and it differs from it. *)
Definition endpoints_ok (self : AODVSimulator.t) : Prop :=
  (∀ s, AODVSimulator.source self = Some s → s < length (AODVSimulator.nodes self)) ∧
  (∀ d, AODVSimulator.destination self = Some d →
        d < length (AODVSimulator.nodes self) ∧
        AODVSimulator.source self ≠ None ∧ AODVSimulator.source self ≠ Some d).

(** Where a packet is on its path: a packet in flight has a next hop on the
    path, and a completed packet sits on the last node of the path with its
    progress at 1.0. *)
Definition position_ok (p : AnimatedPacket.t) : Prop :=
  if AnimatedPacket.completed p
  then S (AnimatedPacket.current_node_index p) = length (AnimatedPacket.path p) ∧
       AnimatedPacket.progress p = 1%float
  else S (AnimatedPacket.current_node_index p) < length (AnimatedPacket.path p).

(** A sequence of [update] calls, each with its own time step and speed
    multiplier (the engine passes the [animation_speed] of the tick): the
    packet at the end. *)
Definition update_calls (p : AnimatedPacket.t) (calls : list (float * float))
    : AnimatedPacket.t :=
  foldl (λ p call, (AnimatedPacket.update p call.1 call.2).1) p calls.

(** The seed packets of a flood: one per neighbor of the source, numbered
    from [first_id] on, in the order of the neighbor list. *)
Definition seeds (src first_id : nat) (neighbors : list nat) : list AnimatedPacket.t :=
  imap (λ k n, AnimatedPacket.init (first_id + k) RREQ [src; n] 0.8%float
                 (Some src) (Some n)) neighbors.

(** The calls of [add_neighbor] that [setup_nodes] makes, as a list: the pair
    [(i, j)] stands for [nodes[i].add_neighbor(nodes[j])]. *)
Definition add_links (ops : list (nat * nat)) (ns : list Node.t) : list Node.t :=
  foldl (λ ns op, alter (Node.add_neighbor op.2) op.1 ns) ns ops.

Definition basic_ops (in_range : nat → nat → bool) (n : nat) : list (nat * nat) :=
  i ← seq 0 n; j ← seq 0 n;
  if bool_decide (i ≠ j) && in_range i j then [(i, j)] else [].

Definition extra_ops (extra : nat → nat → bool) (n : nat) : list (nat * nat) :=
  i ← seq 0 n; j ← seq (S i) (n - S i);
  if bool_decide (i ≠ j) && extra i j then [(i, j); (j, i)] else [].

(** ** What keeps a tick from raising *)

(** A packet the state machine can process without an [IndexError]: its path
    is not empty and holds ids of nodes; a [ROUTE_REQUEST] has at least two
    nodes (so that its reply has a second node); and a [ROUTE_REPLY] is in
    flight only when a best path with a second node exists. *)
Definition packet_ok (st : AODVSimulator.t) (p : AnimatedPacket.t) : Prop :=
  AnimatedPacket.path p ≠ [] ∧
  (∀ x, x ∈ AnimatedPacket.path p → x < length (AODVSimulator.nodes st)) ∧
  (AnimatedPacket.type p = RREQ → 2 ≤ length (AnimatedPacket.path p)) ∧
  (AnimatedPacket.type p = RREP → 2 ≤ length (AODVSimulator.final_path st)).

Definition flight_ok (st : AODVSimulator.t) : Prop :=
  topology_ok st ∧
  (∀ p, p ∈ AODVSimulator.active_packets st ++ AODVSimulator.packet_queue st →
        packet_ok st p) ∧
  (∀ x, x ∈ AODVSimulator.final_path st → x < length (AODVSimulator.nodes st)) ∧
  (AODVSimulator.final_path st = [] ∨ 2 ≤ length (AODVSimulator.final_path st)).

(** The one command that can take a node away from under a packet: the
    Apply button with a lower node count, pressed while a session runs. *)
Definition shrinks_running (st : AODVSimulator.t) (c : Command) : Prop :=
  match c with
  | ApplyNodes n _ _ =>
      AODVSimulator.simulation_running st = true ∧
      Nat.min (Nat.max 3 n) 99 < length (AODVSimulator.nodes st)
  | _ => False
  end.

(** A run in which that never happens. *)
Fixpoint steady (st : AODVSimulator.t) (cs : list Command) : Prop :=
  match cs with
  | [] => True
  | c :: cs =>
      ¬ shrinks_running st c ∧
      match handle st c with
      | Some st' => steady st' cs
      | None => True
      end
  end.

Definition is_apply_nodes (c : Command) : bool :=
  match c with ApplyNodes _ _ _ => true | _ => false end.

(** ** The routes a session finds *)

(** Consecutive nodes of [path] are linked: each one has the next in its
    neighbor list. *)
Definition is_walk (adj : list (list nat)) (path : list nat) : Prop :=
  ∀ i a b, path !! i = Some a → path !! S i = Some b →
           ∃ links, adj !! a = Some links ∧ b ∈ links.

(** A route from [s] to [d]: a walk along the links that starts at [s], ends
    at [d] and visits no node twice. *)
Definition is_route (adj : list (list nat)) (s d : nat) (path : list nat) : Prop :=
  head path = Some s ∧ last path = Some d ∧ NoDup path ∧ is_walk adj path.

(** What a [ROUTE_REQUEST] carries: a loop-free walk from the source. *)
Definition request_ok (adj : list (list nat)) (s : nat) (p : AnimatedPacket.t) : Prop :=
  AnimatedPacket.type p = RREQ →
  head (AnimatedPacket.path p) = Some s ∧ NoDup (AnimatedPacket.path p) ∧
  is_walk adj (AnimatedPacket.path p).

(** The invariant of a session from [s] to [d] on the static topology [adj]. *)
Record route_ok (adj : list (list nat)) (s d : nat) (st : AODVSimulator.t) : Prop := {
  route_adjacency : adjacency st = adj;
  route_mobility : AODVSimulator.mobility_enabled st = false;
  route_source : AODVSimulator.source st = Some s;
  route_destination : AODVSimulator.destination st = Some d;
  route_requests :
    ∀ p, p ∈ AODVSimulator.active_packets st ++ AODVSimulator.packet_queue st →
         request_ok adj s p;
  route_recorded :
    ∀ path, path ∈ AODVSimulator.all_discovered_paths_to_dest st →
            is_route adj s d path ∧
            hop_count_le (AODVSimulator.best_path_hop_count st) (Hops (length path - 1));
  route_best :
    match AODVSimulator.best_path_hop_count st with
    | Inf => AODVSimulator.final_path st = [] ∧
             AODVSimulator.all_discovered_paths_to_dest st = []
    | Hops n => AODVSimulator.final_path st ∈ AODVSimulator.all_discovered_paths_to_dest st ∧
                n = length (AODVSimulator.final_path st) - 1
    end
}.

(** The commands that leave the session, its endpoints and the topology as
    they are: the speed slider, the route-error button and the ticks. *)
Definition in_session (c : Command) : bool :=
  match c with
  | SetSpeed _ | SimRerr _ | Tick _ _ => true
  | _ => false
  end.

(** The commands that build a new topology, and the ticks. *)
Definition is_setup (c : Command) : bool :=
  match c with ApplyNodes _ _ _ | NewFormation _ _ => true | _ => false end.

Definition is_tick (c : Command) : bool :=
  match c with Tick _ _ => true | _ => false end.

(** The node list has [num_nodes] nodes, and [num_nodes] is in the range the
    Apply button clamps to. *)
Definition node_count_ok (st : AODVSimulator.t) : Prop :=
  length (AODVSimulator.nodes st) = AODVSimulator.num_nodes st ∧
  3 ≤ AODVSimulator.num_nodes st ≤ 99.
(** * Properties *)

(** ** The packet motion model *)

Section packet_update.
Import AnimatedPacket.
Implicit Types (p : AnimatedPacket.t) (dt m : float).

Lemma update_completed p dt m :
  completed p = true → update p dt m = (p, false).
Proof. intros H. unfold update. by rewrite H. Qed.

Lemma update_path p dt m : path (update p dt m).1 = path p.
Proof.
  unfold update. destruct (completed p); [done|].
  cbn. destruct (_ <=? _)%float; [|done].
  by destruct (at_last_node _).
Qed.

Lemma update_type p dt m : type (update p dt m).1 = type p.
Proof.
  unfold update. destruct (completed p); [done|].
  cbn. destruct (_ <=? _)%float; [|done].
  by destruct (at_last_node _).
Qed.

(** The flag is raised by the call that completes the packet, and by no other. *)
Lemma update_true_iff p dt m :
  (update p dt m).2 = true ↔ completed p = false ∧ completed (update p dt m).1 = true.
Proof.
  unfold update. destruct (completed p) eqn:Hc; cbn.
  - rewrite Hc. split; [done|]. by intros [? _].
  - destruct (_ <=? _)%float; cbn; [|rewrite Hc; split; [done|by intros [_ ?]]].
    destruct (at_last_node _); cbn; [done|].
    rewrite Hc. split; [done|by intros [_ ?]].
Qed.

Lemma updates_completed p dts m :
  completed p = true → updates p dts m = (p, replicate (length dts) false).
Proof.
  intros H. induction dts as [|d ds IH]; [done|].
  cbn. rewrite (update_completed _ _ _ H), IH. done.
Qed.

Lemma filter_true_replicate_false n :
  filter (λ r, r = true) (replicate n false) = [].
Proof.
  induction n as [|n IH]; [done|].
  cbn [replicate]. by rewrite filter_cons_False.
Qed.

Lemma updates_true_at_most_once p dts m :
  length (filter (λ r, r = true) (updates p dts m).2) ≤ 1.
Proof.
  revert p. induction dts as [|d ds IH]; intros p; [cbn; lia|].
  cbn [updates]. destruct (update p d m) as [p1 r] eqn:Hu.
  specialize (IH p1). destruct (updates p1 ds m) as [p2 rs] eqn:Hus.
  cbn [snd] in *. destruct r.
  - assert (completed p1 = true) as Hc.
    { pose proof (proj1 (update_true_iff p d m)) as H. rewrite Hu in H. by apply H. }
    rewrite (updates_completed _ ds m Hc) in Hus. injection Hus as _ <-.
    rewrite filter_cons_True by done.
    rewrite filter_true_replicate_false. cbn. lia.
  - rewrite filter_cons_False by done. exact IH.
Qed.

End packet_update.

(** C4, as the code has it.  A call on a packet that is not completed adds
    [(base_speed * multiplier) * delta_time] to [progress]; when the sum is
    below 1.0 nothing else changes and the call returns false; when it reaches
    1.0 the packet steps to the next hop index, and then the call returns
    true, marks the packet completed and sets [progress] to 1.0 if that hop is
    the last node of the path, and returns false with [progress] reset to 0.0
    if it is an intermediate node.  A call on a completed packet returns false
    and changes nothing, so [progress] stays at 1.0 on all further calls.
    Over any sequence of calls, true is returned at most once: by the call
    that completes the packet. *)
Theorem C4_update_contract :
  ∀ (p : AnimatedPacket.t) (dt m : float),
    let sum := (AnimatedPacket.progress p + AnimatedPacket.base_speed p * m * dt)%float in
    let p' := (AnimatedPacket.update p dt m).1 in
    let r := (AnimatedPacket.update p dt m).2 in
    (AnimatedPacket.completed p = false → (1 <=? sum)%float = false →
       p' = AnimatedPacket.set_progress sum p ∧ r = false) ∧
    (AnimatedPacket.completed p = false → (1 <=? sum)%float = true →
       AnimatedPacket.current_node_index p' = S (AnimatedPacket.current_node_index p) ∧
       AnimatedPacket.path p' = AnimatedPacket.path p ∧
       if bool_decide (length (AnimatedPacket.path p)
                         ≤ S (S (AnimatedPacket.current_node_index p)))
       then AnimatedPacket.completed p' = true ∧
            AnimatedPacket.progress p' = 1%float ∧ r = true
       else AnimatedPacket.completed p' = false ∧
            AnimatedPacket.progress p' = 0%float ∧ r = false) ∧
    (AnimatedPacket.completed p = true →
       ∀ dts, AnimatedPacket.updates p dts m = (p, replicate (length dts) false)) ∧
    (∀ dts, length (filter (λ r, r = true) (AnimatedPacket.updates p dts m).2) ≤ 1).
Proof.
  intros p dt m sum p' r. repeat split.
  - subst p' r sum. unfold AnimatedPacket.update. rewrite H. cbn. by rewrite H0.
  - subst p' r sum. unfold AnimatedPacket.update. rewrite H. cbn. by rewrite H0.
  - subst p' r sum. unfold AnimatedPacket.update. rewrite H. cbn. rewrite H0.
    by destruct (AnimatedPacket.at_last_node _).
  - apply update_path.
  - subst p' r sum. unfold AnimatedPacket.update. rewrite H. cbn. rewrite H0.
    unfold AnimatedPacket.at_last_node. cbn.
    destruct (bool_decide (length _ ≤ _)) eqn:Hl.
    + apply bool_decide_eq_true in Hl. rewrite bool_decide_eq_true_2 by lia. done.
    + apply bool_decide_eq_false in Hl. rewrite bool_decide_eq_false_2 by lia. done.
  - intros Hc dts. by apply updates_completed.
  - intros dts. apply updates_true_at_most_once.
Qed.

(** A packet on the path [0, 1, 2], 37 ticks of 33 ms after its creation:
    the next tick takes it to node 1. *)
Lemma C4_update_contract_witness :
  let p := (AnimatedPacket.updates
              (AnimatedPacket.init 0 RREQ [0; 1; 2] 0.8%float None None)
              (replicate 37 0.033%float) 1%float).1 in
  AnimatedPacket.current_node_index (AnimatedPacket.update p 0.033%float 1%float).1 = 1 ∧
  AnimatedPacket.completed (AnimatedPacket.update p 0.033%float 1%float).1 = false ∧
  AnimatedPacket.progress (AnimatedPacket.update p 0.033%float 1%float).1 = 0%float ∧
  (AnimatedPacket.update p 0.033%float 1%float).2 = false.
Proof.
  intros p.
  destruct (C4_update_contract p 0.033%float 1%float) as (_ & H & _).
  destruct H as (H1 & _ & H2); [vm_compute; reflexivity ..|].
  split; [exact H1|]. exact H2.
Defined.

(** C4, as stated, fails: the call that takes a packet to an intermediate hop
    returns false.  On the path [0, 1, 2] the 38th tick of 33 ms moves the
    packet from node 0 to node 1 and resets its progress, and none of the 38
    calls returned true. *)
Lemma C4_counterexample :
  ¬ (∀ (p : AnimatedPacket.t) (dt m : float),
       2 ≤ length (AnimatedPacket.path p) →
       AnimatedPacket.current_node_index (AnimatedPacket.update p dt m).1
         = S (AnimatedPacket.current_node_index p) →
       (AnimatedPacket.update p dt m).2 = true).
Proof.
  intros H.
  specialize (H (AnimatedPacket.updates
                   (AnimatedPacket.init 0 RREQ [0; 1; 2] 0.8%float None None)
                   (replicate 37 0.033%float) 1%float).1 0.033%float 1%float).
  vm_compute in H. specialize (H ltac:(lia) eq_refl). discriminate H.
Qed.


(** ** Frame lemmas of the engine *)

Section frames.
Import AODVSimulator.
Implicit Types (self st : AODVSimulator.t) (packet : AnimatedPacket.t).

Lemma foldl_preserves {A B} (P : A → Prop) (f : A → B → A) (l : list B) (a : A) :
  P a → (∀ a b, b ∈ l → P a → P (f a b)) → P (foldl f a l).
Proof.
  revert a. induction l as [|b l IH]; intros a Ha Hf; [done|].
  cbn. apply IH.
  - apply Hf; [left|done].
  - intros a' b' Hb'. apply Hf. by right.
Qed.

Lemma hop_count_le_refl a : hop_count_le a a.
Proof. destruct a; cbn; lia. Qed.

Lemma hop_count_le_trans a b c : hop_count_le a b → hop_count_le b c → hop_count_le a c.
Proof. destruct a, b, c; cbn; try done; lia. Qed.

Lemma hop_count_lt_le a b : hop_count_lt a b → hop_count_le a b.
Proof. destruct a, b; cbn; try done; lia. Qed.

Lemma hop_count_lt_le_trans a b c : hop_count_lt a b → hop_count_le b c → hop_count_lt a c.
Proof. destruct a, b, c; cbn; try done; lia. Qed.

Lemma hop_count_le_lt_trans a b c : hop_count_le a b → hop_count_lt b c → hop_count_lt a c.
Proof. destruct a, b, c; cbn; try done; lia. Qed.

Lemma hop_count_lt_irrefl a : ¬ hop_count_lt a a.
Proof. destruct a; cbn; lia. Qed.

Lemma fmap_alter_same {A B} (g : A → B) (f : A → A) (i : nat) (l : list A) :
  (∀ x, g (f x) = g x) → g <$> alter f i l = g <$> l.
Proof.
  intros Hg. revert i. induction l as [|x l IH]; intros [|i]; cbn; [done..| |].
  - by rewrite Hg.
  - f_equal. apply IH.
Qed.

Lemma evolves_refl st : evolves st st.
Proof.
  constructor; try done.
  - by exists []; rewrite app_nil_r.
  - by exists []; rewrite app_nil_r.
  - apply hop_count_le_refl.
  - by left.
  - by left.
Qed.

Lemma evolves_trans st1 st2 st3 : evolves st1 st2 → evolves st2 st3 → evolves st1 st3.
Proof.
  intros H1 H2. constructor.
  - by rewrite (evolves_active _ _ H2), (evolves_active _ _ H1).
  - by rewrite (evolves_source _ _ H2), (evolves_source _ _ H1).
  - by rewrite (evolves_destination _ _ H2), (evolves_destination _ _ H1).
  - by rewrite (evolves_num_nodes _ _ H2), (evolves_num_nodes _ _ H1).
  - by rewrite (evolves_speed _ _ H2), (evolves_speed _ _ H1).
  - by rewrite (evolves_mobility _ _ H2), (evolves_mobility _ _ H1).
  - by rewrite (evolves_adjacency _ _ H2), (evolves_adjacency _ _ H1).
  - by rewrite (evolves_moving _ _ H2), (evolves_moving _ _ H1).
  - intros n. etrans; [apply (evolves_seen _ _ H1)|apply (evolves_seen _ _ H2)].
  - destruct (evolves_queue _ _ H1) as [n1 E1]. destruct (evolves_queue _ _ H2) as [n2 E2].
    exists (n1 ++ n2). by rewrite E2, E1, app_assoc.
  - pose proof (evolves_counter _ _ H1). pose proof (evolves_counter _ _ H2). lia.
  - destruct (evolves_discovered _ _ H1) as [n1 E1].
    destruct (evolves_discovered _ _ H2) as [n2 E2].
    exists (n1 ++ n2). by rewrite E2, E1, app_assoc.
  - eapply hop_count_le_trans; [apply (evolves_best _ _ H2)|apply (evolves_best _ _ H1)].
  - destruct (evolves_final _ _ H2) as [[-> ->]|[Hlt Hlen]]; [apply (evolves_final _ _ H1)|].
    right. split; [|done].
    eapply hop_count_lt_le_trans; [done|apply (evolves_best _ _ H1)].
  - destruct (evolves_flags _ _ H2) as [[-> ->]|?]; [apply (evolves_flags _ _ H1)|by right].
Qed.

Lemma seen_see_subseteq key i n st st' :
  nodes st' = alter (Node.see key) i (nodes st) → seen n st ⊆ seen n st'.
Proof.
  intros H. unfold seen. rewrite H. destruct (decide (i = n)) as [->|Hne].
  - rewrite list_lookup_alter_eq. destruct (nodes st !! n); cbn; set_solver.
  - by rewrite list_lookup_alter_ne.
Qed.


Lemma seen_see_ne key i n st st' :
  nodes st' = alter (Node.see key) i (nodes st) → n ≠ i → seen n st' = seen n st.
Proof. intros H Hne. unfold seen. by rewrite H, list_lookup_alter_ne. Qed.

Lemma seed_evolves src st n : evolves st (seed src st n).
Proof.
  unfold seed. constructor; cbn; try done; eauto using hop_count_le_refl.
  - by apply fmap_alter_same.
  - by apply fmap_alter_same.
  - intros m. by eapply seen_see_subseteq.
Qed.

Lemma forward_evolves packet c st n : evolves st (forward packet c st n).
Proof.
  unfold forward. repeat case_bool_decide; try apply evolves_refl.
  constructor; cbn; try done; eauto using hop_count_le_refl.
  - by apply fmap_alter_same.
  - by apply fmap_alter_same.
  - intros m. by eapply seen_see_subseteq.
Qed.

Lemma foldl_evolves {B} (f : t → B → t) (l : list B) st :
  (∀ s b, evolves s (f s b)) → evolves st (foldl f st l).
Proof.
  intros Hf. apply (foldl_preserves (evolves st)); [apply evolves_refl|].
  intros a b _ Ha. eapply evolves_trans; eauto.
Qed.

Lemma app_nil_extends {A} (l : list A) : ∃ new, l = l ++ new.
Proof. exists []. by rewrite app_nil_r. Qed.

Lemma hop_lt_true h best : hop_lt h best = true → hop_count_lt (Hops h) best.
Proof. destruct best; cbn; [done|]. by intros ?%bool_decide_eq_true. Qed.

Lemma send_rrep_back_Some path st st' :
  send_rrep_back path st = Some st' →
  2 ≤ length path ∧
  st' = set_packet_counter (S (packet_counter st))
          (set_packet_queue
             (packet_queue st ++
              [AnimatedPacket.init (packet_counter st) RREP (reverse path)
                 0.8%float None None]) st).
Proof. unfold send_rrep_back. case_bool_decide; [|done]. by intros [= <-]. Qed.

Lemma send_data_packet_Some st st' :
  send_data_packet st = Some st' →
  2 ≤ length (final_path st) ∧
  st' = set_packet_counter (S (packet_counter st))
          (set_packet_queue
             (packet_queue st ++
              [AnimatedPacket.init (packet_counter st) DATA (final_path st)
                 0.8%float None None]) st).
Proof. unfold send_data_packet. cbn. case_bool_decide; [|done]. by intros [= <-]. Qed.

Lemma send_data_packet_evolves st st' : send_data_packet st = Some st' → evolves st st'.
Proof.
  intros [_ ->]%send_data_packet_Some.
  constructor; cbn; try done; eauto using hop_count_le_refl, app_nil_extends.
Qed.

Lemma record_path_evolves path st st' returned :
  record_path path st = Some (st', returned) → evolves st st'.
Proof.
  unfold record_path. intros H.
  destruct (hop_lt _ _) eqn:Hlt; cbn in H.
  - destruct (send_rrep_back _ _) as [s1|] eqn:Hs; [|done]. cbn in H.
    apply send_rrep_back_Some in Hs as [Hlen ->].
    apply hop_lt_true in Hlt.
    destruct (_ || _); injection H as <- _.
    all: constructor; cbn -[hop_count_le hop_count_lt]; try done;
      eauto using hop_count_le_refl, app_nil_extends, hop_count_lt_le.
  - destruct (_ || _); injection H as <- _.
    all: constructor; cbn; try done; eauto using hop_count_le_refl, app_nil_extends.
Qed.

Lemma start_rreq_flooding_evolves st st' :
  start_rreq_flooding st = Some st' → evolves st st'.
Proof.
  unfold start_rreq_flooding. cbn. intros H.
  destruct (source st) as [src|]; [|done]. cbn in H.
  destruct (nodes st !! src) as [source_node|]; [|done]. cbn in H.
  injection H as <-.
  eapply evolves_trans; [|apply foldl_evolves, seed_evolves].
  constructor; cbn; try done; eauto using hop_count_le_refl, app_nil_extends.
Qed.

Lemma process_packet_completion_evolves packet st st' :
  process_packet_completion packet st = Some st' → evolves st st'.
Proof.
  unfold process_packet_completion. intros H.
  destruct (last _) as [current_node_id|]; [|done]. cbn in H.
  destruct (AnimatedPacket.type packet).
  - destruct (bool_decide (Some current_node_id = destination st)).
    + destruct (record_path _ _) as [[s1 returned]|] eqn:Hr; [|done]. cbn in H.
      apply record_path_evolves in Hr.
      destruct returned; [by injection H as <-|].
      destruct (nodes s1 !! _) as [current_node|]; [|done]. cbn in H.
      injection H as <-.
      eapply evolves_trans; [done|]. apply foldl_evolves, forward_evolves.
    + cbn in H. destruct (nodes st !! _) as [current_node|]; [|done]. cbn in H.
      injection H as <-. apply foldl_evolves, forward_evolves.
  - case_bool_decide; [by apply send_data_packet_evolves|].
    injection H as <-. apply evolves_refl.
  - case_bool_decide; injection H as <-; [|apply evolves_refl].
    constructor; cbn; try done; eauto using hop_count_le_refl, app_nil_extends.
  - case_bool_decide; [by apply start_rreq_flooding_evolves|].
    injection H as <-. apply evolves_refl.
Qed.

Lemma process_completions_evolves ps st st' :
  process_completions ps st = Some st' → evolves st st'.
Proof.
  revert st. induction ps as [|p ps IH]; intros st H; cbn in H.
  - injection H as <-. apply evolves_refl.
  - destruct (process_packet_completion p st) as [s1|] eqn:Hp; [|done]. cbn in H.
    eapply evolves_trans; [by eapply process_packet_completion_evolves|by apply IH].
Qed.

End frames.

(** ** The tick *)

Section tick.
Import AODVSimulator.
Implicit Types (self st mid : AODVSimulator.t) (packet : AnimatedPacket.t).

Lemma refill_length active queue :
  length active ≤ 5 → length (refill active queue).1 ≤ 5.
Proof.
  revert active. induction queue as [|p q IH]; intros active Ha; cbn; [done|].
  case_bool_decide; [|done]. apply IH. rewrite length_app. cbn. lia.
Qed.

(** The refill moves a prefix of the queue to the back of the active set. *)
Lemma refill_app active queue :
  (refill active queue).1 ++ (refill active queue).2 = active ++ queue.
Proof.
  revert active. induction queue as [|p q IH]; intros active; cbn; [done|].
  case_bool_decide; [|done]. by rewrite IH, <-app_assoc.
Qed.

Lemma refill_nil active queue :
  (refill active queue).1 = [] → active = [] ∧ queue = [].
Proof.
  intros H. pose proof (refill_app active queue) as Happ. rewrite H in Happ.
  destruct queue as [|p q]; cbn in *.
  - by rewrite app_nil_r in Happ.
  - case_bool_decide as Hl.
    + pose proof (refill_app (active ++ [p]) q) as Happ'.
      rewrite H in Happ'. cbn in Happ'.
      assert (length (active ++ [p]) ≤ length ((refill (active ++ [p]) q).1)) as Hlen.
      { clear. revert active. generalize p. induction q as [|p' q IH]; intros p0 a; cbn; [done|].
        case_bool_decide; [|done]. etrans; [|apply IH]. rewrite !length_app. cbn. lia. }
      rewrite H, length_app in Hlen. cbn in Hlen. lia.
    + cbn in H. subst active. cbn in Hl. lia.
Qed.

Lemma remaining_of_length (rs : list (AnimatedPacket.t * bool)) :
  length (remaining_of rs) ≤ length rs.
Proof. unfold remaining_of. rewrite length_fmap. apply length_filter. Qed.

Lemma advance_packets_length dt st :
  length (advance_packets dt st) = length (active_packets st).
Proof. unfold advance_packets. by rewrite length_fmap. Qed.

Lemma move_nodes_fields in_range st :
  let st' := move_nodes in_range st in
  active_packets st' = active_packets st ∧ packet_queue st' = packet_queue st ∧
  source st' = source st ∧ destination st' = destination st ∧
  simulation_running st' = simulation_running st ∧
  simulation_complete st' = simulation_complete st ∧
  final_path st' = final_path st ∧
  best_path_hop_count st' = best_path_hop_count st ∧
  animation_speed st' = animation_speed st ∧
  discovered_paths st' = discovered_paths st ∧
  rreq_broadcast_id st' = rreq_broadcast_id st ∧
  packet_counter st' = packet_counter st.
Proof. unfold move_nodes. by destruct (mobility_enabled st). Qed.

Lemma refill_active_fields st :
  let st' := refill_active st in
  nodes st' = nodes st ∧
  source st' = source st ∧ destination st' = destination st ∧
  simulation_running st' = simulation_running st ∧
  simulation_complete st' = simulation_complete st ∧
  final_path st' = final_path st ∧
  best_path_hop_count st' = best_path_hop_count st ∧
  discovered_paths st' = discovered_paths st ∧
  rreq_broadcast_id st' = rreq_broadcast_id st ∧
  packet_counter st' = packet_counter st ∧
  active_packets st' = (refill (active_packets st) (packet_queue st)).1 ∧
  packet_queue st' = (refill (active_packets st) (packet_queue st)).2.
Proof. unfold refill_active. by destruct (refill _ _). Qed.

(** The tick before its last [if], step by step. *)
Lemma drain_Some dt in_range st mid :
  drain dt in_range st = Some mid →
  let moved := move_nodes in_range st in
  let rs := advance_packets dt moved in
  ∃ s1, process_completions (completed_of rs)
          (set_active_packets (remaining_of rs) moved) = Some s1 ∧
        mid = refill_active s1.
Proof.
  unfold drain. intros H. cbn.
  destruct (process_completions _ _) as [s1|] eqn:Hp; [|done].
  injection H as <-. eauto.
Qed.

Lemma drain_active_bound dt in_range st mid :
  drain dt in_range st = Some mid →
  length (active_packets st) ≤ 5 → length (active_packets mid) ≤ 5.
Proof.
  intros (s1 & Hp & ->)%drain_Some Hb.
  apply process_completions_evolves in Hp.
  destruct (refill_active_fields s1) as (_&_&_&_&_&_&_&_&_&_&->&_).
  apply refill_length. rewrite (evolves_active _ _ Hp). cbn.
  etrans; [apply remaining_of_length|]. rewrite advance_packets_length.
  by destruct (move_nodes_fields in_range st) as (->&_).
Qed.

Lemma finish_active st st' :
  finish st = Some st' → active_packets st' = active_packets st.
Proof.
  unfold finish. destruct (_ && _); [|by intros [= <-]].
  case_bool_decide; [|by intros [= <-]].
  intros He%send_data_packet_evolves. apply (evolves_active _ _ He).
Qed.

Lemma update_active_bound dt in_range st st' :
  update dt in_range st = Some st' →
  length (active_packets st) ≤ 5 → length (active_packets st') ≤ 5.
Proof.
  unfold update. destruct (negb _); [by intros [= <-]|].
  destruct (drain _ _ _) as [mid|] eqn:Hd; [|done]. cbn.
  intros ->%finish_active Hb. by eapply drain_active_bound.
Qed.

End tick.

(** ** The driver *)

Section driver.
Import AODVSimulator.
Implicit Types (self st : AODVSimulator.t) (c : Command).

(** A property of the fresh engine that every command keeps holds of every
    reachable state. *)
Lemma reachable_ind (P : AODVSimulator.t → Prop) :
  (∀ in_range extra, P (init in_range extra)) →
  (∀ st c st', P st → handle st c = Some st' → P st') →
  ∀ st, reachable st → P st.
Proof.
  intros Hinit Hstep st (in_range & extra & cs & Hrun).
  revert Hrun. generalize (Hinit in_range extra).
  generalize (init in_range extra). clear Hinit.
  induction cs as [|c cs IH]; intros s Hs Hrun; cbn in Hrun.
  - by injection Hrun as <-.
  - destruct (handle s c) as [s1|] eqn:Hh; [|done]. cbn in Hrun.
    eapply IH; [|done]. by eapply Hstep.
Qed.

Lemma reachable_run cs st :
  run (init no_extra no_extra) cs = Some st → reachable st.
Proof. intros H. by exists no_extra, no_extra, cs. Qed.

Lemma start_simulation_Some st st' :
  start_simulation st = Some st' →
  st' = st ∨
  start_rreq_flooding (set_simulation_running true (reset_simulation st)) = Some st'.
Proof. unfold start_simulation. case_bool_decide; [intros [= <-]|]; eauto. Qed.

Lemma simulate_route_error_Some break_index st st' :
  simulate_route_error break_index st = Some st' →
  st' = st ∨
  ∃ from_node to_node,
    3 ≤ length (final_path st) ∧
    1 ≤ break_index ≤ length (final_path st) - 2 ∧
    final_path st !! (break_index - 1) = Some from_node ∧
    final_path st !! break_index = Some to_node ∧
    st' = set_packet_counter (S (packet_counter st))
            (set_packet_queue
               (packet_queue st ++
                [AnimatedPacket.init (packet_counter st) RERR [from_node; to_node]
                   0.8%float (Some from_node) (Some to_node)]) st).
Proof.
  unfold simulate_route_error. case_bool_decide as Hg; [intros [= <-]; by left|].
  case_bool_decide as Hi; [|done]. intros H. right.
  destruct (final_path st !! (break_index - 1)) as [from_node|]; [|done].
  destruct (final_path st !! break_index) as [to_node|]; [|done].
  cbn in H. injection H as <-. exists from_node, to_node.
  repeat split; try done; try lia.
Qed.

Lemma handle_active_bound st c st' :
  length (active_packets st) ≤ 5 → handle st c = Some st' →
  length (active_packets st') ≤ 5.
Proof.
  intros Hb H. destruct c; cbn in H.
  - by injection H as <-.
  - by injection H as <-.
  - by injection H as <-.
  - case_bool_decide; [|by injection H as <-].
    apply start_simulation_Some in H as [->|H]; [done|].
    apply start_rreq_flooding_evolves in H.
    rewrite (evolves_active _ _ H). cbn. lia.
  - injection H as <-. cbn. lia.
  - apply simulate_route_error_Some in H as [->|(f & t & _ & _ & _ & _ & ->)]; done.
  - injection H as <-. cbn. lia.
  - injection H as <-. unfold click_node. by repeat case_bool_decide.
  - by eapply update_active_bound.
Qed.

End driver.

(** C7.  In every state the program reaches, at most 5 packets are active:
    the fresh engine has none, a tick only removes the packets that completed
    and then moves packets from the front of the queue while fewer than 5 are
    active, and no other command adds to the active set. *)
Theorem C7_active_packets_bounded :
  ∀ st, reachable st → length (AODVSimulator.active_packets st) ≤ 5.
Proof.
  apply (reachable_ind (λ st, length (AODVSimulator.active_packets st) ≤ 5)).
  - intros in_range extra. cbn. lia.
  - intros st c st' Hb H. by eapply handle_active_bound.
Qed.

(** A source with six neighbors: after the first tick of the flood five seed
    packets are active and the sixth waits in the queue. *)
Lemma C7_active_packets_bounded_witness :
  let st := state_after (engine_with 8 star ++ [ClickNode 0; ClickNode 7; RunSim]
                           ++ ticks 1 star) in
  length (AODVSimulator.active_packets st) ≤ 5 ∧
  length (AODVSimulator.active_packets st) = 5 ∧
  length (AODVSimulator.packet_queue st) = 1.
Proof.
  intros st. split; [|by vm_compute].
  apply (C7_active_packets_bounded st).
  apply (reachable_run (engine_with 8 star ++ [ClickNode 0; ClickNode 7; RunSim]
                          ++ ticks 1 star)).
  vm_compute. reflexivity.
Defined.

(** C9.  With the source or the destination unset, [start_simulation] returns
    normally and leaves the engine exactly as it was. *)
Theorem C9_start_simulation_unset_is_noop :
  ∀ st,
    AODVSimulator.source st = None ∨ AODVSimulator.destination st = None →
    AODVSimulator.start_simulation st = Some st.
Proof.
  intros st H. unfold AODVSimulator.start_simulation.
  by rewrite bool_decide_eq_true_2.
Qed.

(** A source is chosen, the destination is not. *)
Lemma C9_start_simulation_unset_is_noop_witness :
  let st := state_after (engine_with 3 line ++ [ClickNode 0]) in
  AODVSimulator.source st = Some 0 ∧
  AODVSimulator.start_simulation st = Some st.
Proof.
  intros st. split; [by vm_compute|].
  apply (C9_start_simulation_unset_is_noop st). right. by vm_compute.
Defined.

(** ** The session over whole ticks and commands *)

Section session.
Import AODVSimulator.
Implicit Types (self st mid : AODVSimulator.t) (c : Command).

Lemma evolves_advances st st' : evolves st st' → advances st st'.
Proof.
  intros H. constructor.
  - apply (evolves_source _ _ H).
  - apply (evolves_destination _ _ H).
  - apply (evolves_best _ _ H).
  - apply (evolves_final _ _ H).
  - apply (evolves_flags _ _ H).
Qed.

Lemma advances_refl st : advances st st.
Proof. apply evolves_advances, evolves_refl. Qed.

Lemma advances_trans st1 st2 st3 : advances st1 st2 → advances st2 st3 → advances st1 st3.
Proof.
  intros H1 H2. constructor.
  - by rewrite (advances_source _ _ H2), (advances_source _ _ H1).
  - by rewrite (advances_destination _ _ H2), (advances_destination _ _ H1).
  - eapply hop_count_le_trans; [apply (advances_best _ _ H2)|apply (advances_best _ _ H1)].
  - destruct (advances_final _ _ H2) as [[-> ->]|[Hlt Hlen]]; [apply (advances_final _ _ H1)|].
    right. split; [|done].
    eapply hop_count_lt_le_trans; [done|apply (advances_best _ _ H1)].
  - destruct (advances_flags _ _ H2) as [[-> ->]|?]; [apply (advances_flags _ _ H1)|by right].
Qed.

Lemma drain_advances dt in_range st mid :
  drain dt in_range st = Some mid → advances st mid.
Proof.
  intros (s1 & Hp & ->)%drain_Some.
  apply process_completions_evolves, evolves_advances in Hp.
  destruct (refill_active_fields s1) as (_&Hs&Hd&Hr&Hc&Hf&Hb&_).
  destruct (move_nodes_fields in_range st) as (_&_&Hs'&Hd'&Hr'&Hc'&Hf'&Hb'&_).
  pose proof (advances_source _ _ Hp) as Es.
  pose proof (advances_destination _ _ Hp) as Ed.
  pose proof (advances_best _ _ Hp) as Eb.
  pose proof (advances_final _ _ Hp) as Ef.
  pose proof (advances_flags _ _ Hp) as Eg.
  cbn in Es, Ed, Eb, Ef, Eg.
  constructor; rewrite ?Hs, ?Hd, ?Hr, ?Hc, ?Hf, ?Hb; congruence.
Qed.

Lemma finish_advances st st' : finish st = Some st' → advances st st'.
Proof.
  unfold finish. destruct (_ && _); [|intros [= <-]; apply advances_refl].
  case_bool_decide as Hfp.
  - intros H. by apply evolves_advances, send_data_packet_evolves.
  - intros [= <-]. constructor; cbn; try done; eauto using hop_count_le_refl.
Qed.

Lemma update_advances dt in_range st st' :
  update dt in_range st = Some st' → advances st st'.
Proof.
  unfold update. destruct (negb _); [intros [= <-]; apply advances_refl|].
  destruct (drain _ _ _) as [mid|] eqn:Hd; [|done]. cbn. intros Hf.
  eapply advances_trans; [by eapply drain_advances|by apply finish_advances].
Qed.

Lemma advances_session_ok st st' : advances st st' → session_ok st → session_ok st'.
Proof.
  intros H [Hf Hr]. split.
  - destruct (advances_final _ _ H) as [[-> _]|[_ ?]]; [done|by right].
  - destruct (advances_flags _ _ H) as [[-> ->]|[-> _]]; done.
Qed.

Lemma init_session_ok in_range extra : session_ok (init in_range extra).
Proof. split; cbn; [by left|done]. Qed.

Lemma handle_session_ok st c st' :
  session_ok st → handle st c = Some st' → session_ok st'.
Proof.
  intros Hok H. destruct c; cbn in H.
  - by injection H as <-.
  - by injection H as <-.
  - by injection H as <-.
  - case_bool_decide; [|by injection H as <-].
    apply start_simulation_Some in H as [->|H]; [done|].
    apply start_rreq_flooding_evolves, evolves_advances in H.
    eapply advances_session_ok; [done|]. split; cbn; [by left|done].
  - injection H as <-. split; cbn; [by left|done].
  - apply simulate_route_error_Some in H as [->|(f & t & _ & _ & _ & _ & ->)]; done.
  - injection H as <-. split; cbn; [by left|done].
  - injection H as <-. unfold click_node. by repeat case_bool_decide.
  - eapply advances_session_ok; [|done]. by eapply update_advances.
Qed.

Lemma reachable_session_ok st : reachable st → session_ok st.
Proof.
  apply (reachable_ind session_ok); [apply init_session_ok|].
  intros s c s' Hs H. by eapply handle_session_ok.
Qed.

End session.

(** ** When a session becomes complete *)

Section completion.
Import AODVSimulator.
Implicit Types (self st mid : AODVSimulator.t) (packet : AnimatedPacket.t).

Lemma forward_complete packet c st n :
  simulation_complete (forward packet c st n) = simulation_complete st.
Proof. unfold forward. by repeat case_bool_decide. Qed.

Lemma start_rreq_flooding_complete st st' :
  start_rreq_flooding st = Some st' → simulation_complete st' = simulation_complete st.
Proof.
  unfold start_rreq_flooding. cbn. intros H.
  destruct (source st) as [src|]; [|done]. cbn in H.
  destruct (nodes st !! src) as [source_node|]; [|done]. cbn in H.
  injection H as <-.
  by apply (foldl_preserves (λ s, simulation_complete s = simulation_complete st)).
Qed.

Lemma record_path_complete path st st' returned :
  record_path path st = Some (st', returned) →
  simulation_complete st' = simulation_complete st.
Proof.
  unfold record_path. intros H.
  destruct (hop_lt _ _); cbn in H.
  - destruct (send_rrep_back _ _) as [s1|] eqn:Hs; [|done]. cbn in H.
    apply send_rrep_back_Some in Hs as [_ ->].
    by destruct (_ || _); injection H as <- _.
  - by destruct (_ || _); injection H as <- _.
Qed.

(** Handing a packet over completes the session only when it is a [DATA]
    packet whose last node is the destination. *)
Lemma process_packet_completion_complete packet st st' :
  process_packet_completion packet st = Some st' →
  simulation_complete st = false → simulation_complete st' = true →
  AnimatedPacket.type packet = DATA ∧
  last (AnimatedPacket.path packet) = destination st.
Proof.
  unfold process_packet_completion. intros H Hc Hc'.
  destruct (last _) as [current_node_id|]; [|done]. cbn in H.
  destruct (AnimatedPacket.type packet).
  - exfalso. destruct (bool_decide (Some current_node_id = destination st)).
    + destruct (record_path _ _) as [[s1 returned]|] eqn:Hr; [|done]. cbn in H.
      apply record_path_complete in Hr.
      destruct returned; [injection H as <-; congruence|].
      destruct (nodes s1 !! _) as [current_node|]; [|done]. cbn in H.
      injection H as <-.
      assert (simulation_complete
                (foldl (forward packet current_node_id) s1 (Node.neighbors current_node))
              = simulation_complete s1) as Heq; [|congruence].
      apply (foldl_preserves (λ s, simulation_complete s = simulation_complete s1));
        [done|]. intros a b _ Ha. by rewrite forward_complete.
    + cbn in H. destruct (nodes st !! _) as [current_node|]; [|done]. cbn in H.
      injection H as <-.
      assert (simulation_complete
                (foldl (forward packet current_node_id) st (Node.neighbors current_node))
              = simulation_complete st) as Heq; [|congruence].
      apply (foldl_preserves (λ s, simulation_complete s = simulation_complete st));
        [done|]. intros a b _ Ha. by rewrite forward_complete.
  - exfalso. case_bool_decide.
    + apply send_data_packet_Some in H as [_ ->]. cbn in Hc'. congruence.
    + injection H as <-. congruence.
  - case_bool_decide; [done|]. injection H as <-. congruence.
  - exfalso. case_bool_decide.
    + apply start_rreq_flooding_complete in H. congruence.
    + injection H as <-. congruence.
Qed.

Lemma process_completions_complete ps st st' :
  process_completions ps st = Some st' →
  simulation_complete st = false → simulation_complete st' = true →
  ∃ packet, packet ∈ ps ∧ AnimatedPacket.type packet = DATA ∧
            last (AnimatedPacket.path packet) = destination st.
Proof.
  revert st. induction ps as [|p ps IH]; intros st H Hc Hc'; cbn in H.
  - injection H as <-. congruence.
  - destruct (process_packet_completion p st) as [s1|] eqn:Hp; [|done]. cbn in H.
    destruct (simulation_complete s1) eqn:Hc1.
    + exists p. split; [left|].
      by eapply process_packet_completion_complete.
    + destruct (IH _ H Hc1 Hc') as (q & Hq & Ht & Hl).
      exists q. split; [by right|]. split; [done|].
      apply process_packet_completion_evolves in Hp.
      by rewrite <-(evolves_destination _ _ Hp).
Qed.

Lemma update_complete dt in_range st st' :
  update dt in_range st = Some st' →
  final_path st ≠ [] →
  simulation_complete st = false → simulation_complete st' = true →
  ∃ packet, packet ∈ completed_of (advance_packets dt (move_nodes in_range st)) ∧
            AnimatedPacket.type packet = DATA ∧
            last (AnimatedPacket.path packet) = destination st.
Proof.
  unfold update. destruct (negb _); [intros [= <-]; congruence|].
  destruct (drain _ _ _) as [mid|] eqn:Hd; [|done]. cbn.
  intros Hf Hfp Hc Hc'.
  pose proof (drain_advances _ _ _ _ Hd) as Hadv.
  assert (final_path mid ≠ []) as Hfm.
  { destruct (advances_final _ _ Hadv) as [[-> _]|[_ Hlen]]; [done|].
    intros Heq. rewrite Heq in Hlen. cbn in Hlen. lia. }
  assert (simulation_complete mid = true) as Hcm.
  { unfold finish in Hf. destruct (_ && _); [|by injection Hf as <-].
    rewrite bool_decide_eq_true_2 in Hf by done.
    apply send_data_packet_Some in Hf as [_ ->]. done. }
  apply drain_Some in Hd as (s1 & Hp & ->).
  destruct (refill_active_fields s1) as (_&_&_&_&Hcs&_).
  rewrite Hcs in Hcm.
  destruct (move_nodes_fields in_range st) as (_&_&_&Hd'&_&Hc0&_).
  destruct (process_completions_complete _ _ _ Hp) as (q & Hq & Ht & Hl);
    [cbn; congruence|done|].
  exists q. split; [done|]. split; [done|]. cbn in Hl. congruence.
Qed.

Lemma process_packet_completion_data packet st d :
  AnimatedPacket.type packet = DATA →
  last (AnimatedPacket.path packet) = Some d → destination st = Some d →
  process_packet_completion packet st
    = Some (set_simulation_running false (set_simulation_complete true st)).
Proof.
  intros Ht Hl Hd. unfold process_packet_completion. rewrite Hl, Ht. cbn.
  by rewrite bool_decide_eq_true_2 by by rewrite Hd.
Qed.

Lemma evolves_completed st st' :
  evolves st st' →
  simulation_running st = false ∧ simulation_complete st = true →
  simulation_running st' = false ∧ simulation_complete st' = true.
Proof.
  intros H [Hr Hc]. destruct (evolves_flags _ _ H) as [[-> ->]|[-> ->]]; done.
Qed.

Lemma process_completions_data ps packet st st' d :
  packet ∈ ps → AnimatedPacket.type packet = DATA →
  last (AnimatedPacket.path packet) = Some d → destination st = Some d →
  process_completions ps st = Some st' →
  simulation_running st' = false ∧ simulation_complete st' = true.
Proof.
  intros Hin Ht Hl. revert st.
  induction ps as [|q ps IH]; intros st Hd H; [by apply elem_of_nil in Hin|].
  cbn in H. destruct (process_packet_completion q st) as [s1|] eqn:Hq; [|done].
  cbn in H. apply elem_of_cons in Hin as [<-|Hin].
  - rewrite (process_packet_completion_data packet st d) in Hq by done.
    injection Hq as <-.
    eapply evolves_completed; [by eapply process_completions_evolves|by cbn].
  - apply (IH Hin s1); [|done].
    apply process_packet_completion_evolves in Hq.
    by rewrite (evolves_destination _ _ Hq).
Qed.

Lemma update_data_arrival dt in_range st st' packet d :
  simulation_running st = true → packet ∈ active_packets st →
  AnimatedPacket.type packet = DATA →
  (AnimatedPacket.update packet dt (animation_speed st)).2 = true →
  last (AnimatedPacket.path packet) = Some d → destination st = Some d →
  update dt in_range st = Some st' →
  simulation_running st' = false ∧ simulation_complete st' = true.
Proof.
  intros Hrun Hin Ht Hdone Hl Hd. unfold update. rewrite Hrun. cbn.
  destruct (drain _ _ _) as [mid|] eqn:Hdr; [|done]. cbn. intros Hf.
  apply drain_Some in Hdr as (s1 & Hp & ->).
  destruct (move_nodes_fields in_range st) as (Ha&_&_&Hdst&_&_&_&_&Hsp&_).
  assert (simulation_running s1 = false ∧ simulation_complete s1 = true) as [Hr1 Hc1].
  { refine (process_completions_data _
              (AnimatedPacket.update packet dt (animation_speed st)).1 _ _ d
              _ _ _ _ Hp);
      [|by rewrite update_type|by rewrite update_path|cbn; by rewrite Hdst].
    unfold completed_of, advance_packets.
    apply list_elem_of_fmap.
    exists (AnimatedPacket.update packet dt (animation_speed st)).
    split; [done|]. apply list_elem_of_filter. split; [done|].
    apply list_elem_of_fmap. exists packet. by rewrite Hsp, Ha. }
  destruct (refill_active_fields s1) as (_&_&_&Hr&Hc&_).
  unfold finish in Hf. rewrite Hr, Hr1, andb_false_r in Hf.
  injection Hf as <-. by rewrite Hr, Hc.
Qed.

End completion.

(** C8.  When, in a tick of a running session, the completed packets have
    been handed over and the active set refilled, and then the active set and
    the queue are both empty, the session is still running and no best path
    was found, the tick ends the session: [simulation_running] becomes false,
    [simulation_complete] becomes true, and the best path stays empty.  The
    tick returns normally. *)
Theorem C8_drained_without_path_completes :
  ∀ dt in_range st mid,
    AODVSimulator.simulation_running st = true →
    AODVSimulator.drain dt in_range st = Some mid →
    AODVSimulator.active_packets mid = [] →
    AODVSimulator.packet_queue mid = [] →
    AODVSimulator.simulation_running mid = true →
    AODVSimulator.final_path mid = [] →
    ∃ st', AODVSimulator.update dt in_range st = Some st' ∧
           AODVSimulator.simulation_running st' = false ∧
           AODVSimulator.simulation_complete st' = true ∧
           AODVSimulator.final_path st' = [] ∧
           AODVSimulator.active_packets st' = [] ∧
           AODVSimulator.packet_queue st' = [].
Proof.
  intros dt in_range st mid Hrun Hd Ha Hq Hr Hf.
  unfold AODVSimulator.update. rewrite Hrun, Hd. cbn.
  unfold AODVSimulator.finish. rewrite Ha, Hq, Hr, Hf. cbn.
  eexists. split; [done|]. by cbn.
Qed.

(** Source 0 and destination 2 with no route between them: the only seed
    packet reaches node 1 at the 39th tick and nothing is left to send. *)
Lemma C8_drained_without_path_completes_witness :
  let st := state_after (engine_with 3 island ++ [ClickNode 0; ClickNode 2; RunSim]
                           ++ ticks 38 island) in
  ∃ st', AODVSimulator.update 0.033%float (linked island) st = Some st' ∧
         AODVSimulator.simulation_running st' = false ∧
         AODVSimulator.simulation_complete st' = true ∧
         AODVSimulator.final_path st' = [] ∧
         AODVSimulator.active_packets st' = [] ∧
         AODVSimulator.packet_queue st' = [].
Proof.
  intros st.
  apply (C8_drained_without_path_completes 0.033%float (linked island) st
           (default st (AODVSimulator.drain 0.033%float (linked island) st)));
    vm_compute; reflexivity.
Defined.

(** C10.  In a reachable state, when the completed packets of a tick have
    been handed over and the active set refilled, and then the active set and
    the queue are both empty while the session is running and a best path
    exists, the tick does not complete the session: it returns normally with
    the session still running and not complete, and with exactly one new
    [DATA] packet in the queue, whose path is the best path.  From a state
    with a best path, a tick (and the handing over of any packet) completes
    the session only when a [DATA] packet whose last node is the destination
    completed in it.  And it does complete it then: handing over a [DATA]
    packet whose last node is the destination returns with the session
    stopped and complete, and so does every tick that returns and in which
    such a packet completes. *)
Theorem C10_drained_with_path_sends_data :
  ∀ dt in_range st mid,
    reachable st →
    AODVSimulator.simulation_running st = true →
    AODVSimulator.drain dt in_range st = Some mid →
    AODVSimulator.active_packets mid = [] →
    AODVSimulator.packet_queue mid = [] →
    AODVSimulator.simulation_running mid = true →
    AODVSimulator.final_path mid ≠ [] →
    (∃ st', AODVSimulator.update dt in_range st = Some st' ∧
            AODVSimulator.simulation_running st' = true ∧
            AODVSimulator.simulation_complete st' = false ∧
            AODVSimulator.final_path st' = AODVSimulator.final_path mid ∧
            AODVSimulator.active_packets st' = [] ∧
            AODVSimulator.packet_queue st' =
              [AnimatedPacket.init (AODVSimulator.packet_counter mid) DATA
                 (AODVSimulator.final_path mid) 0.8%float None None]) ∧
    (∀ packet s s',
       AODVSimulator.process_packet_completion packet s = Some s' →
       AODVSimulator.simulation_complete s = false →
       AODVSimulator.simulation_complete s' = true →
       AnimatedPacket.type packet = DATA ∧
       last (AnimatedPacket.path packet) = AODVSimulator.destination s) ∧
    (∀ dt' in_range' s s',
       AODVSimulator.update dt' in_range' s = Some s' →
       AODVSimulator.final_path s ≠ [] →
       AODVSimulator.simulation_complete s = false →
       AODVSimulator.simulation_complete s' = true →
       ∃ packet,
         packet ∈ AODVSimulator.completed_of
                    (AODVSimulator.advance_packets dt'
                       (AODVSimulator.move_nodes in_range' s)) ∧
         AnimatedPacket.type packet = DATA ∧
         last (AnimatedPacket.path packet) = AODVSimulator.destination s) ∧
    (∀ packet s d,
       AnimatedPacket.type packet = DATA →
       last (AnimatedPacket.path packet) = Some d →
       AODVSimulator.destination s = Some d →
       ∃ s', AODVSimulator.process_packet_completion packet s = Some s' ∧
             AODVSimulator.simulation_running s' = false ∧
             AODVSimulator.simulation_complete s' = true ∧
             AODVSimulator.final_path s' = AODVSimulator.final_path s) ∧
    (∀ dt' in_range' s s' packet d,
       AODVSimulator.simulation_running s = true →
       packet ∈ AODVSimulator.active_packets s →
       AnimatedPacket.type packet = DATA →
       (AnimatedPacket.update packet dt' (AODVSimulator.animation_speed s)).2 = true →
       last (AnimatedPacket.path packet) = Some d →
       AODVSimulator.destination s = Some d →
       AODVSimulator.update dt' in_range' s = Some s' →
       AODVSimulator.simulation_running s' = false ∧
       AODVSimulator.simulation_complete s' = true).
Proof.
  intros dt in_range st mid Hreach Hrun Hd Ha Hq Hr Hf.
  split; [|split; [|split; [|split]]].
  - pose proof (reachable_session_ok _ Hreach) as Hok.
    pose proof (advances_session_ok _ _ (drain_advances _ _ _ _ Hd) Hok) as [Hlen Hc].
    destruct Hlen as [Hnil|Hlen]; [done|].
    unfold AODVSimulator.update. rewrite Hrun, Hd. cbn.
    unfold AODVSimulator.finish. rewrite Ha, Hq, Hr. cbn.
    rewrite bool_decide_eq_true_2 by done.
    unfold AODVSimulator.send_data_packet. cbn.
    rewrite bool_decide_eq_true_2 by done.
    eexists. split; [done|]. cbn. rewrite Hq. by rewrite Hc.
  - intros packet s s'. apply process_packet_completion_complete.
  - intros dt' in_range' s s'. apply update_complete.
  - intros packet s d Ht Hl Hds.
    rewrite (process_packet_completion_data packet s d) by done.
    eexists. split; [reflexivity|]. by cbn.
  - intros dt' in_range' s s' packet d. apply update_data_arrival.
Qed.

(** A route [0, 1] is found; while the reply is on its way the source is
    moved to node 2 and node 1 is selected as the destination again.  The
    reply ends at node 0, which is no longer the source, and the tick that
    drains it sends a [DATA] packet along [0, 1]; 39 ticks later that packet
    reaches node 1, the destination, and the session is complete. *)
Lemma C10_drained_with_path_sends_data_witness :
  let st := state_after (rerouted_session 37) in
  let arrival := state_after (rerouted_session 76) in
  AODVSimulator.destination st = Some 1 ∧
  (∃ st', AODVSimulator.update 0.033%float (linked island) st = Some st' ∧
          AODVSimulator.simulation_running st' = true ∧
          AODVSimulator.simulation_complete st' = false ∧
          AODVSimulator.final_path st' = [0; 1] ∧
          AODVSimulator.active_packets st' = [] ∧
          paths_of (AODVSimulator.packet_queue st') = [(DATA, [0; 1])]) ∧
  paths_of (AODVSimulator.active_packets arrival) = [(DATA, [0; 1])] ∧
  AODVSimulator.simulation_running (state_after (rerouted_session 77)) = false ∧
  AODVSimulator.simulation_complete (state_after (rerouted_session 77)) = true.
Proof.
  intros st arrival. split; [by vm_compute|].
  destruct (C10_drained_with_path_sends_data 0.033%float (linked island) st
              (default st (AODVSimulator.drain 0.033%float (linked island) st)))
    as ((st' & Hu & Hr & Hc & Hf & Ha & Hq) & _ & _ & _ & Harr).
  - apply (reachable_run (rerouted_session 37)). vm_compute. reflexivity.
  - vm_compute. reflexivity.
  - vm_compute. reflexivity.
  - vm_compute. reflexivity.
  - vm_compute. reflexivity.
  - vm_compute. reflexivity.
  - vm_compute. discriminate.
  - split.
    { exists st'. split; [exact Hu|]. split; [exact Hr|]. split; [exact Hc|].
      split; [rewrite Hf; vm_compute; reflexivity|]. split; [exact Ha|].
      rewrite Hq. vm_compute. reflexivity. }
    split; [by vm_compute|].
    destruct (AODVSimulator.active_packets arrival) as [|p l] eqn:Hact;
      [vm_compute in Hact; discriminate|].
    assert (head (AODVSimulator.active_packets arrival) = Some p) as Hp
      by by rewrite Hact.
    apply (Harr 0.033%float (linked island) arrival (state_after (rerouted_session 77)) p 1).
    + vm_compute. reflexivity.
    + rewrite Hact. left.
    + vm_compute in Hp. injection Hp as <-. reflexivity.
    + vm_compute in Hp. injection Hp as <-. vm_compute. reflexivity.
    + vm_compute in Hp. injection Hp as <-. reflexivity.
    + vm_compute. reflexivity.
    + vm_compute. reflexivity.
Defined.

(** ** The best hop count *)

Section best.
Import AODVSimulator.
Implicit Types (self st : AODVSimulator.t) (c : Command).

Lemma start_rreq_flooding_best st st' :
  start_rreq_flooding st = Some st' →
  best_path_hop_count st' = best_path_hop_count st ∧ final_path st' = final_path st.
Proof.
  unfold start_rreq_flooding. cbn. intros H.
  destruct (source st) as [src|]; [|done]. cbn in H.
  destruct (nodes st !! src) as [source_node|]; [|done]. cbn in H.
  injection H as <-.
  by apply (foldl_preserves
              (λ s, best_path_hop_count s = best_path_hop_count st ∧
                    final_path s = final_path st)).
Qed.

Lemma handle_best st c st' :
  handle st c = Some st' →
  (calls_reset c = false →
   hop_count_le (best_path_hop_count st') (best_path_hop_count st) ∧
   ((final_path st' = final_path st ∧
     best_path_hop_count st' = best_path_hop_count st) ∨
    hop_count_lt (best_path_hop_count st') (best_path_hop_count st))) ∧
  (calls_reset c = true → st' = st ∨ best_path_hop_count st' = Inf).
Proof.
  intros H. destruct c; cbn in H; (split; [intros Hc|intros Hc]); try done.
  all: try (injection H as <-; cbn; eauto using hop_count_le_refl; fail).
  - case_bool_decide; [|injection H as <-; by left].
    apply start_simulation_Some in H as [->|H]; [by left|].
    right. by apply start_rreq_flooding_best in H as [-> _].
  - apply simulate_route_error_Some in H as [->|(f & t & _ & _ & _ & _ & ->)]; cbn;
      eauto using hop_count_le_refl.
  - injection H as <-. unfold click_node.
    repeat case_bool_decide; cbn; eauto using hop_count_le_refl.
  - apply update_advances in H. split; [apply (advances_best _ _ H)|].
    destruct (advances_final _ _ H) as [?|[? _]]; eauto.
Qed.

End best.

(** C6.  No command of the driver other than those that reset the session
    ([RunSim], [ResetSim], [NewFormation]) increases the best hop count, and
    under such a command the best path changes only when the best hop count
    strictly decreases; a resetting command leaves the engine as it was or
    sets the best hop count to infinity.  The same holds of every single
    packet handed to the state machine. *)
Theorem C6_best_hop_count_monotone :
  ∀ st c st',
    handle st c = Some st' →
    (calls_reset c = false →
     hop_count_le (AODVSimulator.best_path_hop_count st')
       (AODVSimulator.best_path_hop_count st) ∧
     ((AODVSimulator.final_path st' = AODVSimulator.final_path st ∧
       AODVSimulator.best_path_hop_count st' = AODVSimulator.best_path_hop_count st) ∨
      hop_count_lt (AODVSimulator.best_path_hop_count st')
        (AODVSimulator.best_path_hop_count st))) ∧
    (calls_reset c = true →
     st' = st ∨ AODVSimulator.best_path_hop_count st' = Inf) ∧
    (∀ packet s s',
       AODVSimulator.process_packet_completion packet s = Some s' →
       hop_count_le (AODVSimulator.best_path_hop_count s')
         (AODVSimulator.best_path_hop_count s) ∧
       ((AODVSimulator.final_path s' = AODVSimulator.final_path s ∧
         AODVSimulator.best_path_hop_count s' = AODVSimulator.best_path_hop_count s) ∨
        hop_count_lt (AODVSimulator.best_path_hop_count s')
          (AODVSimulator.best_path_hop_count s))).
Proof.
  intros st c st' H. destruct (handle_best _ _ _ H) as [H1 H2].
  split; [done|]. split; [done|].
  intros packet s s' Hp. apply process_packet_completion_evolves in Hp.
  split; [apply (evolves_best _ _ Hp)|].
  destruct (evolves_final _ _ Hp) as [?|[? _]]; eauto.
Qed.

(** The tick in which the first route is found: the best hop count goes from
    infinity to 1. *)
Lemma C6_best_hop_count_monotone_witness :
  let st := state_after (engine_with 3 island ++ [ClickNode 0; ClickNode 1; RunSim]
                           ++ ticks 38 island) in
  let c := Tick 0.033%float (linked island) in
  let st' := default st (handle st c) in
  AODVSimulator.best_path_hop_count st = Inf ∧
  AODVSimulator.best_path_hop_count st' = Hops 1 ∧
  hop_count_le (AODVSimulator.best_path_hop_count st')
    (AODVSimulator.best_path_hop_count st).
Proof.
  intros st c st'. split; [by vm_compute|]. split; [by vm_compute|].
  destruct (C6_best_hop_count_monotone st c st') as (H & _).
  - vm_compute. reflexivity.
  - apply H. reflexivity.
Defined.

(** ** The topology *)

Section topology.
Import AODVSimulator.
Implicit Types (self st : AODVSimulator.t) (ns : list Node.t).

Lemma evolves_topology_ok st st' : evolves st st' → topology_ok st → topology_ok st'.
Proof. intros He. unfold topology_ok. by rewrite (evolves_adjacency _ _ He). Qed.

(** The links of a list of nodes, for the loops of [setup_nodes]. *)
Lemma add_neighbor_links_ok ns i j :
  links_ok (Node.neighbors <$> ns) → i ≠ j → j < length ns →
  links_ok (Node.neighbors <$> alter (Node.add_neighbor j) i ns).
Proof.
  intros Hok Hne Hj k links Hk x Hx.
  rewrite list_lookup_fmap in Hk. rewrite length_fmap, length_alter.
  destruct (decide (i = k)) as [->|Hik].
  - rewrite list_lookup_alter_eq in Hk.
    destruct (ns !! k) as [nd|] eqn:Hnd; [|done]. cbn in Hk. injection Hk as <-.
    assert (x ∈ Node.neighbors nd ∨ x = j) as [Hx' | ->].
    { unfold Node.add_neighbor in Hx. case_bool_decide; [by left|].
      cbn in Hx. apply elem_of_app in Hx as [?|Hx]; [by left|].
      right. by apply list_elem_of_singleton in Hx. }
    + specialize (Hok k (Node.neighbors nd)). rewrite list_lookup_fmap, Hnd in Hok.
      rewrite length_fmap in Hok. by apply Hok.
    + done.
  - rewrite list_lookup_alter_ne in Hk by done.
    specialize (Hok k links). rewrite list_lookup_fmap, length_fmap in Hok.
    by apply Hok.
Qed.

Lemma basic_links_ok in_range n ns :
  length ns = n → links_ok (Node.neighbors <$> ns) →
  length (basic_links in_range n ns) = n ∧
  links_ok (Node.neighbors <$> basic_links in_range n ns).
Proof.
  intros Hlen Hok. unfold basic_links.
  apply (foldl_preserves (λ ns, length ns = n ∧ links_ok (Node.neighbors <$> ns)));
    [done|].
  intros ns1 i _ H1.
  apply (foldl_preserves (λ ns, length ns = n ∧ links_ok (Node.neighbors <$> ns)));
    [done|].
  intros ns2 j Hj [Hl2 Hok2]. apply elem_of_seq in Hj.
  destruct (_ && _) eqn:Hc; [|done].
  apply andb_true_iff in Hc as [Hne%bool_decide_eq_true _].
  split; [by rewrite length_alter|].
  apply add_neighbor_links_ok; [done..|lia].
Qed.

Lemma extra_links_ok extra n ns :
  length ns = n → links_ok (Node.neighbors <$> ns) →
  length (extra_links extra n ns) = n ∧
  links_ok (Node.neighbors <$> extra_links extra n ns).
Proof.
  intros Hlen Hok. unfold extra_links.
  apply (foldl_preserves (λ ns, length ns = n ∧ links_ok (Node.neighbors <$> ns)));
    [done|].
  intros ns1 i Hi H1. apply elem_of_seq in Hi.
  apply (foldl_preserves (λ ns, length ns = n ∧ links_ok (Node.neighbors <$> ns)));
    [done|].
  intros ns2 j Hj [Hl2 Hok2]. apply elem_of_seq in Hj.
  destruct (_ && _) eqn:Hc; [|done].
  apply andb_true_iff in Hc as [Hne%bool_decide_eq_true _].
  split; [by rewrite !length_alter|].
  apply add_neighbor_links_ok; [|done|rewrite length_alter; lia].
  apply add_neighbor_links_ok; [done..|lia].
Qed.

Lemma setup_nodes_topology_ok in_range extra st :
  topology_ok (setup_nodes in_range extra st).
Proof.
  unfold topology_ok, adjacency, setup_nodes. cbn.
  apply extra_links_ok.
  - apply basic_links_ok; [apply length_replicate|].
    intros i links Hi. rewrite list_lookup_fmap in Hi.
    destruct (replicate _ _ !! i) as [nd|] eqn:Hnd; [|done].
    apply lookup_replicate in Hnd as [-> _]. cbn in Hi. injection Hi as <-.
    intros j Hj. by apply elem_of_nil in Hj.
  - apply basic_links_ok; [apply length_replicate|].
    intros i links Hi. rewrite list_lookup_fmap in Hi.
    destruct (replicate _ _ !! i) as [nd|] eqn:Hnd; [|done].
    apply lookup_replicate in Hnd as [-> _]. cbn in Hi. injection Hi as <-.
    intros j Hj. by apply elem_of_nil in Hj.
Qed.

Lemma move_nodes_topology_ok in_range st :
  topology_ok st → topology_ok (move_nodes in_range st).
Proof.
  unfold move_nodes. destruct (mobility_enabled st); [|done].
  intros Hok i links Hi j Hj. unfold adjacency in *. cbn in *.
  rewrite list_lookup_fmap, list_lookup_imap in Hi.
  rewrite length_fmap, length_imap.
  destruct (nodes st !! i) as [nd|] eqn:Hnd; [|done]. cbn in Hi. injection Hi as <-.
  unfold Node.update_neighbors in Hj. destruct (Node.is_moving nd).
  - cbn in Hj. apply list_elem_of_filter in Hj as [[Hne _] Hseq].
    apply elem_of_seq in Hseq. split; [done|lia].
  - specialize (Hok i (Node.neighbors nd)). unfold adjacency in Hok.
    rewrite list_lookup_fmap, Hnd, length_fmap in Hok. by apply Hok.
Qed.

Lemma fmap_topology_ok (f : Node.t → Node.t) st :
  (∀ nd, Node.neighbors (f nd) = Node.neighbors nd) →
  topology_ok st → topology_ok (set_nodes (f <$> nodes st) st).
Proof.
  intros Hf. unfold topology_ok, adjacency. cbn.
  rewrite <-list_fmap_compose.
  by rewrite (list_fmap_ext (Node.neighbors ∘ f) Node.neighbors (nodes st))
    by (intros; apply Hf).
Qed.

End topology.

(** ** Loop freedom *)

Section loop_freedom.
Import AODVSimulator.
Implicit Types (self st : AODVSimulator.t) (packet : AnimatedPacket.t).

Lemma topology_ok_ext st st' : nodes st' = nodes st → topology_ok st → topology_ok st'.
Proof. unfold topology_ok, adjacency. by intros ->. Qed.

Lemma set_active_packets_topology_ok ps st :
  topology_ok st → topology_ok (set_active_packets ps st).
Proof. apply topology_ok_ext. by cbn. Qed.

Lemma reset_simulation_topology_ok st : topology_ok st → topology_ok (reset_simulation st).
Proof. intros H. unfold reset_simulation. by apply (fmap_topology_ok Node.clear_seen). Qed.

Lemma toggle_mobility_topology_ok st : topology_ok st → topology_ok (toggle_mobility st).
Proof.
  intros H. unfold toggle_mobility.
  apply (fmap_topology_ok _ (set_mobility_enabled (negb (mobility_enabled st)) st));
    [|done].
  intros nd. by destruct (mobility_enabled _).
Qed.

Lemma drain_topology_ok dt in_range st mid :
  drain dt in_range st = Some mid → topology_ok st → topology_ok mid.
Proof.
  intros (s1 & Hp & ->)%drain_Some Hok.
  apply process_completions_evolves in Hp.
  apply (move_nodes_topology_ok in_range) in Hok.
  eapply evolves_topology_ok in Hp; [|exact Hok].
  unfold topology_ok, adjacency in *.
  by destruct (refill_active_fields s1) as (->&_).
Qed.

Lemma finish_topology_ok st st' : finish st = Some st' → topology_ok st → topology_ok st'.
Proof.
  unfold finish. destruct (_ && _); [|by intros [= <-]].
  case_bool_decide as Hfp; [|by intros [= <-]].
  intros He%send_data_packet_evolves. by apply evolves_topology_ok.
Qed.

Lemma handle_topology_ok st c st' :
  topology_ok st → handle st c = Some st' → topology_ok st'.
Proof.
  intros Hok H. destruct c; cbn in H.
  - injection H as <-. by apply (topology_ok_ext st); [by cbn|].
  - injection H as <-. by apply toggle_mobility_topology_ok.
  - injection H as <-.
    apply (topology_ok_ext
             (setup_nodes in_range extra (set_num_nodes (Nat.min (Nat.max 3 n) 99) st)));
      [by cbn|].
    apply setup_nodes_topology_ok.
  - case_bool_decide; [|by injection H as <-].
    apply start_simulation_Some in H as [->|H]; [done|].
    apply start_rreq_flooding_evolves in H.
    eapply evolves_topology_ok; [done|].
    apply (topology_ok_ext (reset_simulation st)); [by cbn|].
    by apply reset_simulation_topology_ok.
  - injection H as <-.
    apply (topology_ok_ext (reset_simulation st)); [by cbn|].
    by apply reset_simulation_topology_ok.
  - apply simulate_route_error_Some in H as [->|(f & t & _ & _ & _ & _ & ->)]; [done|].
    by apply (topology_ok_ext st); [by cbn|].
  - injection H as <-.
    apply (topology_ok_ext (reset_simulation (setup_nodes in_range extra st))); [by cbn|].
    apply reset_simulation_topology_ok, setup_nodes_topology_ok.
  - injection H as <-. apply (topology_ok_ext st); [|done].
    unfold click_node. by repeat case_bool_decide.
  - unfold update in H. destruct (negb _); [by injection H as <-|].
    destruct (drain _ _ _) as [mid|] eqn:Hd; [|done]. cbn in H.
    eapply finish_topology_ok; [done|]. by eapply drain_topology_ok.
Qed.

Lemma reachable_topology_ok st : reachable st → topology_ok st.
Proof.
  apply (reachable_ind topology_ok).
  - intros in_range extra. apply setup_nodes_topology_ok.
  - intros s c s' Hs H. by eapply handle_topology_ok.
Qed.

(** [loop_free] reads the packets and the recorded paths only. *)
Lemma loop_free_ext st st' :
  active_packets st' = active_packets st → packet_queue st' = packet_queue st →
  discovered_paths st' = discovered_paths st → loop_free st → loop_free st'.
Proof. unfold loop_free. by intros -> -> ->. Qed.

(** Adding a packet at the back of the queue and paths to the record. *)
Lemma loop_free_enqueue st st' q d :
  active_packets st' = active_packets st →
  packet_queue st' = packet_queue st ++ [q] →
  discovered_paths st' = discovered_paths st ++ d →
  loop_free st →
  (AnimatedPacket.type q = RREQ → NoDup (AnimatedPacket.path q)) →
  (∀ path, path ∈ d → NoDup path) →
  loop_free st'.
Proof.
  intros Ha Hq Hd [Hp Hdp] Hnd Hnew. split.
  - intros p. rewrite Ha, Hq, app_assoc. intros [Hin|Hin]%elem_of_app Ht.
    + by apply Hp.
    + apply list_elem_of_singleton in Hin as ->. by apply Hnd.
  - intros path. rewrite Hd. intros [Hin|Hin]%elem_of_app; [by apply Hdp|by apply Hnew].
Qed.

Lemma loop_free_send st st' q :
  active_packets st' = active_packets st →
  packet_queue st' = packet_queue st ++ [q] →
  discovered_paths st' = discovered_paths st →
  loop_free st → AnimatedPacket.type q ≠ RREQ → loop_free st'.
Proof.
  intros Ha Hq Hd Hlf Ht.
  apply (loop_free_enqueue st st' q []); [done..|by rewrite app_nil_r|done|done|].
  intros path Hin. by apply elem_of_nil in Hin.
Qed.

Lemma NoDup_pair (a b : nat) : b ≠ a → NoDup [a; b].
Proof.
  intros Hne. apply NoDup_cons. split; [|apply NoDup_singleton].
  intros Hin. apply list_elem_of_singleton in Hin. done.
Qed.

Lemma seed_loop_free src st n : n ≠ src → loop_free st → loop_free (seed src st n).
Proof.
  intros Hne Hlf.
  apply (loop_free_enqueue st (seed src st n)
           (AnimatedPacket.init (packet_counter st) RREQ [src; n] 0.8%float
              (Some src) (Some n)) [[src; n]]); [by cbn..|done| |].
  - intros _. cbn. by apply NoDup_pair.
  - intros path Hin. apply list_elem_of_singleton in Hin as ->. by apply NoDup_pair.
Qed.

Lemma forward_loop_free packet c st n :
  NoDup (AnimatedPacket.path packet) → loop_free st →
  loop_free (forward packet c st n).
Proof.
  intros Hnd Hlf. unfold forward. case_bool_decide as Hn; [|done].
  case_bool_decide as Hk; [|done].
  assert (NoDup (AnimatedPacket.path packet ++ [n])) as Hnew.
  { apply NoDup_app. split; [done|]. split; [|apply NoDup_singleton].
    intros x Hx Hx'. apply list_elem_of_singleton in Hx' as ->. done. }
  eapply (loop_free_enqueue st _ _ [AnimatedPacket.path packet ++ [n]]);
    [cbn; reflexivity..|done|done|].
  intros path Hin. by apply list_elem_of_singleton in Hin as ->.
Qed.

Lemma start_rreq_flooding_loop_free st st' :
  start_rreq_flooding st = Some st' → topology_ok st → loop_free st → loop_free st'.
Proof.
  unfold start_rreq_flooding. cbn. intros H Hok Hlf.
  destruct (source st) as [src|]; [|done]. cbn in H.
  destruct (nodes st !! src) as [source_node|] eqn:Hsrc; [|done]. cbn in H.
  injection H as <-.
  apply (foldl_preserves loop_free).
  - eapply loop_free_ext; [cbn; reflexivity..|done].
  - intros s n Hn Hs. apply seed_loop_free; [|done].
    specialize (Hok src (Node.neighbors source_node)). unfold adjacency in Hok.
    rewrite list_lookup_fmap, Hsrc in Hok. by apply Hok.
Qed.

Lemma record_path_loop_free path st st' returned :
  record_path path st = Some (st', returned) → loop_free st → loop_free st'.
Proof.
  unfold record_path. intros H Hlf.
  destruct (hop_lt _ _); cbn in H.
  - destruct (send_rrep_back _ _) as [s1|] eqn:Hs; [|done]. cbn in H.
    apply send_rrep_back_Some in Hs as [_ ->].
    destruct (_ || _); injection H as <- _.
    all: eapply (loop_free_send st); [cbn; reflexivity..|done|done].
  - destruct (_ || _); injection H as <- _.
    all: eapply loop_free_ext; [cbn; reflexivity..|done].
Qed.

Lemma process_packet_completion_loop_free packet st st' :
  process_packet_completion packet st = Some st' →
  (AnimatedPacket.type packet = RREQ → NoDup (AnimatedPacket.path packet)) →
  topology_ok st → loop_free st → loop_free st'.
Proof.
  unfold process_packet_completion. intros H Hnd Hok Hlf.
  destruct (last _) as [current_node_id|]; [|done]. cbn in H.
  destruct (AnimatedPacket.type packet).
  - specialize (Hnd eq_refl).
    destruct (bool_decide (Some current_node_id = destination st)).
    + destruct (record_path _ _) as [[s1 returned]|] eqn:Hr; [|done]. cbn in H.
      apply record_path_loop_free in Hr; [|done].
      destruct returned; [by injection H as <-|].
      destruct (nodes s1 !! _) as [current_node|]; [|done]. cbn in H.
      injection H as <-.
      apply (foldl_preserves loop_free); [done|].
      intros s n _ Hs. by apply forward_loop_free.
    + cbn in H. destruct (nodes st !! _) as [current_node|]; [|done]. cbn in H.
      injection H as <-.
      apply (foldl_preserves loop_free); [done|].
      intros s n _ Hs. by apply forward_loop_free.
  - case_bool_decide; [|by injection H as <-].
    apply send_data_packet_Some in H as [_ ->].
    eapply (loop_free_send st); [cbn; reflexivity..|done|done].
  - case_bool_decide; injection H as <-; [|done].
    eapply loop_free_ext; [cbn; reflexivity..|done].
  - case_bool_decide; [|by injection H as <-].
    eapply start_rreq_flooding_loop_free; [exact H|exact Hok|exact Hlf].
Qed.

Lemma process_completions_loop_free ps st st' :
  process_completions ps st = Some st' →
  (∀ p, p ∈ ps → AnimatedPacket.type p = RREQ → NoDup (AnimatedPacket.path p)) →
  topology_ok st → loop_free st → loop_free st'.
Proof.
  revert st. induction ps as [|p ps IH]; intros st H Hps Hok Hlf; cbn in H.
  - by injection H as <-.
  - destruct (process_packet_completion p st) as [s1|] eqn:Hp; [|done]. cbn in H.
    eapply IH; [done| | |].
    + intros q Hq. apply Hps. by right.
    + eapply evolves_topology_ok; [|done].
      by eapply process_packet_completion_evolves.
    + eapply process_packet_completion_loop_free; [done| |done..].
      apply Hps. left.
Qed.

End loop_freedom.

Section loop_freedom_ticks.
Import AODVSimulator.
Implicit Types (self st mid : AODVSimulator.t) (packet : AnimatedPacket.t).

(** A packet that comes out of the advance step is an active packet after
    its [update]. *)
Lemma advanced_packet_origin dt st p r :
  (p, r) ∈ advance_packets dt st →
  ∃ p0, p0 ∈ active_packets st ∧
        AnimatedPacket.path p = AnimatedPacket.path p0 ∧
        AnimatedPacket.type p = AnimatedPacket.type p0.
Proof.
  unfold advance_packets. intros (p0 & Heq & Hin)%list_elem_of_fmap.
  exists p0. split; [done|].
  assert (p = (AnimatedPacket.update p0 dt (animation_speed st)).1) as ->
    by by rewrite <-Heq.
  by rewrite update_path, update_type.
Qed.

Lemma completed_of_elem rs p : p ∈ completed_of rs → (p, true) ∈ rs.
Proof.
  unfold completed_of. intros ([q r] & -> & Hin)%list_elem_of_fmap.
  apply list_elem_of_filter in Hin as [Hr Hin]. cbn in *. by subst r.
Qed.

Lemma remaining_of_elem rs p : p ∈ remaining_of rs → (p, false) ∈ rs.
Proof.
  unfold remaining_of. intros ([q r] & -> & Hin)%list_elem_of_fmap.
  apply list_elem_of_filter in Hin as [Hr Hin]. cbn in *. by subst r.
Qed.

Lemma drain_loop_free dt in_range st mid :
  drain dt in_range st = Some mid → topology_ok st → loop_free st → loop_free mid.
Proof.
  intros (s1 & Hp & ->)%drain_Some Hok [Hpk Hdp].
  destruct (move_nodes_fields in_range st) as (Ha&Hq&_&_&_&_&_&_&Hsp&Hd&_).
  assert (∀ p r, (p, r) ∈ advance_packets dt (move_nodes in_range st) →
                 AnimatedPacket.type p = RREQ → NoDup (AnimatedPacket.path p)) as Hadv.
  { intros p r (p0 & Hin & -> & ->)%advanced_packet_origin. rewrite Ha in Hin.
    apply Hpk. apply elem_of_app. by left. }
  apply process_completions_loop_free in Hp.
  - destruct Hp as [Hpk1 Hdp1].
    destruct (refill_active_fields s1) as (_&_&_&_&_&_&_&Hd1&_&_&Ha1&Hq1).
    split.
    + intros p. rewrite Ha1, Hq1, refill_app. apply Hpk1.
    + intros path. rewrite Hd1. apply Hdp1.
  - intros p Hin%completed_of_elem. by eapply Hadv.
  - cbn. by apply move_nodes_topology_ok.
  - split; cbn.
    + intros p [Hin%remaining_of_elem|Hin]%elem_of_app; [by eapply Hadv|].
      rewrite Hq in Hin. apply Hpk. apply elem_of_app. by right.
    + intros path. rewrite Hd. apply Hdp.
Qed.

Lemma finish_loop_free st st' : finish st = Some st' → loop_free st → loop_free st'.
Proof.
  unfold finish. destruct (_ && _); [|by intros [= <-]].
  case_bool_decide as Hfp; [|by intros [= <-]].
  intros [_ ->]%send_data_packet_Some Hlf.
  eapply (loop_free_send st); [cbn; reflexivity..|done|done].
Qed.

Lemma loop_free_empty st :
  active_packets st = [] → packet_queue st = [] → discovered_paths st = [] →
  loop_free st.
Proof.
  intros Ha Hq Hd. split.
  - intros p. rewrite Ha, Hq. intros Hin. by apply elem_of_nil in Hin.
  - intros path. rewrite Hd. intros Hin. by apply elem_of_nil in Hin.
Qed.

Lemma handle_loop_free st c st' :
  topology_ok st → loop_free st → handle st c = Some st' → loop_free st'.
Proof.
  intros Hok Hlf H. destruct c; cbn in H.
  - injection H as <-. eapply loop_free_ext; [cbn; reflexivity..|done].
  - injection H as <-. eapply loop_free_ext; [cbn; reflexivity..|done].
  - injection H as <-. eapply loop_free_ext; [cbn; reflexivity..|done].
  - case_bool_decide; [|by injection H as <-].
    apply start_simulation_Some in H as [->|H]; [done|].
    eapply start_rreq_flooding_loop_free; [exact H| |].
    + apply (topology_ok_ext (reset_simulation st)); [by cbn|].
      by apply reset_simulation_topology_ok.
    + apply loop_free_empty; by cbn.
  - injection H as <-. apply loop_free_empty; by cbn.
  - apply simulate_route_error_Some in H as [->|(f & t & _ & _ & _ & _ & ->)]; [done|].
    eapply (loop_free_send st); [cbn; reflexivity..|done|done].
  - injection H as <-. apply loop_free_empty; by cbn.
  - injection H as <-. eapply loop_free_ext; [..|exact Hlf].
    all: unfold click_node; by repeat case_bool_decide.
  - unfold update in H. destruct (negb _); [by injection H as <-|].
    destruct (drain _ _ _) as [mid|] eqn:Hd; [|done]. cbn in H.
    eapply finish_loop_free; [done|]. by eapply drain_loop_free.
Qed.

Lemma reachable_loop_free st : reachable st → loop_free st.
Proof.
  intros Hr.
  assert (topology_ok st ∧ loop_free st) as [_ H]; [|done].
  revert st Hr. apply (reachable_ind (λ s, topology_ok s ∧ loop_free s)).
  - intros in_range extra. split; [apply setup_nodes_topology_ok|].
    apply loop_free_empty; by cbn.
  - intros s c s' [Hok Hlf] H. split.
    + by eapply handle_topology_ok.
    + by eapply handle_loop_free.
Qed.

End loop_freedom_ticks.

(** C5.  In every state the program reaches, the path of every
    [ROUTE_REQUEST] packet that is active or queued, and every path recorded
    in [discovered_paths] (which receives the path of each seed and of each
    forwarded packet when it is created), contains each node id at most once;
    and the forwarding step leaves the engine as it is for a neighbor that is
    already on the path of the completed packet. *)
Theorem C5_rreq_paths_loop_free :
  ∀ st,
    reachable st →
    (∀ p, p ∈ AODVSimulator.active_packets st ++ AODVSimulator.packet_queue st →
          AnimatedPacket.type p = RREQ → NoDup (AnimatedPacket.path p)) ∧
    (∀ path, path ∈ AODVSimulator.discovered_paths st → NoDup path) ∧
    (∀ packet current_node_id s neighbor,
       neighbor ∈ AnimatedPacket.path packet →
       AODVSimulator.forward packet current_node_id s neighbor = s).
Proof.
  intros st Hr. destruct (reachable_loop_free _ Hr) as [Hp Hd].
  split; [done|]. split; [done|].
  intros packet c s n Hn. unfold AODVSimulator.forward.
  by rewrite bool_decide_eq_false_2 by (intros Hnot; by apply Hnot).
Qed.

(** A ring, where a packet could come back to a node it left: the three
    paths the flood recorded after 39 ticks visit no node twice. *)
Lemma C5_rreq_paths_loop_free_witness :
  let st := state_after (engine_with 4 ring ++ [ClickNode 0; ClickNode 2; RunSim]
                           ++ ticks 39 ring) in
  AODVSimulator.discovered_paths st = [[0; 1]; [0; 3]; [0; 1; 2]] ∧
  (∀ path, path ∈ AODVSimulator.discovered_paths st → NoDup path).
Proof.
  intros st. split; [by vm_compute|].
  destruct (C5_rreq_paths_loop_free st) as (_ & H & _); [|exact H].
  apply (reachable_run (engine_with 4 ring ++ [ClickNode 0; ClickNode 2; RunSim]
                          ++ ticks 39 ring)).
  vm_compute. reflexivity.
Defined.

(** ** Duplicate suppression *)

Section flood.
Import AODVSimulator.
Implicit Types (self st : AODVSimulator.t) (packet : AnimatedPacket.t).
























End flood.




(** ** Route errors *)

Section route_error.
Import AODVSimulator.
Implicit Types (self st : AODVSimulator.t).

(** The packet [simulate_route_error] enqueues ends at
    [final_path[break_index]] with [break_index ≥ 1]: on a best path that
    starts at the source and visits no node twice, that node is never the
    source, and the state machine does nothing when the packet completes. *)
Lemma route_error_packet_is_inert break_index st st1 src rest :
  final_path st = src :: rest → NoDup (final_path st) →
  3 ≤ length (final_path st) →
  simulate_route_error break_index st = Some st1 →
  ∃ from_node to_node,
    packet_queue st1 =
      packet_queue st ++
        [AnimatedPacket.init (packet_counter st) RERR [from_node; to_node] 0.8%float
           (Some from_node) (Some to_node)] ∧
    to_node ≠ src ∧
    ∀ s, source s = Some src →
      process_packet_completion
        (AnimatedPacket.init (packet_counter st) RERR [from_node; to_node] 0.8%float
           (Some from_node) (Some to_node)) s = Some s.
Proof.
  intros Hfp Hnd Hlen. unfold simulate_route_error.
  rewrite bool_decide_eq_false_2.
  2: { intros [Hnil|Hlt]; [by rewrite Hfp in Hnil|lia]. }
  case_bool_decide as Hi; [|done].
  destruct (final_path st !! (break_index - 1)) as [f|]; [|done].
  destruct (final_path st !! break_index) as [t|] eqn:Ht; [|done].
  cbn. intros [= <-]. exists f, t. split; [by cbn|].
  assert (t ≠ src) as Hne.
  { intros ->. rewrite Hfp in Hnd, Ht. apply NoDup_cons in Hnd as [Hnotin _].
    destruct break_index as [|i]; [lia|]. cbn in Ht.
    apply Hnotin. by eapply list_elem_of_lookup_2. }
  split; [done|]. intros s Hs.
  unfold process_packet_completion. cbn.
  rewrite bool_decide_eq_false_2; [done|]. rewrite Hs. congruence.
Qed.

End route_error.

(** C1 on the code.  Session with source 0, destination 7 and best path
    [0, 3, 5, 7]: the break index drawn is 1 or 2 and no other value, and the
    [ROUTE_ERROR] packet enqueued has the path [0, 3] or [3, 5]; but 39 ticks
    later that packet has completed (at node 3 or 5, not at the source) and
    no flood has started: the discovery id is the same, no path was added to
    the record of the flood, no packet was created and no [ROUTE_REQUEST] is
    active or queued. *)
Lemma C1_route_error_starts_no_flood :
  let st := state_after route_found in
  AODVSimulator.final_path st = [0; 3; 5; 7] ∧
  AODVSimulator.source st = Some 0 ∧ AODVSimulator.destination st = Some 7 ∧
  AODVSimulator.simulate_route_error 0 st = None ∧
  AODVSimulator.simulate_route_error 3 st = None ∧
  paths_of (AODVSimulator.packet_queue (state_after (route_found ++ [SimRerr 1])))
    = [(RERR, [0; 3])] ∧
  paths_of (AODVSimulator.packet_queue (state_after (route_found ++ [SimRerr 2])))
    = [(RERR, [3; 5])] ∧
  (∀ i, i = 1 ∨ i = 2 →
     let st1 := state_after (route_found ++ [SimRerr i]) in
     let st2 := state_after (route_found ++ [SimRerr i] ++ ticks 39 chain) in
     AODVSimulator.simulation_running st2 = true ∧
     paths_of (AODVSimulator.active_packets st2) = [(RREP, [7; 5; 3; 0])] ∧
     AODVSimulator.packet_queue st2 = [] ∧
     AODVSimulator.rreq_broadcast_id st2 = AODVSimulator.rreq_broadcast_id st ∧
     AODVSimulator.discovered_paths st2 = AODVSimulator.discovered_paths st ∧
     AODVSimulator.packet_counter st2 = AODVSimulator.packet_counter st1).
Proof.
  intros st.
  do 7 (split; [vm_compute; reflexivity|]).
  intros i [-> | ->]; cbv zeta.
  all: do 5 (split; [vm_compute; reflexivity|]); vm_compute; reflexivity.
Qed.

(** C2 on the code.  Session with source 0 and destination 1 next to it: the
    first seed packet to complete sets [route_established] (best hop count
    1), and the flag is never read.  114 ticks after the start the flag is
    set and the packet [0, 2, 3] is still in flight; the next tick hands it to
    the state machine, which forwards it: a new [ROUTE_REQUEST] with the path
    [0, 2, 3, 4] is created. *)
Lemma C2_satisfied_session_still_forwards :
  let st := state_after (fork_session 114) in
  let st' := state_after (fork_session 115) in
  AODVSimulator.route_established st = true ∧
  AODVSimulator.best_path_hop_count st = Hops 1 ∧
  paths_of (AODVSimulator.active_packets st) = [(RREQ, [0; 2; 3]); (DATA, [0; 1])] ∧
  AODVSimulator.packet_queue st = [] ∧
  AODVSimulator.update 0.033%float (linked fork) st = Some st' ∧
  paths_of (AODVSimulator.active_packets st') = [(RREQ, [0; 2; 3; 4])] ∧
  AODVSimulator.packet_counter st' = S (AODVSimulator.packet_counter st) ∧
  AODVSimulator.discovered_paths st' =
    AODVSimulator.discovered_paths st ++ [[0; 2; 3; 4]].
Proof.
  intros st st'.
  do 7 (split; [vm_compute; reflexivity|]). vm_compute. reflexivity.
Qed.

(** * Further properties of the engine *)

Section engine_records.
Import AODVSimulator.
Implicit Types (self st : AODVSimulator.t).

(** Two engines with the same fields are the same engine. *)
Lemma engine_ext st st' :
  nodes st = nodes st' → active_packets st = active_packets st' →
  packet_queue st = packet_queue st' → num_nodes st = num_nodes st' →
  source st = source st' → destination st = destination st' →
  simulation_running st = simulation_running st' →
  simulation_complete st = simulation_complete st' →
  packet_counter st = packet_counter st' → final_path st = final_path st' →
  discovered_paths st = discovered_paths st' →
  all_discovered_paths_to_dest st = all_discovered_paths_to_dest st' →
  animation_speed st = animation_speed st' →
  rreq_broadcast_id st = rreq_broadcast_id st' →
  best_path_hop_count st = best_path_hop_count st' →
  route_established st = route_established st' →
  mobility_enabled st = mobility_enabled st' → st = st'.
Proof. destruct st, st'. cbn. by intros -> -> -> -> -> -> -> -> -> -> -> -> -> -> -> -> ->. Qed.

End engine_records.

(** X1.  [reset_simulation] is idempotent, and it keeps the topology (number
    of nodes, links, who is moving), the endpoints, the animation speed and
    the mobility switch. *)
Theorem X1_reset_simulation_idempotent :
  ∀ st,
    AODVSimulator.reset_simulation (AODVSimulator.reset_simulation st)
      = AODVSimulator.reset_simulation st ∧
    adjacency (AODVSimulator.reset_simulation st) = adjacency st ∧
    Node.is_moving <$> AODVSimulator.nodes (AODVSimulator.reset_simulation st)
      = Node.is_moving <$> AODVSimulator.nodes st ∧
    (∀ i, AODVSimulator.seen i (AODVSimulator.reset_simulation st) = ∅) ∧
    AODVSimulator.source (AODVSimulator.reset_simulation st) = AODVSimulator.source st ∧
    AODVSimulator.destination (AODVSimulator.reset_simulation st)
      = AODVSimulator.destination st ∧
    AODVSimulator.animation_speed (AODVSimulator.reset_simulation st)
      = AODVSimulator.animation_speed st ∧
    AODVSimulator.mobility_enabled (AODVSimulator.reset_simulation st)
      = AODVSimulator.mobility_enabled st.
Proof.
  intros st. split; [|split; [|split; [|split]]].
  - apply engine_ext; cbn; try reflexivity.
    rewrite <-list_fmap_compose. by apply list_fmap_ext.
  - unfold adjacency. cbn. rewrite <-list_fmap_compose. by apply list_fmap_ext.
  - cbn. rewrite <-list_fmap_compose. by apply list_fmap_ext.
  - intros i. unfold AODVSimulator.seen. cbn. rewrite list_lookup_fmap.
    by destruct (AODVSimulator.nodes st !! i).
  - by cbn.
Qed.

(** ** The endpoints under the driver *)

Section endpoints.
Import AODVSimulator.
Implicit Types (self st : AODVSimulator.t) (c : Command).

Lemma evolves_length st st' : evolves st st' → length (nodes st') = length (nodes st).
Proof.
  intros H. pose proof (f_equal length (evolves_adjacency _ _ H)) as Hl.
  unfold adjacency in Hl. by rewrite !length_fmap in Hl.
Qed.

Lemma move_nodes_length in_range st :
  length (nodes (move_nodes in_range st)) = length (nodes st).
Proof. unfold move_nodes. destruct (mobility_enabled st); [|done]. cbn. apply length_imap. Qed.

Lemma drain_length dt in_range st mid :
  drain dt in_range st = Some mid → length (nodes mid) = length (nodes st).
Proof.
  intros (s1 & Hp & ->)%drain_Some.
  apply process_completions_evolves, evolves_length in Hp. cbn in Hp.
  destruct (refill_active_fields s1) as (->&_).
  by rewrite Hp, move_nodes_length.
Qed.

Lemma finish_evolves st st' :
  finish st = Some st' →
  evolves st st' ∨ st' = set_simulation_running false (set_simulation_complete true st).
Proof.
  unfold finish. destruct (_ && _); [|intros [= <-]; left; apply evolves_refl].
  case_bool_decide as Hfp; [|intros [= <-]; by right].
  intros H. left. by apply send_data_packet_evolves.
Qed.

Lemma update_length dt in_range st st' :
  update dt in_range st = Some st' → length (nodes st') = length (nodes st).
Proof.
  unfold update. destruct (negb _); [by intros [= <-]|].
  destruct (drain _ _ _) as [mid|] eqn:Hd; [|done]. cbn. intros Hf.
  rewrite <-(drain_length _ _ _ _ Hd).
  apply finish_evolves in Hf as [He| ->]; [by apply evolves_length|done].
Qed.

Lemma endpoints_ok_ext st st' :
  length (nodes st') = length (nodes st) → source st' = source st →
  destination st' = destination st → endpoints_ok st → endpoints_ok st'.
Proof. unfold endpoints_ok. by intros -> -> ->. Qed.

Lemma endpoints_ok_cleared st :
  source st = None → destination st = None → endpoints_ok st.
Proof. unfold endpoints_ok. by intros -> ->. Qed.

Lemma click_node_endpoints_ok node_id st :
  endpoints_ok st → endpoints_ok (click_node node_id st).
Proof.
  intros [Hs Hd]. unfold click_node.
  case_bool_decide as Hlen; [done|].
  case_bool_decide as Hsrc.
  - split; cbn.
    + intros s [= <-]. lia.
    + intros d Hdest. destruct (Hd d Hdest) as (_ & Hne & _). done.
  - destruct (_ && _) eqn:Hc.
    + apply andb_true_iff in Hc as [_ Hne%bool_decide_eq_true].
      split; cbn; [done|]. intros d [= <-].
      split; [lia|]. split; [done|]. congruence.
    + split; cbn; [|done]. intros s [= <-]. lia.
Qed.

Lemma handle_endpoints_ok st c st' :
  endpoints_ok st → handle st c = Some st' → endpoints_ok st'.
Proof.
  intros Hok H. destruct c; cbn in H.
  - injection H as <-. eapply endpoints_ok_ext; [..|exact Hok]; by cbn.
  - injection H as <-. eapply endpoints_ok_ext; [..|exact Hok]; cbn; [|done..].
    by rewrite length_fmap.
  - injection H as <-. apply endpoints_ok_cleared; by cbn.
  - case_bool_decide; [|by injection H as <-].
    apply start_simulation_Some in H as [->|H]; [done|].
    apply start_rreq_flooding_evolves in H.
    eapply endpoints_ok_ext; [..|exact Hok].
    + rewrite (evolves_length _ _ H). cbn. by rewrite length_fmap.
    + by rewrite (evolves_source _ _ H).
    + by rewrite (evolves_destination _ _ H).
  - injection H as <-. apply endpoints_ok_cleared; by cbn.
  - apply simulate_route_error_Some in H as [->|(f & t & _ & _ & _ & _ & ->)]; [done|].
    eapply endpoints_ok_ext; [..|exact Hok]; by cbn.
  - injection H as <-. apply endpoints_ok_cleared; by cbn.
  - injection H as <-. by apply click_node_endpoints_ok.
  - eapply endpoints_ok_ext; [..|exact Hok].
    + by eapply update_length.
    + apply update_advances in H. apply (advances_source _ _ H).
    + apply update_advances in H. apply (advances_destination _ _ H).
Qed.

Lemma reachable_endpoints_ok st : reachable st → endpoints_ok st.
Proof.
  apply (reachable_ind endpoints_ok).
  - intros in_range extra. apply endpoints_ok_cleared; by cbn.
  - intros s c s' Hs H. by eapply handle_endpoints_ok.
Qed.

End endpoints.

(** X2.  In every state the program reaches, a selected source or
    destination is the id of a node of the current topology, a destination
    is selected only when a source is, and the two differ; hence
    [start_simulation] never raises there, and neither does the RUN SIM
    button. *)
Theorem X2_endpoints_valid_and_start_returns :
  ∀ st,
    reachable st →
    endpoints_ok st ∧
    is_Some (AODVSimulator.start_simulation st) ∧
    is_Some (handle st RunSim).
Proof.
  intros st Hr. pose proof (reachable_endpoints_ok _ Hr) as Hok.
  split; [done|].
  assert (is_Some (AODVSimulator.start_simulation st)) as Hs.
  { unfold AODVSimulator.start_simulation. case_bool_decide as Hg; [done|].
    destruct (AODVSimulator.source st) as [s|] eqn:Hsrc; [|exfalso; apply Hg; by left].
    destruct Hok as [Hs _]. specialize (Hs s Hsrc).
    unfold AODVSimulator.start_rreq_flooding. cbn. rewrite Hsrc. cbn.
    rewrite list_lookup_fmap.
    destruct (lookup_lt_is_Some_2 _ _ Hs) as [nd ->]. by cbn. }
  split; [done|]. cbn. by case_bool_decide.
Qed.

(** Source 0 and destination 2 on the line. *)
Lemma X2_endpoints_valid_and_start_returns_witness :
  let st := state_after (engine_with 3 line ++ [ClickNode 0; ClickNode 2]) in
  AODVSimulator.source st = Some 0 ∧ AODVSimulator.destination st = Some 2 ∧
  is_Some (AODVSimulator.start_simulation st).
Proof.
  intros st. split; [by vm_compute|]. split; [by vm_compute|].
  destruct (X2_endpoints_valid_and_start_returns st) as (_ & H & _); [|exact H].
  apply (reachable_run (engine_with 3 line ++ [ClickNode 0; ClickNode 2])).
  vm_compute. reflexivity.
Defined.

(** ** The start of a flood *)

Section flood_start.
Import AODVSimulator.
Implicit Types (self st : AODVSimulator.t).

Lemma seeds_cons src first_id n l :
  seeds src first_id (n :: l) =
    AnimatedPacket.init first_id RREQ [src; n] 0.8%float (Some src) (Some n)
      :: seeds src (S first_id) l.
Proof.
  unfold seeds. cbn. rewrite Nat.add_0_r. f_equal.
  apply imap_ext. intros k x _. cbn. by rewrite Nat.add_succ_r.
Qed.

Lemma see_twice key nd : Node.see key (Node.see key nd) = Node.see key nd.
Proof.
  unfold Node.see. cbn. f_equal.
  by rewrite (assoc_L (∪)), (idemp_L (∪)).
Qed.

Lemma alter_see_twice key i (ns : list Node.t) :
  alter (Node.see key) i (alter (Node.see key) i ns) = alter (Node.see key) i ns.
Proof.
  revert i. induction ns as [|nd ns IH]; intros [|i]; cbn; [done..| |].
  - by rewrite see_twice.
  - f_equal. apply IH.
Qed.

(** The loop of [start_rreq_flooding] in closed form. *)
Lemma foldl_seed src st l :
  let st' := foldl (seed src) st l in
  packet_queue st' = packet_queue st ++ seeds src (packet_counter st) l ∧
  packet_counter st' = packet_counter st + length l ∧
  discovered_paths st' = discovered_paths st ++ ((λ n, [src; n]) <$> l) ∧
  nodes st' = match l with
              | [] => nodes st
              | _ => alter (Node.see (source st, rreq_broadcast_id st)) src (nodes st)
              end ∧
  active_packets st' = active_packets st ∧ source st' = source st ∧
  destination st' = destination st ∧ rreq_broadcast_id st' = rreq_broadcast_id st ∧
  simulation_running st' = simulation_running st ∧
  simulation_complete st' = simulation_complete st ∧
  final_path st' = final_path st ∧
  best_path_hop_count st' = best_path_hop_count st ∧
  all_discovered_paths_to_dest st' = all_discovered_paths_to_dest st ∧
  route_established st' = route_established st.
Proof.
  revert st. induction l as [|n l IH]; intros st; cbn zeta.
  - cbn. rewrite !app_nil_r, Nat.add_0_r. done.
  - cbn [foldl].
    destruct (IH (seed src st n))
      as (Hq & Hc & Hd & Hn & Ha & Hs & Hde & Hi & Hr & Hco & Hf & Hb & Hal & Hre).
    rewrite Hq, Hc, Hd, Hn, Ha, Hs, Hde, Hi, Hr, Hco, Hf, Hb, Hal, Hre.
    rewrite seeds_cons. cbn.
    rewrite <-!app_assoc. cbn.
    split; [done|]. split; [lia|]. split; [done|].
    split; [|done].
    destruct l; [done|]. apply alter_see_twice.
Qed.

End flood_start.

(** X3.  With a source that is a node and a destination selected,
    [start_simulation] returns normally with a fresh running session: the
    discovery id is 0, no packet is active, the queue holds one
    [ROUTE_REQUEST] per neighbor of the source, in the order of its neighbor
    list, with the path [source, neighbor] and the ids 1, 2, ...; the flood's
    record is exactly these paths; no path is known; the links and the
    endpoints are unchanged; and every node's record of floods is empty,
    except that of the source, which holds [(source, 0)] when the source has
    a neighbor. *)
Theorem X3_start_simulation_seeds_the_flood :
  ∀ st s d source_node,
    AODVSimulator.source st = Some s →
    AODVSimulator.destination st = Some d →
    AODVSimulator.nodes st !! s = Some source_node →
    ∃ st',
      AODVSimulator.start_simulation st = Some st' ∧
      AODVSimulator.simulation_running st' = true ∧
      AODVSimulator.simulation_complete st' = false ∧
      AODVSimulator.rreq_broadcast_id st' = 0 ∧
      AODVSimulator.active_packets st' = [] ∧
      AODVSimulator.packet_queue st' = seeds s 1 (Node.neighbors source_node) ∧
      AODVSimulator.packet_counter st' = S (length (Node.neighbors source_node)) ∧
      AODVSimulator.discovered_paths st' = (λ n, [s; n]) <$> Node.neighbors source_node ∧
      AODVSimulator.final_path st' = [] ∧
      AODVSimulator.best_path_hop_count st' = Inf ∧
      AODVSimulator.all_discovered_paths_to_dest st' = [] ∧
      AODVSimulator.route_established st' = false ∧
      adjacency st' = adjacency st ∧
      AODVSimulator.source st' = Some s ∧
      AODVSimulator.destination st' = Some d ∧
      (∀ i, AODVSimulator.seen i st' =
              if bool_decide (i = s ∧ Node.neighbors source_node ≠ [])
              then {[ (Some s, 0) ]} else ∅).
Proof.
  intros st s d source_node Hs Hd Hn.
  unfold AODVSimulator.start_simulation.
  rewrite bool_decide_eq_false_2 by (rewrite Hs, Hd; intros [?|?]; done).
  unfold AODVSimulator.start_rreq_flooding. cbn. rewrite Hs. cbn.
  rewrite list_lookup_fmap, Hn. cbn.
  eexists. split; [reflexivity|].
  match goal with
  | |- context [foldl (AODVSimulator.seed s) ?st0 ?l] =>
      destruct (foldl_seed s st0 l)
        as (Hq & Hc & Hdp & Hno & Ha & Hso & Hde & Hi & Hr & Hco & Hf & Hb & Hal & Hre)
  end.
  rewrite Hq, Hc, Hdp, Ha, Hso, Hde, Hi, Hr, Hco, Hf, Hb, Hal, Hre. cbn.
  do 11 (split; [done|]).
  split.
  { unfold adjacency. rewrite Hno. cbn.
    destruct (Node.neighbors source_node).
    - rewrite <-list_fmap_compose. by apply list_fmap_ext.
    - rewrite fmap_alter_same by done.
      rewrite <-list_fmap_compose. by apply list_fmap_ext. }
  split; [done|]. split; [done|].
  intros i. unfold AODVSimulator.seen. rewrite Hno. cbn. rewrite Hs.
  destruct (Node.neighbors source_node) as [|n l] eqn:Hl.
  - rewrite bool_decide_eq_false_2 by (intros [_ ?]; done).
    rewrite list_lookup_fmap. by destruct (AODVSimulator.nodes st !! i).
  - destruct (decide (i = s)) as [->|Hne].
    + rewrite bool_decide_eq_true_2 by done.
      rewrite list_lookup_alter_eq, list_lookup_fmap, Hn. cbn.
      by rewrite (right_id_L ∅ (∪)).
    + rewrite bool_decide_eq_false_2 by (intros [? _]; done).
      rewrite list_lookup_alter_ne by done.
      rewrite list_lookup_fmap. by destruct (AODVSimulator.nodes st !! i).
Qed.

(** The star: source 0 with its six neighbors, destination 7. *)
Lemma X3_start_simulation_seeds_the_flood_witness :
  let st := state_after (engine_with 8 star ++ [ClickNode 0; ClickNode 7]) in
  ∃ st', AODVSimulator.start_simulation st = Some st' ∧
         paths_of (AODVSimulator.packet_queue st') =
           [(RREQ, [0; 1]); (RREQ, [0; 2]); (RREQ, [0; 3]);
            (RREQ, [0; 4]); (RREQ, [0; 5]); (RREQ, [0; 6])] ∧
         AODVSimulator.packet_counter st' = 7.
Proof.
  intros st.
  destruct (X3_start_simulation_seeds_the_flood st 0 7
              (default Node.init (AODVSimulator.nodes st !! 0)))
    as (st' & H & _ & _ & _ & _ & Hq & Hc & _).
  - vm_compute. reflexivity.
  - vm_compute. reflexivity.
  - vm_compute. reflexivity.
  - exists st'. split; [exact H|]. rewrite Hq, Hc. split; vm_compute; reflexivity.
Defined.

(** ** The scheduler *)

(** X4.  The refill of a tick is first-in first-out and wastes no slot: it
    moves a prefix of the queue to the back of the active set, in order; the
    prefix has [min (5 - |active|) |queue|] packets; and a packet is left
    waiting only when five or more packets are active. *)
Theorem X4_refill_moves_queue_prefix :
  ∀ active queue,
    ∃ moved,
      (AODVSimulator.refill active queue).1 = active ++ moved ∧
      queue = moved ++ (AODVSimulator.refill active queue).2 ∧
      length moved = (5 - length active) `min` length queue ∧
      ((AODVSimulator.refill active queue).2 ≠ [] →
       5 ≤ length (AODVSimulator.refill active queue).1).
Proof.
  intros active queue. revert active.
  induction queue as [|p q IH]; intros active; cbn.
  - exists []. rewrite app_nil_r. repeat split; [cbn; lia|done].
  - case_bool_decide as Hl.
    + destruct (IH (active ++ [p])) as (moved & H1 & H2 & H3 & H4).
      exists (p :: moved). rewrite H1, <-app_assoc. cbn.
      split; [done|]. split; [by rewrite <-H2|].
      split; [rewrite H3, length_app; cbn; lia|].
      intros Hne. specialize (H4 Hne). rewrite H1 in H4.
      rewrite !length_app in *. cbn in *. lia.
    + exists []. cbn. rewrite app_nil_r. repeat split; lia.
Qed.

(** ** The topology under ticks *)

Section tick_topology.
Import AODVSimulator.
Implicit Types (self st : AODVSimulator.t).

Lemma evolves_tick_topology st st' :
  evolves st st' →
  length (nodes st') = length (nodes st) ∧
  Node.is_moving <$> nodes st' = Node.is_moving <$> nodes st ∧
  adjacency st' = adjacency st.
Proof.
  intros H. split; [by apply evolves_length|].
  split; [apply (evolves_moving _ _ H)|apply (evolves_adjacency _ _ H)].
Qed.

Lemma move_nodes_moving in_range st :
  Node.is_moving <$> nodes (move_nodes in_range st) = Node.is_moving <$> nodes st.
Proof.
  unfold move_nodes. destruct (mobility_enabled st); [|done]. cbn.
  apply list_eq. intros i. rewrite !list_lookup_fmap, list_lookup_imap.
  destruct (nodes st !! i) as [nd|]; [|done]. cbn.
  unfold Node.update_neighbors.
  destruct (Node.is_moving nd) eqn:Hm; cbn; by rewrite ?Hm.
Qed.

Lemma move_nodes_adjacency in_range st :
  adjacency (move_nodes in_range st) =
    if mobility_enabled st
    then imap (λ i nd,
                 if Node.is_moving nd
                 then filter (λ j, j ≠ i ∧ in_range i j = true)
                        (seq 0 (length (nodes st)))
                 else Node.neighbors nd) (nodes st)
    else adjacency st.
Proof.
  unfold move_nodes, adjacency. destruct (mobility_enabled st); [|done]. cbn.
  apply list_eq. intros i. rewrite list_lookup_fmap, !list_lookup_imap.
  destruct (nodes st !! i) as [nd|]; [|done]. cbn.
  unfold Node.update_neighbors.
  destruct (Node.is_moving nd) eqn:Hm; cbn; by rewrite ?Hm.
Qed.

Lemma refill_active_mobility st :
  mobility_enabled (refill_active st) = mobility_enabled st.
Proof. unfold refill_active. by destruct (refill _ _). Qed.

Lemma move_nodes_mobility in_range st :
  mobility_enabled (move_nodes in_range st) = mobility_enabled st.
Proof. unfold move_nodes. by destruct (mobility_enabled st) eqn:Hm; cbn; rewrite ?Hm. Qed.

Lemma update_topology dt in_range st st' :
  update dt in_range st = Some st' →
  length (nodes st') = length (nodes st) ∧
  mobility_enabled st' = mobility_enabled st ∧
  Node.is_moving <$> nodes st' = Node.is_moving <$> nodes st ∧
  adjacency st' =
    (if simulation_running st && mobility_enabled st
     then imap (λ i nd,
                  if Node.is_moving nd
                  then filter (λ j, j ≠ i ∧ in_range i j = true)
                         (seq 0 (length (nodes st)))
                  else Node.neighbors nd) (nodes st)
     else adjacency st).
Proof.
  unfold update.
  destruct (simulation_running st); cbn; [|by intros [= <-]].
  destruct (drain _ _ _) as [mid|] eqn:Hd; [|done]. cbn. intros Hf.
  apply drain_Some in Hd as (s1 & Hp & ->).
  apply process_completions_evolves in Hp.
  pose proof (evolves_mobility _ _ Hp) as Hmo. cbn in Hmo.
  apply evolves_tick_topology in Hp as (Hl & Hm & Ha).
  unfold adjacency in *. cbn in Hl, Hm, Ha.
  destruct (refill_active_fields s1) as (Hn&_).
  assert (length (nodes st') = length (nodes s1) ∧
          mobility_enabled st' = mobility_enabled s1 ∧
          Node.is_moving <$> nodes st' = Node.is_moving <$> nodes s1 ∧
          Node.neighbors <$> nodes st' = Node.neighbors <$> nodes s1)
    as (Hl' & Hmo' & Hm' & Ha').
  { apply finish_evolves in Hf as [He| ->].
    - pose proof (evolves_mobility _ _ He) as Hmo'.
      rewrite refill_active_mobility in Hmo'.
      apply evolves_tick_topology in He as (? & ? & He). unfold adjacency in He.
      by rewrite Hn in *.
    - cbn. by rewrite Hn, refill_active_mobility. }
  rewrite Hl', Hmo', Hm', Ha', Hl, Hmo, Hm, Ha.
  split; [apply move_nodes_length|]. split; [apply move_nodes_mobility|].
  split; [apply move_nodes_moving|]. apply move_nodes_adjacency.
Qed.

End tick_topology.

(** X5.  A tick never changes the number of nodes, the mobility switch or
    which nodes are moving.  In a running session with mobility switched on,
    the neighbors of every moving node become exactly the other nodes in its
    range, in id order, and the nodes that are not moving keep their links;
    in every other case the links are unchanged, whatever packets are
    processed. *)
Theorem X5_tick_topology :
  ∀ dt in_range st st',
    AODVSimulator.update dt in_range st = Some st' →
    length (AODVSimulator.nodes st') = length (AODVSimulator.nodes st) ∧
    AODVSimulator.mobility_enabled st' = AODVSimulator.mobility_enabled st ∧
    Node.is_moving <$> AODVSimulator.nodes st' = Node.is_moving <$> AODVSimulator.nodes st ∧
    adjacency st' =
      (if AODVSimulator.simulation_running st && AODVSimulator.mobility_enabled st
       then imap (λ i nd,
                    if Node.is_moving nd
                    then filter (λ j, j ≠ i ∧ in_range i j = true)
                           (seq 0 (length (AODVSimulator.nodes st)))
                    else Node.neighbors nd) (AODVSimulator.nodes st)
       else adjacency st).
Proof. intros dt in_range st st'. apply update_topology. Qed.

(** A tick of a static topology in the middle of a flood. *)
Lemma X5_tick_topology_witness :
  let st := state_after (engine_with 4 ring ++ [ClickNode 0; ClickNode 2; RunSim]
                           ++ ticks 38 ring) in
  let st' := default st (AODVSimulator.update 0.033%float (linked ring) st) in
  adjacency st = [[1; 3]; [0; 2]; [1; 3]; [0; 2]] ∧ adjacency st' = adjacency st.
Proof.
  intros st st'. split; [by vm_compute|].
  destruct (X5_tick_topology 0.033%float (linked ring) st st') as (_ & _ & _ & H).
  - vm_compute. reflexivity.
  - rewrite H. vm_compute. reflexivity.
Defined.

(** ** The position of a packet on its path *)

Section packet_position.
Import AnimatedPacket.
Implicit Types (p : AnimatedPacket.t) (dt m : float).

Lemma update_position_ok p dt m : position_ok p → position_ok (update p dt m).1.
Proof.
  unfold position_ok, update. destruct (completed p) eqn:Hc; cbn; [by rewrite Hc|].
  intros Hlt. destruct (_ <=? _)%float; cbn; [|by rewrite Hc].
  unfold at_last_node. cbn. case_bool_decide as Hl; cbn.
  - split; [lia|done].
  - rewrite Hc. lia.
Qed.

Lemma update_index p dt m :
  current_node_index p ≤ current_node_index (update p dt m).1
    ≤ S (current_node_index p).
Proof.
  unfold update. destruct (completed p); cbn; [lia|].
  destruct (_ <=? _)%float; cbn; [|lia].
  destruct (at_last_node _); cbn; lia.
Qed.

Lemma update_calls_position_ok calls p :
  position_ok p →
  position_ok (update_calls p calls) ∧ path (update_calls p calls) = path p ∧
  current_node_index p ≤ current_node_index (update_calls p calls).
Proof.
  revert p. induction calls as [|[dt m] calls IH]; intros p Hp; [done|].
  unfold update_calls. cbn [foldl fst snd]. fold (update_calls (update p dt m).1 calls).
  destruct (IH (update p dt m).1) as (H1 & H2 & H3); [by apply update_position_ok|].
  split; [done|]. split.
  - rewrite H2. apply update_path.
  - pose proof (update_index p dt m) as Hi. lia.
Qed.

End packet_position.

(** X6.  A packet created on a path of at least two nodes never leaves its
    path, whatever time step and speed multiplier each [update] call gets:
    after any sequence of calls its path is unchanged and its hop index is
    an index of the path; as long as it is not completed the path has a next
    node; once completed it sits on the last node of the path with progress
    1.0. *)
Theorem X6_packet_stays_on_its_path :
  ∀ packet_id packet_type path base_speed from_node to_node calls,
    2 ≤ length path →
    let p := update_calls
               (AnimatedPacket.init packet_id packet_type path base_speed
                  from_node to_node) calls in
    position_ok p ∧
    AnimatedPacket.path p = path ∧
    is_Some (path !! AnimatedPacket.current_node_index p) ∧
    (AnimatedPacket.completed p = false →
     is_Some (path !! S (AnimatedPacket.current_node_index p))) ∧
    (AnimatedPacket.completed p = true →
     path !! AnimatedPacket.current_node_index p = last path ∧
     AnimatedPacket.progress p = 1%float).
Proof.
  intros packet_id packet_type path base_speed from_node to_node calls Hlen p.
  destruct (update_calls_position_ok calls
              (AnimatedPacket.init packet_id packet_type path base_speed
                 from_node to_node)) as (Hok & Hpath & _).
  { unfold position_ok. cbn. lia. }
  fold p in Hok, Hpath. cbn in Hpath.
  split; [done|]. split; [done|].
  unfold position_ok in Hok. rewrite Hpath in Hok.
  destruct (AnimatedPacket.completed p).
  - destruct Hok as [Hi Hpr].
    split; [apply lookup_lt_is_Some_2; lia|]. split; [done|]. intros _.
    split; [|done]. rewrite last_lookup. f_equal. lia.
  - split; [apply lookup_lt_is_Some_2; lia|].
    split; [intros _; apply lookup_lt_is_Some_2; lia|done].
Qed.

(** A packet on [0, 1, 2]: 38 ticks of 33 ms at speed 1.0 take it to node 1,
    and 19 more at speed 2.0 to node 2. *)
Lemma X6_packet_stays_on_its_path_witness :
  let p := update_calls
             (AnimatedPacket.init 0 RREQ [0; 1; 2] 0.8%float None None)
             (replicate 38 (0.033%float, 1%float)
                ++ replicate 19 (0.033%float, 2%float)) in
  AnimatedPacket.completed p = true ∧
  AnimatedPacket.current_node_index p = 2 ∧
  position_ok p.
Proof.
  intros p. split; [by vm_compute|]. split; [by vm_compute|].
  destruct (X6_packet_stays_on_its_path 0 RREQ [0; 1; 2] 0.8%float None None
              (replicate 38 (0.033%float, 1%float)
                 ++ replicate 19 (0.033%float, 2%float))) as (H & _).
  - cbn. lia.
  - exact H.
Defined.

(** ** The topology [setup_nodes] builds *)

Section setup.
Import AODVSimulator.
Implicit Types (ns : list Node.t) (ops : list (nat * nat)).

Lemma foldl_bind {A B C} (f : A → C → A) (g : B → list C) (l : list B) (a : A) :
  foldl f a (l ≫= g) = foldl (λ a x, foldl f a (g x)) a l.
Proof.
  revert a. induction l as [|x l IH]; intros a; [done|].
  cbn. by rewrite foldl_app, IH.
Qed.

Lemma foldl_ext_in {A B} (f g : A → B → A) (l : list B) (a : A) :
  (∀ a b, b ∈ l → f a b = g a b) → foldl f a l = foldl g a l.
Proof.
  revert a. induction l as [|x l IH]; intros a Hfg; [done|].
  cbn. rewrite Hfg by left. apply IH. intros a' b Hb. apply Hfg. by right.
Qed.

Lemma basic_links_add_links in_range n ns :
  basic_links in_range n ns = add_links (basic_ops in_range n) ns.
Proof.
  unfold basic_links, add_links, basic_ops.
  rewrite foldl_bind. apply foldl_ext_in. intros a i _.
  rewrite foldl_bind. apply foldl_ext_in. intros a' j _.
  by destruct (_ && _).
Qed.

Lemma extra_links_add_links extra n ns :
  extra_links extra n ns = add_links (extra_ops extra n) ns.
Proof.
  unfold extra_links, add_links, extra_ops.
  rewrite foldl_bind. apply foldl_ext_in. intros a i _.
  rewrite foldl_bind. apply foldl_ext_in. intros a' j _.
  by destruct (_ && _).
Qed.

Lemma add_neighbor_spec j nd :
  (∀ x, x ∈ Node.neighbors (Node.add_neighbor j nd) ↔ x ∈ Node.neighbors nd ∨ x = j) ∧
  (NoDup (Node.neighbors nd) → NoDup (Node.neighbors (Node.add_neighbor j nd))) ∧
  Node.rreq_seen (Node.add_neighbor j nd) = Node.rreq_seen nd ∧
  Node.is_moving (Node.add_neighbor j nd) = Node.is_moving nd.
Proof.
  unfold Node.add_neighbor. case_bool_decide as Hin; cbn.
  - split; [|done]. intros x. split; [by left|]. by intros [?| ->].
  - split; [|split; [|done]].
    + intros x. rewrite elem_of_app, list_elem_of_singleton. done.
    + intros Hnd. apply NoDup_app. split; [done|]. split; [|apply NoDup_singleton].
      intros x Hx ->%list_elem_of_singleton. done.
Qed.

Lemma add_links_cons i j ops ns :
  add_links ((i, j) :: ops) ns = add_links ops (alter (Node.add_neighbor j) i ns).
Proof. done. Qed.

(** What a list of [add_neighbor] calls does to the node [k]. *)
Lemma add_links_spec ops ns k nd :
  ns !! k = Some nd →
  ∃ nd', add_links ops ns !! k = Some nd' ∧
         (∀ x, x ∈ Node.neighbors nd' ↔ x ∈ Node.neighbors nd ∨ (k, x) ∈ ops) ∧
         (NoDup (Node.neighbors nd) → NoDup (Node.neighbors nd')) ∧
         Node.rreq_seen nd' = Node.rreq_seen nd ∧
         Node.is_moving nd' = Node.is_moving nd.
Proof.
  revert ns nd. induction ops as [|[i j] ops IH]; intros ns nd Hk.
  - exists nd. split; [done|]. split; [|done].
    intros x. split; [by left|]. intros [?|Hin]; [done|]. by apply elem_of_nil in Hin.
  - rewrite add_links_cons.
    destruct (decide (i = k)) as [->|Hne].
    + destruct (add_neighbor_spec j nd) as (Hm & Hnd & Hs & Hmv).
      destruct (IH (alter (Node.add_neighbor j) k ns) (Node.add_neighbor j nd))
        as (nd' & Hl & Hm' & Hnd' & Hs' & Hmv').
      { by rewrite list_lookup_alter_eq, Hk. }
      exists nd'. split; [done|]. split; [|split; [|split]].
      * intros x. rewrite Hm', Hm, elem_of_cons. split.
        -- intros [[?| ->]|?]; [by left|right; by left|right; by right].
        -- intros [?|[[= ->]|?]]; [left; by left|left; by right|by right].
      * intros H. by apply Hnd', Hnd.
      * by rewrite Hs'.
      * by rewrite Hmv'.
    + destruct (IH (alter (Node.add_neighbor j) i ns) nd)
        as (nd' & Hl & Hm' & Hnd' & Hs' & Hmv').
      { by rewrite list_lookup_alter_ne. }
      exists nd'. split; [done|]. split; [|done].
      intros x. rewrite Hm', elem_of_cons. split.
      * intros [?|?]; [by left|right; by right].
      * intros [?|[[= ? ?]|?]]; [by left|done|by right].
Qed.

Lemma add_links_length ops ns : length (add_links ops ns) = length ns.
Proof.
  revert ns. induction ops as [|[i j] ops IH]; intros ns; [done|].
  by rewrite add_links_cons, IH, length_alter.
Qed.

Lemma elem_of_basic_ops in_range n i j :
  (i, j) ∈ basic_ops in_range n ↔ i < n ∧ j < n ∧ i ≠ j ∧ in_range i j = true.
Proof.
  unfold basic_ops. rewrite list_elem_of_bind. split.
  - intros (a & (b & Hin & Hb%elem_of_seq)%list_elem_of_bind & Ha%elem_of_seq).
    destruct (_ && _) eqn:Hc; [|by apply elem_of_nil in Hin].
    apply list_elem_of_singleton in Hin as [= -> ->].
    apply andb_true_iff in Hc as [Hne%bool_decide_eq_true Hr].
    repeat split; [lia..|done|done].
  - intros (Hi & Hj & Hne & Hr). exists i. split; [|apply elem_of_seq; lia].
    apply list_elem_of_bind. exists j. split; [|apply elem_of_seq; lia].
    rewrite Hr, bool_decide_eq_true_2 by done. cbn. left.
Qed.

Lemma elem_of_extra_ops extra n a b :
  (a, b) ∈ extra_ops extra n ↔
  (a < b ∧ b < n ∧ extra a b = true) ∨ (b < a ∧ a < n ∧ extra b a = true).
Proof.
  unfold extra_ops. rewrite list_elem_of_bind. split.
  - intros (i & (j & Hin & Hj%elem_of_seq)%list_elem_of_bind & Hi%elem_of_seq).
    destruct (_ && _) eqn:Hc; [|by apply elem_of_nil in Hin].
    apply andb_true_iff in Hc as [_ Hr].
    apply elem_of_cons in Hin as [[= -> ->]|Hin].
    + left. repeat split; [lia..|done].
    + apply list_elem_of_singleton in Hin as [= -> ->].
      right. repeat split; [lia..|done].
  - intros [(Hlt & Hb & Hr)|(Hlt & Ha & Hr)].
    + exists a. split; [|apply elem_of_seq; lia].
      apply list_elem_of_bind. exists b. split; [|apply elem_of_seq; lia].
      rewrite Hr, bool_decide_eq_true_2 by lia. cbn. left.
    + exists b. split; [|apply elem_of_seq; lia].
      apply list_elem_of_bind. exists a. split; [|apply elem_of_seq; lia].
      rewrite Hr, bool_decide_eq_true_2 by lia. cbn. right. left.
Qed.

End setup.

(** X7.  [setup_nodes] builds exactly [num_nodes] fresh nodes (empty record,
    not moving), with the ids [0 .. num_nodes - 1].  The node [j] is a
    neighbor of the node [i] exactly when it is another node and either it
    is in the range of [i] or the pair was drawn as an extra link; no
    neighbor list has a duplicate.  So no node is its own neighbor, and when
    the range test is symmetric the links are symmetric. *)
Theorem X7_setup_nodes_links :
  ∀ in_range extra st,
    let st' := AODVSimulator.setup_nodes in_range extra st in
    let n := AODVSimulator.num_nodes st in
    length (AODVSimulator.nodes st') = n ∧
    (∀ i, i < n →
       ∃ nd, AODVSimulator.nodes st' !! i = Some nd ∧
             Node.rreq_seen nd = ∅ ∧ Node.is_moving nd = false ∧
             NoDup (Node.neighbors nd) ∧
             ∀ j, j ∈ Node.neighbors nd ↔
                  j < n ∧ j ≠ i ∧
                  (in_range i j = true ∨ extra (i `min` j) (i `max` j) = true)) ∧
    ((∀ i j, in_range i j = in_range j i) →
     ∀ i j li lj, adjacency st' !! i = Some li → adjacency st' !! j = Some lj →
                  (j ∈ li ↔ i ∈ lj)).
Proof.
  intros in_range extra st st' n.
  assert (AODVSimulator.nodes st' =
          add_links (extra_ops extra n)
            (add_links (basic_ops in_range n) (replicate n Node.init))) as Hnodes.
  { unfold st', AODVSimulator.setup_nodes. cbn.
    by rewrite extra_links_add_links, basic_links_add_links. }
  assert (∀ i, i < n →
            ∃ nd, AODVSimulator.nodes st' !! i = Some nd ∧
                  Node.rreq_seen nd = ∅ ∧ Node.is_moving nd = false ∧
                  NoDup (Node.neighbors nd) ∧
                  ∀ j, j ∈ Node.neighbors nd ↔
                       j < n ∧ j ≠ i ∧
                       (in_range i j = true ∨ extra (i `min` j) (i `max` j) = true))
    as Hspec.
  { intros i Hi. rewrite Hnodes.
    destruct (add_links_spec (basic_ops in_range n) (replicate n Node.init) i Node.init)
      as (nd1 & Hl1 & Hm1 & Hnd1 & Hs1 & Hmv1).
    { by apply lookup_replicate_2. }
    destruct (add_links_spec (extra_ops extra n) _ i nd1 Hl1)
      as (nd2 & Hl2 & Hm2 & Hnd2 & Hs2 & Hmv2).
    exists nd2. split; [done|]. split; [by rewrite Hs2, Hs1|].
    split; [by rewrite Hmv2, Hmv1|].
    split; [apply Hnd2, Hnd1; cbn; apply NoDup_nil_2|].
    intros j. rewrite Hm2, Hm1, elem_of_basic_ops, elem_of_extra_ops. cbn. split.
    - intros [[Hnil|(_ & Hj & Hne & Hr)]|[(Hlt & Hj & Hr)|(Hlt & _ & Hr)]].
      + by apply elem_of_nil in Hnil.
      + split; [done|]. split; [done|by left].
      + split; [done|]. split; [lia|]. right.
        by rewrite Nat.min_l, Nat.max_r by lia.
      + split; [lia|]. split; [lia|]. right.
        by rewrite Nat.min_r, Nat.max_l by lia.
    - intros (Hj & Hne & [Hr|Hr]).
      + left. right. done.
      + right. destruct (decide (i < j)).
        * left. rewrite Nat.min_l, Nat.max_r in Hr by lia. done.
        * right. rewrite Nat.min_r, Nat.max_l in Hr by lia.
          split; [lia|]. done. }
  split; [|split; [done|]].
  - rewrite Hnodes, !add_links_length. apply length_replicate.
  - intros Hsym i j li lj Hi Hj. unfold adjacency in Hi, Hj.
    rewrite list_lookup_fmap in Hi, Hj.
    destruct (AODVSimulator.nodes st' !! i) as [ndi|] eqn:Hni; [|done].
    destruct (AODVSimulator.nodes st' !! j) as [ndj|] eqn:Hnj; [|done].
    cbn in Hi, Hj. injection Hi as <-. injection Hj as <-.
    assert (length (AODVSimulator.nodes st') = n) as Hlen.
    { rewrite Hnodes, !add_links_length. apply length_replicate. }
    pose proof (lookup_lt_Some _ _ _ Hni) as Hilt.
    pose proof (lookup_lt_Some _ _ _ Hnj) as Hjlt.
    rewrite Hlen in Hilt, Hjlt.
    destruct (Hspec i Hilt) as (ndi' & Hni' & _ & _ & _ & Hmi).
    destruct (Hspec j Hjlt) as (ndj' & Hnj' & _ & _ & _ & Hmj).
    rewrite Hni in Hni'. injection Hni' as <-.
    rewrite Hnj in Hnj'. injection Hnj' as <-.
    rewrite Hmi, Hmj, (Hsym j i), (Nat.min_comm j i), (Nat.max_comm j i).
    split; intros (_ & Hne & H); (split; [done|]); (split; [done|done]).
Qed.

(** ** Ticks that cannot raise *)

Section safety.
Import AODVSimulator.
Implicit Types (self st mid : AODVSimulator.t) (packet p q : AnimatedPacket.t).

Lemma adjacency_length st : length (adjacency st) = length (nodes st).
Proof. unfold adjacency. apply length_fmap. Qed.

Lemma adjacency_eq_length st st' :
  adjacency st' = adjacency st → length (nodes st') = length (nodes st).
Proof. intros H. by rewrite <-!adjacency_length, H. Qed.

Lemma packet_ok_mono st st' p :
  length (nodes st') = length (nodes st) →
  (2 ≤ length (final_path st) → 2 ≤ length (final_path st')) →
  packet_ok st p → packet_ok st' p.
Proof.
  intros Hl Hf (H1 & H2 & H3 & H4). split; [done|]. split; [by rewrite Hl|].
  split; [done|]. intros Ht. by apply Hf, H4.
Qed.

Lemma evolves_packet_ok st st' p : evolves st st' → packet_ok st p → packet_ok st' p.
Proof.
  intros He. apply packet_ok_mono; [by apply evolves_length|].
  intros Hlen. destruct (evolves_final _ _ He) as [[-> _]|[_ ?]]; done.
Qed.

(** One step of the state machine, seen from [flight_ok]: the links stay,
    packets are added at the back of the queue, and the best path stays or
    becomes a path of at least two nodes. *)
Lemma flight_ok_step st st' new :
  adjacency st' = adjacency st →
  active_packets st' = active_packets st →
  packet_queue st' = packet_queue st ++ new →
  (final_path st' = final_path st ∨
   (2 ≤ length (final_path st') ∧ ∀ x, x ∈ final_path st' → x < length (nodes st))) →
  (∀ q, q ∈ new → packet_ok st' q) →
  flight_ok st → flight_ok st'.
Proof.
  intros Hadj Ha Hq Hf Hnew (Hok & Hp & Hfp & Hlen).
  pose proof (adjacency_eq_length _ _ Hadj) as Hl.
  split; [|split; [|split]].
  - unfold topology_ok. by rewrite Hadj.
  - intros p. rewrite Ha, Hq, app_assoc. intros [Hin|Hin]%elem_of_app; [|by apply Hnew].
    eapply packet_ok_mono; [done| |by apply Hp].
    intros H2. destruct Hf as [-> |[? _]]; done.
  - rewrite Hl. destruct Hf as [-> |[_ ?]]; done.
  - destruct Hf as [-> |[? _]]; [done|by right].
Qed.

Lemma flight_ok_ext st st' :
  adjacency st' = adjacency st → active_packets st' = active_packets st →
  packet_queue st' = packet_queue st → final_path st' = final_path st →
  flight_ok st → flight_ok st'.
Proof.
  intros Hadj Ha Hq Hf. apply (flight_ok_step st st' []); [done..|by rewrite app_nil_r| |].
  - by left.
  - intros q Hin. by apply elem_of_nil in Hin.
Qed.

Lemma seed_flight_ok src st n :
  src < length (nodes st) → n < length (nodes st) →
  flight_ok st → flight_ok (seed src st n).
Proof.
  intros Hs Hn. eapply (flight_ok_step st _ [_]).
  - unfold adjacency, seed. cbn. by apply fmap_alter_same.
  - by cbn.
  - cbn. reflexivity.
  - by left.
  - intros q ->%list_elem_of_singleton. split; [done|].
    split; [|split; [by cbn; lia|done]].
    intros x. cbn. rewrite length_alter.
    intros [-> | [-> | Hin%elem_of_nil]%elem_of_cons]%elem_of_cons; done.
Qed.

Lemma forward_flight_ok packet c st n :
  AnimatedPacket.path packet ≠ [] →
  (∀ x, x ∈ AnimatedPacket.path packet → x < length (nodes st)) →
  n < length (nodes st) →
  flight_ok st → flight_ok (forward packet c st n).
Proof.
  intros Hne Hids Hn Hok. unfold forward.
  case_bool_decide as Hp; [|done]. case_bool_decide as Hk; [|done].
  eapply (flight_ok_step st _ [_]); [..|exact Hok].
  - unfold adjacency. cbn. by apply fmap_alter_same.
  - by cbn.
  - cbn. reflexivity.
  - by left.
  - intros q ->%list_elem_of_singleton. split; [|split; [|split; [|done]]].
    + cbn. by destruct (AnimatedPacket.path packet).
    + intros x. cbn. rewrite length_alter.
      intros [Hin | ->%list_elem_of_singleton]%elem_of_app; [by apply Hids|done].
    + intros _. cbn. rewrite length_app. cbn.
      destruct (AnimatedPacket.path packet); [done|cbn; lia].
Qed.

Lemma foldl_forward_flight_ok packet c st l :
  AnimatedPacket.path packet ≠ [] →
  (∀ x, x ∈ AnimatedPacket.path packet → x < length (nodes st)) →
  (∀ n, n ∈ l → n < length (nodes st)) →
  flight_ok st → flight_ok (foldl (forward packet c) st l).
Proof.
  intros Hne Hids Hl Hok.
  assert (flight_ok (foldl (forward packet c) st l) ∧
          length (nodes (foldl (forward packet c) st l)) = length (nodes st)) as [H _];
    [|done].
  apply (foldl_preserves (λ s, flight_ok s ∧ length (nodes s) = length (nodes st)));
    [done|].
  intros s n Hn [Hs Hlen]. split.
  - apply forward_flight_ok; [done|by rewrite Hlen|rewrite Hlen; by apply Hl|done].
  - rewrite <-Hlen. apply evolves_length, forward_evolves.
Qed.

Lemma start_rreq_flooding_flight_ok st src :
  source st = Some src → src < length (nodes st) → flight_ok st →
  ∃ st', start_rreq_flooding st = Some st' ∧ flight_ok st'.
Proof.
  intros Hs Hlt Hok. unfold start_rreq_flooding. cbn. rewrite Hs. cbn.
  destruct (lookup_lt_is_Some_2 _ _ Hlt) as [source_node Hn]. rewrite Hn. cbn.
  eexists. split; [reflexivity|].
  set (st0 := set_packet_counter _ _).
  assert (flight_ok st0) as Hok0.
  { eapply flight_ok_ext; [..|exact Hok]; by cbn. }
  assert (flight_ok (foldl (seed src) st0 (Node.neighbors source_node)) ∧
          length (nodes (foldl (seed src) st0 (Node.neighbors source_node)))
          = length (nodes st)) as [H _]; [|done].
  apply (foldl_preserves (λ s, flight_ok s ∧ length (nodes s) = length (nodes st)));
    [done|].
  intros s n Hin [Hs' Hlen]. split.
  - apply seed_flight_ok; [by rewrite Hlen| |done]. rewrite Hlen.
    destruct Hok as (Htop & _).
    specialize (Htop src (Node.neighbors source_node)). unfold adjacency in Htop.
    rewrite list_lookup_fmap, Hn, length_fmap in Htop. by apply Htop.
  - rewrite <-Hlen. apply evolves_length, seed_evolves.
Qed.

Lemma send_data_packet_flight_ok st :
  2 ≤ length (final_path st) → flight_ok st →
  ∃ st', send_data_packet st = Some st' ∧ flight_ok st'.
Proof.
  intros Hlen Hok. unfold send_data_packet. cbn.
  rewrite bool_decide_eq_true_2 by done. eexists. split; [reflexivity|].
  eapply (flight_ok_step st _ [_]); [by cbn|by cbn|cbn; reflexivity|by left| |exact Hok].
  intros q ->%list_elem_of_singleton. destruct Hok as (_ & _ & Hfp & _).
  split; [|split; [|done]].
  - cbn. intros Hnil. rewrite Hnil in Hlen. cbn in Hlen. lia.
  - intros x. cbn. apply Hfp.
Qed.

Lemma record_path_flight_ok path st :
  2 ≤ length path → (∀ x, x ∈ path → x < length (nodes st)) → flight_ok st →
  ∃ st' returned, record_path path st = Some (st', returned) ∧ flight_ok st'.
Proof.
  intros Hlen Hids Hok. unfold record_path.
  destruct (hop_lt _ _); cbn.
  - unfold send_rrep_back. rewrite bool_decide_eq_true_2 by done. cbn.
    assert (∀ s, active_packets s = active_packets st →
                 adjacency s = adjacency st → final_path s = path →
                 packet_queue s =
                   packet_queue st ++
                     [AnimatedPacket.init (packet_counter st) RREP (reverse path)
                        0.8%float None None] →
                 flight_ok s) as Hgen.
    { intros s Ha Hadj Hf Hq.
      eapply (flight_ok_step st s [_]); [done|done|exact Hq| | |exact Hok].
      - right. by rewrite Hf.
      - intros q ->%list_elem_of_singleton.
        split; [|split; [|split; [done|]]].
        + cbn. intros Hr. apply (f_equal length) in Hr.
          rewrite length_reverse in Hr. cbn in Hr. lia.
        + intros x. cbn. rewrite (adjacency_eq_length _ _ Hadj), elem_of_reverse.
          apply Hids.
        + intros _. by rewrite Hf. }
    destruct (_ || _); eexists _, _; (split; [reflexivity|]); apply Hgen; by cbn.
  - destruct (_ || _); eexists _, _; (split; [reflexivity|]).
    all: eapply flight_ok_ext; [..|exact Hok]; by cbn.
Qed.

(** Under [flight_ok], handing over a packet that is [packet_ok] raises
    nothing and keeps [flight_ok]. *)
Lemma process_packet_completion_flight_ok packet st :
  flight_ok st → packet_ok st packet →
  ∃ st', process_packet_completion packet st = Some st' ∧ flight_ok st'.
Proof.
  intros Hok (Hne & Hids & Hreq & Hrep). unfold process_packet_completion.
  destruct (last (AnimatedPacket.path packet)) as [current_node_id|] eqn:Hlast.
  2: { apply last_None in Hlast. done. }
  cbn.
  assert (current_node_id < length (nodes st)) as Hcur.
  { apply Hids. apply last_Some in Hlast as [l' ->]. apply elem_of_app. right. left. }
  destruct (AnimatedPacket.type packet) eqn:Ht.
  - specialize (Hreq eq_refl).
    assert (∀ s, flight_ok s → length (nodes s) = length (nodes st) →
                 ∃ st', (current_node ← nodes s !! current_node_id;
                         Some (foldl (forward packet current_node_id) s
                                 (Node.neighbors current_node))) = Some st' ∧
                        flight_ok st') as Hfwd.
    { intros s Hs Hlen.
      destruct (lookup_lt_is_Some_2 (nodes s) current_node_id) as [current_node Hn];
        [by rewrite Hlen|].
      rewrite Hn. cbn. eexists. split; [reflexivity|].
      apply foldl_forward_flight_ok; [done|by rewrite Hlen| |done].
      destruct Hs as (Htop & _).
      specialize (Htop current_node_id (Node.neighbors current_node)).
      unfold adjacency in Htop.
      rewrite list_lookup_fmap, Hn, length_fmap in Htop. intros n Hin. by apply Htop. }
    case_bool_decide as Hd.
    + destruct (record_path_flight_ok _ st Hreq Hids Hok) as (s1 & returned & Hr & Hs1).
      rewrite Hr. cbn. destruct returned; [eauto|].
      apply Hfwd; [done|].
      apply record_path_evolves in Hr. by apply evolves_length.
    + cbn. by apply Hfwd.
  - case_bool_decide; [|eauto]. apply send_data_packet_flight_ok; [|done].
    by apply Hrep.
  - case_bool_decide; [|eauto]. eexists. split; [reflexivity|].
    eapply flight_ok_ext; [..|exact Hok]; by cbn.
  - case_bool_decide as Hs; [|eauto].
    by eapply start_rreq_flooding_flight_ok.
Qed.

Lemma process_completions_flight_ok ps st :
  flight_ok st → (∀ p, p ∈ ps → packet_ok st p) →
  ∃ st', process_completions ps st = Some st' ∧ flight_ok st'.
Proof.
  revert st. induction ps as [|p ps IH]; intros st Hok Hps; cbn; [eauto|].
  destruct (process_packet_completion_flight_ok p st Hok) as (s1 & Hp & Hs1).
  { apply Hps. left. }
  rewrite Hp. cbn. apply IH; [done|].
  intros q Hq. eapply evolves_packet_ok; [by eapply process_packet_completion_evolves|].
  apply Hps. by right.
Qed.

End safety.

Section safety_ticks.
Import AODVSimulator.
Implicit Types (self st mid : AODVSimulator.t) (packet p q : AnimatedPacket.t).

(** [flight_ok] reads the packets through their paths and types only. *)
Lemma flight_ok_packets st st' :
  topology_ok st' → length (nodes st') = length (nodes st) →
  final_path st' = final_path st →
  (∀ p, p ∈ active_packets st' ++ packet_queue st' →
        ∃ p0, p0 ∈ active_packets st ++ packet_queue st ∧
              AnimatedPacket.path p = AnimatedPacket.path p0 ∧
              AnimatedPacket.type p = AnimatedPacket.type p0) →
  flight_ok st → flight_ok st'.
Proof.
  intros Htop Hl Hf Hp (_ & Hpk & Hfp & Hlen).
  split; [done|]. split; [|by rewrite Hl, Hf].
  intros p (p0 & Hin & Hpath & Htype)%Hp.
  destruct (Hpk p0 Hin) as (H1 & H2 & H3 & H4).
  unfold packet_ok. by rewrite Hpath, Htype, Hl, Hf.
Qed.

Lemma drain_flight_ok dt in_range st :
  flight_ok st → ∃ mid, drain dt in_range st = Some mid ∧ flight_ok mid.
Proof.
  intros Hok. unfold drain.
  destruct (move_nodes_fields in_range st) as (Ha&Hq&_&_&_&_&Hf&_).
  pose proof (move_nodes_length in_range st) as Hml.
  set (moved := move_nodes in_range st) in *.
  set (rs := advance_packets dt moved).
  assert (∀ p r, (p, r) ∈ rs →
            ∃ p0, p0 ∈ active_packets st ∧
                  AnimatedPacket.path p = AnimatedPacket.path p0 ∧
                  AnimatedPacket.type p = AnimatedPacket.type p0) as Horigin.
  { intros p r (p0 & Hin & H)%advanced_packet_origin. rewrite Ha in Hin. eauto. }
  assert (flight_ok (set_active_packets (remaining_of rs) moved)) as Hok0.
  { apply (flight_ok_packets st); [| |by cbn| |done].
    - apply set_active_packets_topology_ok, move_nodes_topology_ok. by destruct Hok.
    - by cbn.
    - cbn. intros p [Hin%remaining_of_elem|Hin]%elem_of_app.
      + destruct (Horigin _ _ Hin) as (p0 & Hp0 & H). exists p0.
        split; [apply elem_of_app; by left|done].
      + exists p. split; [|done]. apply elem_of_app. right. by rewrite <-Hq. }
  destruct (process_completions_flight_ok (completed_of rs) _ Hok0) as (s1 & Hp & Hs1).
  { intros p Hin%completed_of_elem. destruct (Horigin _ _ Hin) as (p0 & Hp0 & Hpath & Htype).
    destruct Hok as (_ & Hpk & _).
    destruct (Hpk p0) as (H1 & H2 & H3 & H4); [apply elem_of_app; by left|].
    unfold packet_ok. cbn. rewrite Hpath, Htype, Hml, Hf. done. }
  rewrite Hp. cbn. eexists. split; [reflexivity|].
  destruct (refill_active_fields s1) as (Hn&_&_&_&_&Hf1&_&_&_&_&Ha1&Hq1).
  apply (flight_ok_packets s1); [|by rewrite Hn|done| |done].
  - apply (topology_ok_ext s1); [done|]. by destruct Hs1.
  - intros p. rewrite Ha1, Hq1, refill_app. intros Hin. by exists p.
Qed.

Lemma finish_flight_ok st :
  flight_ok st → ∃ st', finish st = Some st' ∧ flight_ok st'.
Proof.
  intros Hok. unfold finish. destruct (_ && _); [|eauto].
  case_bool_decide as Hfp.
  - apply send_data_packet_flight_ok; [|done].
    destruct Hok as (_ & _ & _ & [?|?]); done.
  - eexists. split; [reflexivity|]. eapply flight_ok_ext; [..|exact Hok]; by cbn.
Qed.

Lemma update_flight_ok dt in_range st :
  flight_ok st → ∃ st', update dt in_range st = Some st' ∧ flight_ok st'.
Proof.
  intros Hok. unfold update. destruct (negb _); [eauto|].
  destruct (drain_flight_ok dt in_range st Hok) as (mid & Hd & Hmid).
  rewrite Hd. cbn. by apply finish_flight_ok.
Qed.

Lemma start_rreq_flooding_keeps_flight_ok st st' :
  start_rreq_flooding st = Some st' → flight_ok st → flight_ok st'.
Proof.
  intros H Hok.
  assert (∃ src, source st = Some src ∧ src < length (nodes st)) as (src & Hs & Hlt).
  { revert H. unfold start_rreq_flooding. cbn.
    destruct (source st) as [src|]; [|done]. cbn.
    destruct (nodes st !! src) as [nd|] eqn:Hn; [|done]. intros _.
    exists src. split; [done|]. by eapply lookup_lt_Some. }
  destruct (start_rreq_flooding_flight_ok st src Hs Hlt Hok) as (s & Hs' & Hoks).
  rewrite H in Hs'. by injection Hs' as <-.
Qed.

Lemma setup_nodes_length in_range extra st :
  length (nodes (setup_nodes in_range extra st)) = num_nodes st.
Proof.
  unfold setup_nodes. cbn.
  rewrite extra_links_add_links, basic_links_add_links, !add_links_length.
  apply length_replicate.
Qed.

Lemma flight_ok_fresh st :
  topology_ok st → active_packets st = [] → packet_queue st = [] →
  final_path st = [] → flight_ok st.
Proof.
  intros Htop Ha Hq Hf. split; [done|]. rewrite Ha, Hq, Hf.
  split; [|split; [|by left]]; intros x Hin; by apply elem_of_nil in Hin.
Qed.

(** The invariant of the runs in which the topology is never reduced under a
    running session. *)
Lemma handle_steady_invariant st c st' :
  topology_ok st → (simulation_running st = true → flight_ok st) →
  ¬ shrinks_running st c → handle st c = Some st' →
  simulation_running st' = true → flight_ok st'.
Proof.
  intros Htop Hinv Hsteady H Hrun.
  pose proof (handle_topology_ok _ _ _ Htop H) as Htop'.
  destruct c; cbn in H.
  - injection H as <-. eapply flight_ok_ext; [..|by apply Hinv]; by cbn.
  - injection H as <-.
    apply (flight_ok_packets st); [done| |by cbn| |by apply Hinv].
    + cbn. by rewrite length_fmap.
    + intros p Hin. by exists p.
  - injection H as <-. cbn in Hrun. specialize (Hinv Hrun).
    assert (length (nodes st) ≤ Nat.min (Nat.max 3 n) 99) as Hle.
    { destruct (decide (length (nodes st) ≤ Nat.min (Nat.max 3 n) 99)); [done|].
      exfalso. apply Hsteady. cbn. split; [done|lia]. }
    destruct Hinv as (_ & Hpk & Hfp & Hlen).
    set (st' := clear_endpoints _) in *.
    assert (length (nodes st') = Nat.min (Nat.max 3 n) 99) as Hl'.
    { unfold st', clear_endpoints. cbn -[setup_nodes]. by rewrite setup_nodes_length. }
    assert (final_path st' = final_path st) as Hf' by by cbn.
    assert (active_packets st' = active_packets st) as Ha' by by cbn.
    assert (packet_queue st' = packet_queue st) as Hq' by by cbn.
    clearbody st'. unfold flight_ok, packet_ok. rewrite Hl', Hf', Ha', Hq'.
    split; [done|]. split; [|split; [|done]].
    + intros p Hin. destruct (Hpk p Hin) as (H1 & H2 & H3 & H4).
      split; [done|]. split; [|done]. intros x Hx. specialize (H2 x Hx). lia.
    + intros x Hx. specialize (Hfp x Hx). lia.
  - case_bool_decide; [|injection H as <-; by apply Hinv].
    apply start_simulation_Some in H as [->|H]; [by apply Hinv|].
    eapply start_rreq_flooding_keeps_flight_ok; [exact H|].
    apply flight_ok_fresh; [|by cbn..].
    apply (topology_ok_ext (reset_simulation st)); [by cbn|].
    by apply reset_simulation_topology_ok.
  - injection H as <-. by cbn in Hrun.
  - apply simulate_route_error_Some in H as [->|(f & t & _ & _ & Hf & Ht & ->)];
      [by apply Hinv|].
    cbn in Hrun. specialize (Hinv Hrun).
    eapply (flight_ok_step st _ [_]); [by cbn|by cbn|cbn; reflexivity|by left| |exact Hinv].
    intros q ->%list_elem_of_singleton. destruct Hinv as (_ & _ & Hfp & _).
    split; [done|]. split; [|done]. intros x. cbn.
    intros [-> | [-> | Hin%elem_of_nil]%elem_of_cons]%elem_of_cons; [| |done].
    + apply Hfp. by eapply list_elem_of_lookup_2.
    + apply Hfp. by eapply list_elem_of_lookup_2.
  - injection H as <-. by cbn in Hrun.
  - injection H as <-.
    assert (simulation_running st = true) as Hr.
    { revert Hrun. unfold click_node. by repeat case_bool_decide. }
    eapply flight_ok_ext; [..|by apply Hinv].
    all: unfold click_node; by repeat case_bool_decide.
  - unfold update in H. destruct (simulation_running st) eqn:Hr; cbn in H.
    + destruct (update_flight_ok (clamp_delta delta_time) in_range st (Hinv eq_refl))
        as (s & Hs & Hoks).
      unfold update in Hs. rewrite Hr in Hs. cbn in Hs. rewrite H in Hs.
      by injection Hs as <-.
    + injection H as <-. congruence.
Qed.

Lemma run_steady_invariant cs st st' :
  topology_ok st → (simulation_running st = true → flight_ok st) →
  steady st cs → run st cs = Some st' →
  topology_ok st' ∧ (simulation_running st' = true → flight_ok st').
Proof.
  revert st. induction cs as [|c cs IH]; intros st Htop Hinv Hsteady Hrun; cbn in *.
  - by injection Hrun as <-.
  - destruct Hsteady as [Hc Hrest].
    destruct (handle st c) as [s1|] eqn:Hh; [|done]. cbn in Hrun.
    apply (IH s1); [by eapply handle_topology_ok| |done|done].
    by eapply handle_steady_invariant.
Qed.

Lemma steady_without_apply st cs :
  Forall (λ c, is_apply_nodes c = false) cs → steady st cs.
Proof.
  intros H. revert st. induction H as [|c cs Hc _ IH]; intros st; cbn; [done|].
  split; [destruct c; cbn in Hc |- *; try discriminate; tauto|].
  destruct (handle st c); [apply IH|done].
Qed.

Lemma steady_idle_cons st c cs :
  simulation_running st = false →
  (∀ st', handle st c = Some st' → steady st' cs) → steady st (c :: cs).
Proof.
  intros Hr H. cbn. split.
  - destruct c; cbn; try tauto. intros [Hr' _]. congruence.
  - destruct (handle st c); [by apply H|done].
Qed.

End safety_ticks.

(** X8.  As long as the Apply button does not lower the number of nodes
    while a session is running, no tick raises: in every state such a run of
    the program reaches, [update] returns normally for every time step and
    every outcome of the range tests.  Throughout a running session every
    packet has a non-empty path of node ids, every [ROUTE_REQUEST] has at
    least two nodes, a [ROUTE_REPLY] is in flight only when a best path
    exists, and the best path holds node ids. *)
Theorem X8_steady_runs_never_raise :
  ∀ in_range extra cs st,
    steady (AODVSimulator.init in_range extra) cs →
    run (AODVSimulator.init in_range extra) cs = Some st →
    (AODVSimulator.simulation_running st = true → flight_ok st) ∧
    (∀ dt in_range', is_Some (AODVSimulator.update dt in_range' st)) ∧
    (∀ dt in_range', is_Some (handle st (Tick dt in_range'))).
Proof.
  intros in_range extra cs st Hsteady Hrun.
  destruct (run_steady_invariant cs (AODVSimulator.init in_range extra) st)
    as [Htop Hinv]; [apply setup_nodes_topology_ok|by cbn|done|done|].
  split; [done|].
  assert (∀ dt in_range', is_Some (AODVSimulator.update dt in_range' st)) as Hup.
  { intros dt in_range'.
    destruct (AODVSimulator.simulation_running st) eqn:Hr.
    - destruct (update_flight_ok dt in_range' st (Hinv eq_refl)) as (s & -> & _). done.
    - unfold AODVSimulator.update. by rewrite Hr. }
  split; [done|]. intros dt in_range'. cbn. apply Hup.
Qed.

(** The ring in the middle of its flood. *)
Lemma X8_steady_runs_never_raise_witness :
  let cs := engine_with 4 ring ++ [ClickNode 0; ClickNode 2; RunSim] ++ ticks 38 ring in
  AODVSimulator.simulation_running (state_after cs) = true ∧
  is_Some (AODVSimulator.update 0.033%float (linked ring) (state_after cs)).
Proof.
  intros cs. split; [by vm_compute|].
  destruct (X8_steady_runs_never_raise no_extra no_extra cs (state_after cs))
    as (_ & H & _).
  - apply (steady_idle_cons _ (ApplyNodes 4 (linked ring) no_extra)
             ([ClickNode 0; ClickNode 2; RunSim] ++ ticks 38 ring)).
    + vm_compute. reflexivity.
    + intros st' _. apply steady_without_apply, (bool_decide_unpack _).
      vm_compute. exact I.
  - vm_compute. reflexivity.
  - apply H.
Defined.

(** ** A tick on a topology that lost nodes *)

Section missing_node.
Import AODVSimulator.
Implicit Types (self st : AODVSimulator.t) (packet p q : AnimatedPacket.t).

Lemma process_packet_completion_missing_node p x st :
  AnimatedPacket.type p = RREQ → last (AnimatedPacket.path p) = Some x →
  length (nodes st) ≤ x → destination st ≠ Some x →
  process_packet_completion p st = None.
Proof.
  intros Ht Hl Hlen Hd. unfold process_packet_completion. rewrite Hl, Ht. cbn.
  case_bool_decide as Heq; [by rewrite <-Heq in Hd|]. cbn.
  by rewrite (lookup_ge_None_2 _ _ Hlen).
Qed.

Lemma process_completions_missing_node ps p x st :
  p ∈ ps → AnimatedPacket.type p = RREQ → last (AnimatedPacket.path p) = Some x →
  length (nodes st) ≤ x → destination st ≠ Some x →
  process_completions ps st = None.
Proof.
  intros Hin Ht Hl. revert st.
  induction ps as [|q ps IH]; intros st Hlen Hd; [by apply elem_of_nil in Hin|].
  cbn. destruct (process_packet_completion q st) as [s1|] eqn:Hq; [|done]. cbn.
  apply elem_of_cons in Hin as [<-|Hin].
  - by rewrite (process_packet_completion_missing_node p x st) in Hq.
  - pose proof (process_packet_completion_evolves _ _ _ Hq) as He.
    apply IH; [done| |].
    + by rewrite (evolves_length _ _ He).
    + by rewrite (evolves_destination _ _ He).
Qed.

End missing_node.

(** X9.  A [ROUTE_REQUEST] that completes its hop at a node id that is no
    longer an index of [self.nodes] (and is not the destination) makes the
    tick raise: [self.nodes[current_node_id]] is out of range.  The Apply
    button brings this about when it lowers the number of nodes while
    requests are in flight. *)
Theorem X9_tick_raises_on_missing_node :
  ∀ dt in_range st p x,
    AODVSimulator.simulation_running st = true →
    p ∈ AODVSimulator.active_packets st →
    AnimatedPacket.type p = RREQ →
    (AnimatedPacket.update p dt (AODVSimulator.animation_speed st)).2 = true →
    last (AnimatedPacket.path p) = Some x →
    length (AODVSimulator.nodes st) ≤ x →
    AODVSimulator.destination st ≠ Some x →
    AODVSimulator.update dt in_range st = None.
Proof.
  intros dt in_range st p x Hrun Hin Ht Hdone Hl Hlen Hd.
  unfold AODVSimulator.update. rewrite Hrun. cbn.
  unfold AODVSimulator.drain.
  destruct (move_nodes_fields in_range st) as (Ha&_&_&Hdst&_&_&_&_&Hsp&_).
  pose proof (move_nodes_length in_range st) as Hml.
  set (moved := AODVSimulator.move_nodes in_range st) in *.
  rewrite (process_completions_missing_node _
             (AnimatedPacket.update p dt (AODVSimulator.animation_speed st)).1 x);
    [done| | | | |].
  - unfold AODVSimulator.completed_of, AODVSimulator.advance_packets.
    apply list_elem_of_fmap.
    exists (AnimatedPacket.update p dt (AODVSimulator.animation_speed st)).
    split; [done|]. apply list_elem_of_filter. split; [done|].
    apply list_elem_of_fmap. exists p. by rewrite Hsp, Ha.
  - by rewrite update_type.
  - by rewrite update_path.
  - cbn. by rewrite Hml.
  - cbn. by rewrite Hdst.
Qed.

(** The chain of eight nodes is cut down to three while the first requests
    are on their way to node 3. *)
Lemma X9_tick_raises_on_missing_node_witness :
  let cs := engine_with 8 chain ++ [ClickNode 0; ClickNode 7; RunSim]
              ++ ticks 38 chain ++ [ApplyNodes 3 (linked chain) no_extra] in
  paths_of (AODVSimulator.active_packets (state_after cs)) = [(RREQ, [0; 3])] ∧
  length (AODVSimulator.nodes (state_after cs)) = 3 ∧
  AODVSimulator.update 0.033%float (linked chain) (state_after cs) = None.
Proof.
  intros cs. split; [by vm_compute|]. split; [by vm_compute|].
  destruct (AODVSimulator.active_packets (state_after cs)) as [|p l] eqn:Hact;
    [vm_compute in Hact; discriminate|].
  apply (X9_tick_raises_on_missing_node _ _ _ p 3).
  - vm_compute. reflexivity.
  - rewrite Hact. left.
  - assert (head (AODVSimulator.active_packets (state_after cs)) = Some p) as Hp
      by by rewrite Hact.
    vm_compute in Hp. injection Hp as <-. reflexivity.
  - assert (head (AODVSimulator.active_packets (state_after cs)) = Some p) as Hp
      by by rewrite Hact.
    vm_compute in Hp. injection Hp as <-. vm_compute. reflexivity.
  - assert (head (AODVSimulator.active_packets (state_after cs)) = Some p) as Hp
      by by rewrite Hact.
    vm_compute in Hp. injection Hp as <-. reflexivity.
  - vm_compute. lia.
  - vm_compute. discriminate.
Defined.

(** ** The routes of a session on a static topology *)

Section routes.
Import AODVSimulator.
Implicit Types (self st mid : AODVSimulator.t) (packet p q : AnimatedPacket.t).
Variables (adj : list (list nat)) (s d : nat).
Hypothesis Hlinks : links_ok adj.

Lemma is_walk_pair a b links : adj !! a = Some links → b ∈ links → is_walk adj [a; b].
Proof.
  intros Ha Hb [|[|i]] a' b' H1 H2; cbn in *; [|done..].
  injection H1 as <-. injection H2 as <-. eauto.
Qed.

Lemma is_walk_snoc path a b links :
  is_walk adj path → last path = Some a → adj !! a = Some links → b ∈ links →
  is_walk adj (path ++ [b]).
Proof.
  intros Hw Hl Ha Hb i a' b' H1 H2.
  destruct (decide (S i < length path)) as [Hlt|Hge].
  - rewrite lookup_app_l in H1 by lia. rewrite lookup_app_l in H2 by done.
    by eapply Hw.
  - assert (S i = length path) as Hi.
    { apply lookup_lt_Some in H2. rewrite length_app in H2. cbn in H2. lia. }
    rewrite lookup_app_l in H1 by lia.
    rewrite last_lookup in Hl. replace (pred (length path)) with i in Hl by lia.
    rewrite Hl in H1. injection H1 as <-.
    rewrite lookup_app_r, Hi, Nat.sub_diag in H2 by lia. cbn in H2.
    injection H2 as <-. eauto.
Qed.

(** [route_ok] through a step that adds packets and leaves the found paths
    alone. *)
Lemma route_ok_step st st' :
  adjacency st' = adjacency st → mobility_enabled st' = mobility_enabled st →
  source st' = source st → destination st' = destination st →
  (∀ p, p ∈ active_packets st' ++ packet_queue st' →
        p ∈ active_packets st ++ packet_queue st ∨ request_ok adj s p) →
  all_discovered_paths_to_dest st' = all_discovered_paths_to_dest st →
  best_path_hop_count st' = best_path_hop_count st →
  final_path st' = final_path st →
  route_ok adj s d st → route_ok adj s d st'.
Proof.
  intros Hadj Hm Hs Hd Hp Hall Hb Hf H.
  constructor; rewrite ?Hadj, ?Hm, ?Hs, ?Hd, ?Hall, ?Hb, ?Hf; try apply H.
  intros p [Hin|Hreq]%Hp; [|done]. by apply (route_requests _ _ _ _ H).
Qed.

Lemma route_ok_enqueue st st' q :
  adjacency st' = adjacency st → mobility_enabled st' = mobility_enabled st →
  source st' = source st → destination st' = destination st →
  active_packets st' = active_packets st →
  packet_queue st' = packet_queue st ++ [q] → request_ok adj s q →
  all_discovered_paths_to_dest st' = all_discovered_paths_to_dest st →
  best_path_hop_count st' = best_path_hop_count st →
  final_path st' = final_path st →
  route_ok adj s d st → route_ok adj s d st'.
Proof.
  intros Hadj Hm Hs Hd Ha Hq Hreq Hall Hb Hf.
  apply route_ok_step; [done..| |done|done|done].
  intros p. rewrite Ha, Hq, app_assoc.
  intros [Hin| ->%list_elem_of_singleton]%elem_of_app; [by left|by right].
Qed.

Lemma route_ok_flags st st' :
  adjacency st' = adjacency st → mobility_enabled st' = mobility_enabled st →
  source st' = source st → destination st' = destination st →
  active_packets st' = active_packets st → packet_queue st' = packet_queue st →
  all_discovered_paths_to_dest st' = all_discovered_paths_to_dest st →
  best_path_hop_count st' = best_path_hop_count st →
  final_path st' = final_path st →
  route_ok adj s d st → route_ok adj s d st'.
Proof.
  intros Hadj Hm Hs Hd Ha Hq Hall Hb Hf.
  apply route_ok_step; [done..| |done|done|done].
  intros p. rewrite Ha, Hq. by left.
Qed.

Lemma seed_route_ok st links n :
  adj !! s = Some links → n ∈ links → route_ok adj s d st →
  route_ok adj s d (seed s st n).
Proof.
  intros Hs Hn. unfold seed.
  eapply route_ok_enqueue;
    [unfold adjacency; cbn; by apply fmap_alter_same|by cbn..|cbn; reflexivity|
     |by cbn|by cbn|by cbn].
  intros _. cbn. split; [done|]. split; [|by eapply is_walk_pair].
  destruct (Hlinks s links Hs n Hn) as [Hne _].
  apply NoDup_cons. split; [|apply NoDup_singleton].
  intros ->%list_elem_of_singleton. done.
Qed.

Lemma forward_route_ok packet c st links n :
  AnimatedPacket.type packet = RREQ → request_ok adj s packet →
  last (AnimatedPacket.path packet) = Some c → adj !! c = Some links → n ∈ links →
  route_ok adj s d st → route_ok adj s d (forward packet c st n).
Proof.
  intros Ht Hreq Hl Hc Hn Hok. unfold forward.
  case_bool_decide as Hp; [|done]. case_bool_decide as Hk; [|done].
  destruct (Hreq Ht) as (Hhd & Hnd & Hw).
  eapply route_ok_enqueue;
    [unfold adjacency; cbn; by apply fmap_alter_same|by cbn..|cbn; reflexivity|
     |by cbn|by cbn|by cbn|exact Hok].
  intros _. cbn. split; [|split].
  - by destruct (AnimatedPacket.path packet).
  - apply NoDup_app. split; [done|]. split; [|apply NoDup_singleton].
    intros x Hx ->%list_elem_of_singleton. done.
  - by eapply is_walk_snoc.
Qed.

Lemma start_rreq_flooding_route_ok st st' :
  start_rreq_flooding st = Some st' → route_ok adj s d st → route_ok adj s d st'.
Proof.
  unfold start_rreq_flooding. cbn. intros H Hok.
  rewrite (route_source _ _ _ _ Hok) in H. cbn in H.
  destruct (nodes st !! s) as [source_node|] eqn:Hn; [|done]. cbn in H.
  injection H as <-.
  apply (foldl_preserves (route_ok adj s d)).
  - eapply route_ok_flags; [..|exact Hok]; by cbn.
  - intros a n Hin Ha. apply (seed_route_ok a (Node.neighbors source_node)); [|done..].
    rewrite <-(route_adjacency _ _ _ _ Hok). unfold adjacency.
    by rewrite list_lookup_fmap, Hn.
Qed.

Lemma record_path_route_ok path st st' returned :
  is_route adj s d path → record_path path st = Some (st', returned) →
  route_ok adj s d st → route_ok adj s d st'.
Proof.
  intros Hroute H Hok. unfold record_path in H.
  pose proof (route_recorded _ _ _ _ Hok) as Hfound.
  pose proof (route_best _ _ _ _ Hok) as Hbest.
  assert (∀ s', adjacency s' = adjacency st → mobility_enabled s' = mobility_enabled st →
                source s' = source st → destination s' = destination st →
                (∀ p, p ∈ active_packets s' ++ packet_queue s' →
                      p ∈ active_packets st ++ packet_queue st ∨ request_ok adj s p) →
                all_discovered_paths_to_dest s' = all_discovered_paths_to_dest st ++ [path] →
                (best_path_hop_count s' = Hops (length path - 1) ∧ final_path s' = path ∧
                 hop_lt (length path - 1) (best_path_hop_count st) = true) ∨
                (best_path_hop_count s' = best_path_hop_count st ∧
                 final_path s' = final_path st ∧
                 hop_lt (length path - 1) (best_path_hop_count st) = false) →
                route_ok adj s d s') as Hgen.
  { intros s' Hadj Hm Hs Hd Hp Hall Hcase.
    constructor; rewrite ?Hadj, ?Hm, ?Hs, ?Hd; try apply Hok.
    - intros p [Hin|Hreq]%Hp; [|done]. by apply (route_requests _ _ _ _ Hok).
    - intros path'. rewrite Hall.
      intros [Hin| ->%list_elem_of_singleton]%elem_of_app.
      + destruct (Hfound path' Hin) as [Hr Hle]. split; [done|].
        destruct Hcase as [(-> & _ & Hlt)|(-> & _ & _)]; [|done].
        apply hop_lt_true in Hlt.
        destruct (best_path_hop_count st); cbn in *; [done|lia].
      + split; [done|].
        destruct Hcase as [(-> & _ & _)|(-> & _ & Hlt)]; [cbn; lia|].
        destruct (best_path_hop_count st); cbn in *; [done|].
        apply bool_decide_eq_false in Hlt. lia.
    - rewrite Hall. destruct Hcase as [(-> & -> & _)|(-> & -> & Hlt)].
      + split; [|done]. apply elem_of_app. right. left.
      + destruct (best_path_hop_count st); [done|].
        destruct Hbest as [Hin ->]. split; [|done]. apply elem_of_app. by left. }
  destruct (hop_lt _ _) eqn:Hlt; cbn in H.
  - destruct (send_rrep_back _ _) as [s1|] eqn:Hs; [|done]. cbn in H.
    apply send_rrep_back_Some in Hs as [Hlen ->].
    destruct (_ || _); injection H as <- _.
    all: apply Hgen; [by cbn..| |by cbn|left; by cbn].
    all: intros p; cbn; rewrite app_assoc.
    all: intros [Hin| ->%list_elem_of_singleton]%elem_of_app; [by left|by right].
  - destruct (_ || _); injection H as <- _.
    all: apply Hgen; [by cbn..| |by cbn|right; by cbn].
    all: intros p; cbn; by left.
Qed.

Lemma process_packet_completion_route_ok packet st st' :
  request_ok adj s packet → process_packet_completion packet st = Some st' →
  route_ok adj s d st → route_ok adj s d st'.
Proof.
  intros Hreq H Hok. unfold process_packet_completion in H.
  destruct (last (AnimatedPacket.path packet)) as [current_node_id|] eqn:Hlast; [|done].
  cbn in H.
  destruct (AnimatedPacket.type packet) eqn:Ht.
  - destruct (Hreq Ht) as (Hhd & Hnd & Hw).
    assert (∀ s1, route_ok adj s d s1 →
                  (current_node ← nodes s1 !! current_node_id;
                   Some (foldl (forward packet current_node_id) s1
                           (Node.neighbors current_node))) = Some st' →
                  route_ok adj s d st') as Hfwd.
    { intros s1 Hs1 H1.
      destruct (nodes s1 !! current_node_id) as [current_node|] eqn:Hn; [|done].
      cbn in H1. injection H1 as <-.
      apply (foldl_preserves (route_ok adj s d)); [done|].
      intros a n Hin Ha.
      apply (forward_route_ok _ _ _ (Node.neighbors current_node)); [done..| |done|done].
      rewrite <-(route_adjacency _ _ _ _ Hs1). unfold adjacency.
      by rewrite list_lookup_fmap, Hn. }
    case_bool_decide as Hd.
    + destruct (record_path _ _) as [[s1 returned]|] eqn:Hr; [|done]. cbn in H.
      assert (route_ok adj s d s1) as Hs1.
      { eapply record_path_route_ok; [|exact Hr|exact Hok].
        split; [done|]. split; [|done].
        by rewrite Hlast, Hd, (route_destination _ _ _ _ Hok). }
      destruct returned; [by injection H as <-|]. by apply (Hfwd s1).
    + cbn in H. by apply (Hfwd st).
  - case_bool_decide; [|by injection H as <-].
    apply send_data_packet_Some in H as [_ ->].
    eapply route_ok_enqueue; [by cbn..|cbn; reflexivity| |by cbn|by cbn|by cbn|exact Hok].
    intros Hty. cbn in Hty. discriminate.
  - case_bool_decide; injection H as <-; [|done].
    eapply route_ok_flags; [..|exact Hok]; by cbn.
  - case_bool_decide; [|by injection H as <-].
    eapply start_rreq_flooding_route_ok; [exact H|exact Hok].
Qed.

Lemma process_completions_route_ok ps st st' :
  (∀ p, p ∈ ps → request_ok adj s p) → process_completions ps st = Some st' →
  route_ok adj s d st → route_ok adj s d st'.
Proof.
  revert st. induction ps as [|p ps IH]; intros st Hps H Hok; cbn in H.
  - by injection H as <-.
  - destruct (process_packet_completion p st) as [s1|] eqn:Hp; [|done]. cbn in H.
    apply (IH s1); [|done|].
    + intros q Hq. apply Hps. by right.
    + eapply process_packet_completion_route_ok; [|exact Hp|exact Hok].
      apply Hps. left.
Qed.

Lemma move_nodes_static in_range st :
  mobility_enabled st = false → move_nodes in_range st = st.
Proof. intros H. unfold move_nodes. by rewrite H. Qed.

Lemma update_route_ok dt in_range st st' :
  update dt in_range st = Some st' → route_ok adj s d st → route_ok adj s d st'.
Proof.
  unfold update. destruct (negb _); [by intros [= <-]|].
  destruct (drain _ _ _) as [mid|] eqn:Hd; [|done]. cbn. intros Hf Hok.
  apply drain_Some in Hd as (s1 & Hp & ->).
  rewrite (move_nodes_static _ _ (route_mobility _ _ _ _ Hok)) in Hp.
  assert (∀ p r, (p, r) ∈ advance_packets dt st → request_ok adj s p) as Horigin.
  { intros p r (p0 & Hin & Hpath & Htype)%advanced_packet_origin.
    unfold request_ok. rewrite Hpath, Htype.
    apply (route_requests _ _ _ _ Hok), elem_of_app. by left. }
  assert (route_ok adj s d s1) as Hs1.
  { eapply process_completions_route_ok; [|exact Hp|].
    - intros p Hin%completed_of_elem. by eapply Horigin.
    - eapply route_ok_step; [by cbn..| |by cbn|by cbn|by cbn|exact Hok].
      cbn. intros p [Hin%remaining_of_elem|Hin]%elem_of_app.
      + right. by eapply Horigin.
      + left. apply elem_of_app. by right. }
  assert (route_ok adj s d (refill_active s1)) as Hmid.
  { destruct (refill_active_fields s1) as (Hn&Hso&Hde&_&_&Hfp&Hb&_&_&_&Ha&Hq).
    eapply route_ok_step; [..|exact Hs1].
    - unfold adjacency. by rewrite Hn.
    - unfold refill_active. by destruct (refill _ _).
    - done.
    - done.
    - intros p. rewrite Ha, Hq, refill_app. by left.
    - unfold refill_active. by destruct (refill _ _).
    - done.
    - done. }
  revert Hf. unfold finish. destruct (_ && _); [|by intros [= <-]].
  case_bool_decide.
  - intros [_ ->]%send_data_packet_Some.
    eapply route_ok_enqueue; [by cbn..|cbn; reflexivity| |by cbn|by cbn|by cbn|exact Hmid].
    intros Hty. cbn in Hty. discriminate.
  - intros [= <-]. eapply route_ok_flags; [..|exact Hmid]; by cbn.
Qed.

Lemma handle_route_ok st c st' :
  in_session c = true → handle st c = Some st' →
  route_ok adj s d st → route_ok adj s d st'.
Proof.
  intros Hc H Hok. destruct c; cbn in Hc; try discriminate; cbn in H.
  - injection H as <-. eapply route_ok_flags; [..|exact Hok]; by cbn.
  - apply simulate_route_error_Some in H as [->|(f & t & _ & _ & _ & _ & ->)]; [done|].
    eapply route_ok_enqueue; [by cbn..|cbn; reflexivity| |by cbn|by cbn|by cbn|exact Hok].
    intros Hty. cbn in Hty. discriminate.
  - by eapply update_route_ok.
Qed.

Lemma run_route_ok cs st st' :
  Forall (λ c, in_session c = true) cs → run st cs = Some st' →
  route_ok adj s d st → route_ok adj s d st'.
Proof.
  intros Hcs. revert st. induction Hcs as [|c cs Hc _ IH]; intros st H Hok; cbn in H.
  - by injection H as <-.
  - destruct (handle st c) as [s1|] eqn:Hh; [|done]. cbn in H.
    apply (IH s1); [done|]. by eapply handle_route_ok.
Qed.

Lemma start_simulation_route_ok st st' :
  adjacency st = adj → mobility_enabled st = false →
  source st = Some s → destination st = Some d →
  start_simulation st = Some st' → route_ok adj s d st'.
Proof.
  intros Hadj Hm Hs Hd. unfold start_simulation.
  rewrite bool_decide_eq_false_2 by (rewrite Hs, Hd; intros [?|?]; done).
  intros H. eapply start_rreq_flooding_route_ok; [exact H|].
  constructor.
  - rewrite <-Hadj. unfold adjacency. cbn.
    rewrite <-list_fmap_compose. by apply list_fmap_ext.
  - by cbn.
  - by cbn.
  - by cbn.
  - cbn. intros p Hin. by apply elem_of_nil in Hin.
  - cbn. intros p Hin. by apply elem_of_nil in Hin.
  - by cbn.
Qed.

End routes.

(** X10.  In a session on a static topology (mobility off; after Run only
    ticks, speed changes and route errors), every path recorded in
    [all_discovered_paths_to_dest] is a route: it starts at the source, ends
    at the destination, visits no node twice and follows links of the
    topology.  [final_path] is one of these paths and no recorded path is
    shorter; it is empty exactly as long as none is recorded, and
    [best_path_hop_count] is its number of hops. *)
Theorem X10_best_path_is_a_least_found_route :
  ∀ st0 s d cs st,
    topology_ok st0 →
    AODVSimulator.mobility_enabled st0 = false →
    AODVSimulator.source st0 = Some s →
    AODVSimulator.destination st0 = Some d →
    Forall (λ c, in_session c = true) cs →
    run st0 (RunSim :: cs) = Some st →
    (∀ path, path ∈ AODVSimulator.all_discovered_paths_to_dest st →
             is_route (adjacency st0) s d path ∧
             length (AODVSimulator.final_path st) ≤ length path) ∧
    ((AODVSimulator.final_path st = [] ∧
      AODVSimulator.all_discovered_paths_to_dest st = [] ∧
      AODVSimulator.best_path_hop_count st = Inf) ∨
     (AODVSimulator.final_path st ∈ AODVSimulator.all_discovered_paths_to_dest st ∧
      AODVSimulator.best_path_hop_count st =
        Hops (length (AODVSimulator.final_path st) - 1))).
Proof.
  intros st0 s d cs st Htop Hm Hs Hd Hcs Hrun.
  cbn in Hrun.
  rewrite bool_decide_eq_true_2 in Hrun by (rewrite Hs, Hd; done).
  destruct (AODVSimulator.start_simulation st0) as [st1|] eqn:Hstart; [|done].
  cbn in Hrun.
  assert (route_ok (adjacency st0) s d st) as Hok.
  { eapply run_route_ok; [exact Htop|exact Hcs|exact Hrun|].
    by eapply start_simulation_route_ok. }
  pose proof (route_recorded _ _ _ _ Hok) as Hfound.
  pose proof (route_best _ _ _ _ Hok) as Hbest.
  destruct (AODVSimulator.best_path_hop_count st) as [|n] eqn:Hb.
  - destruct Hbest as [Hf Hall]. split; [|by left].
    intros path Hin. rewrite Hall in Hin. by apply elem_of_nil in Hin.
  - destruct Hbest as [Hin ->]. split; [|by right].
    intros path Hp. destruct (Hfound path Hp) as [Hr Hle]. split; [done|].
    cbn in Hle. destruct Hr as (Hhd & _).
    destruct path; [done|]. cbn in *. lia.
Qed.

(** The chain 0 - 3 - 5 - 7 of eight nodes, 234 ticks after Run. *)
Lemma X10_best_path_is_a_least_found_route_witness :
  let st0 := state_after (engine_with 8 chain ++ [ClickNode 0; ClickNode 7]) in
  let st := state_after route_found in
  AODVSimulator.final_path st = [0; 3; 5; 7] ∧
  is_route (adjacency st0) 0 7 (AODVSimulator.final_path st).
Proof.
  intros st0 st. split; [by vm_compute|].
  destruct (X10_best_path_is_a_least_found_route st0 0 7 (ticks 234 chain) st)
    as [Hall [(Hf & _)|(Hin & _)]].
  - apply reachable_topology_ok. exists no_extra, no_extra.
    exists (engine_with 8 chain ++ [ClickNode 0; ClickNode 7]).
    vm_compute. reflexivity.
  - vm_compute. reflexivity.
  - vm_compute. reflexivity.
  - vm_compute. reflexivity.
  - apply (bool_decide_unpack _). vm_compute. exact I.
  - vm_compute. reflexivity.
  - vm_compute in Hf. discriminate.
  - by apply Hall.
Defined.

(** ** New nodes and the mobility switch *)

Section standing_nodes.
Import AODVSimulator.
Implicit Types (self st : AODVSimulator.t).

Lemma add_links_moving ops ns :
  Node.is_moving <$> add_links ops ns = Node.is_moving <$> ns.
Proof.
  unfold add_links. revert ns. induction ops as [|op ops IH]; intros ns; [done|].
  cbn. rewrite IH. apply fmap_alter_same. intros nd.
  unfold Node.add_neighbor. by case_bool_decide.
Qed.

Lemma setup_nodes_moving in_range extra st :
  Node.is_moving <$> nodes (setup_nodes in_range extra st) =
    replicate (num_nodes st) false.
Proof.
  unfold setup_nodes. cbn.
  rewrite extra_links_add_links, basic_links_add_links, !add_links_moving.
  by rewrite fmap_replicate.
Qed.

Lemma standing_adjacency in_range (ns : list Node.t) :
  Node.is_moving <$> ns = replicate (length ns) false →
  imap (λ i nd,
          if Node.is_moving nd
          then filter (λ j, j ≠ i ∧ in_range i j = true) (seq 0 (length ns))
          else Node.neighbors nd) ns = Node.neighbors <$> ns.
Proof.
  intros H. apply list_eq. intros i.
  rewrite list_lookup_imap, list_lookup_fmap.
  destruct (ns !! i) as [nd|] eqn:Hi; [|done]. cbn.
  assert ((Node.is_moving <$> ns) !! i = Some (Node.is_moving nd)) as Hm
    by by rewrite list_lookup_fmap, Hi.
  rewrite H in Hm. apply lookup_replicate in Hm as [-> _]. done.
Qed.

Lemma ticks_standing cs st st' :
  Forall (λ c, is_tick c = true) cs → run st cs = Some st' →
  Node.is_moving <$> nodes st = replicate (length (nodes st)) false →
  mobility_enabled st' = mobility_enabled st ∧
  Node.is_moving <$> nodes st' = replicate (length (nodes st')) false ∧
  adjacency st' = adjacency st.
Proof.
  intros Hcs. revert st. induction Hcs as [|c cs Hc _ IH]; intros st H Hst; cbn in H.
  - by injection H as <-.
  - destruct c; try discriminate. cbn in H.
    destruct (update _ _ _) as [s1|] eqn:Hu; [|done]. cbn in H.
    apply update_topology in Hu as (Hl & Hmo & Hm & Ha).
    rewrite standing_adjacency in Ha by done. fold (adjacency st) in Ha.
    assert (adjacency s1 = adjacency st) as Ha' by by destruct (_ && _).
    destruct (IH s1 H) as (? & ? & ?); [by rewrite Hm, Hl|].
    split; [congruence|]. split; [done|congruence].
Qed.

End standing_nodes.

(** X11.  The nodes that [setup_nodes] creates stand still whatever the
    mobility switch says: after Apply or New Formation the switch is as it
    was, no node is moving, and the ticks that follow leave every link as
    [setup_nodes] made it.  With mobility on, the nodes move again only once
    the switch was turned off and on. *)
Theorem X11_new_nodes_stand_still :
  ∀ st c st1 cs st2,
    is_setup c = true → handle st c = Some st1 →
    Forall (λ c, is_tick c = true) cs → run st1 cs = Some st2 →
    AODVSimulator.mobility_enabled st2 = AODVSimulator.mobility_enabled st ∧
    Forall (λ nd, Node.is_moving nd = false) (AODVSimulator.nodes st2) ∧
    adjacency st2 = adjacency st1.
Proof.
  intros st c st1 cs st2 Hc H Hcs Hrun.
  assert (AODVSimulator.mobility_enabled st1 = AODVSimulator.mobility_enabled st ∧
          Node.is_moving <$> AODVSimulator.nodes st1 =
            replicate (length (AODVSimulator.nodes st1)) false) as [Hmo Hst].
  { destruct c; try discriminate; cbn in H; injection H as <-.
    - split; [by cbn|]. cbn -[AODVSimulator.setup_nodes].
      by rewrite setup_nodes_moving, setup_nodes_length.
    - split; [by cbn|]. cbn -[AODVSimulator.setup_nodes].
      rewrite length_fmap, <-list_fmap_compose.
      rewrite setup_nodes_length, <-(setup_nodes_moving in_range extra st).
      by apply list_fmap_ext. }
  destruct (ticks_standing cs st1 st2 Hcs Hrun Hst) as (Hmo2 & Hst2 & Ha).
  split; [congruence|]. split; [|done].
  apply Forall_forall. intros nd Hin.
  apply (list_elem_of_fmap_2 Node.is_moving) in Hin. rewrite Hst2 in Hin.
  by apply elem_of_replicate in Hin as [? _].
Qed.

(** A session runs on a ring of four nodes; mobility is switched on and the
    ring is applied again; then ten ticks pass in which no two nodes are in
    range.  The links of the ring are still there. *)
Lemma X11_new_nodes_stand_still_witness :
  let pre := engine_with 4 ring ++ [ClickNode 0; ClickNode 2; RunSim; ToggleMobility] in
  let c := ApplyNodes 4 (linked ring) no_extra in
  let cs := replicate 10 (Tick 0.033%float no_extra) in
  let st2 := state_after (pre ++ c :: cs) in
  AODVSimulator.simulation_running st2 = true ∧
  AODVSimulator.mobility_enabled st2 = true ∧
  adjacency st2 = [[1; 3]; [0; 2]; [1; 3]; [0; 2]].
Proof.
  intros pre c cs st2. split; [by vm_compute|].
  destruct (X11_new_nodes_stand_still (state_after pre) c (state_after (pre ++ [c]))
              cs st2) as (Hmo & _ & Ha).
  - reflexivity.
  - vm_compute. reflexivity.
  - apply (bool_decide_unpack _). vm_compute. exact I.
  - vm_compute. reflexivity.
  - rewrite Hmo, Ha. split; vm_compute; reflexivity.
Defined.

(** ** The number of nodes *)

Section node_count.
Import AODVSimulator.
Implicit Types (self st : AODVSimulator.t).

Lemma update_num_nodes dt in_range st st' :
  update dt in_range st = Some st' → num_nodes st' = num_nodes st.
Proof.
  unfold update. destruct (negb _); [by intros [= <-]|].
  destruct (drain _ _ _) as [mid|] eqn:Hd; [|done]. cbn. intros Hf.
  apply drain_Some in Hd as (s1 & Hp & ->).
  apply process_completions_evolves in Hp.
  pose proof (evolves_num_nodes _ _ Hp) as Hn. cbn in Hn.
  assert (num_nodes (move_nodes in_range st) = num_nodes st) as Hmv.
  { unfold move_nodes. by destruct (mobility_enabled st). }
  assert (num_nodes (refill_active s1) = num_nodes s1) as Hre.
  { unfold refill_active. by destruct (refill _ _). }
  apply finish_evolves in Hf as [He| ->].
  - rewrite (evolves_num_nodes _ _ He). congruence.
  - cbn. congruence.
Qed.

Lemma node_count_ok_ext st st' :
  length (nodes st') = length (nodes st) → num_nodes st' = num_nodes st →
  node_count_ok st → node_count_ok st'.
Proof. unfold node_count_ok. by intros -> ->. Qed.

Lemma handle_node_count_ok st c st' :
  node_count_ok st → handle st c = Some st' → node_count_ok st'.
Proof.
  intros Hok H. destruct c; cbn in H.
  - injection H as <-. eapply node_count_ok_ext; [..|exact Hok]; by cbn.
  - injection H as <-. eapply node_count_ok_ext; [..|exact Hok]; cbn; [|done].
    by rewrite length_fmap.
  - injection H as <-. unfold node_count_ok, clear_endpoints.
    cbn -[setup_nodes]. rewrite setup_nodes_length. cbn. lia.
  - case_bool_decide; [|by injection H as <-].
    apply start_simulation_Some in H as [->|H]; [done|].
    apply start_rreq_flooding_evolves in H.
    eapply node_count_ok_ext; [by apply evolves_length|apply (evolves_num_nodes _ _ H)|].
    eapply node_count_ok_ext; [..|exact Hok]; cbn; [|done].
    by rewrite length_fmap.
  - injection H as <-. eapply node_count_ok_ext; [..|exact Hok]; cbn; [|done].
    by rewrite length_fmap.
  - apply simulate_route_error_Some in H as [->|(f & t & _ & _ & _ & _ & ->)]; [done|].
    eapply node_count_ok_ext; [..|exact Hok]; by cbn.
  - injection H as <-. unfold node_count_ok, clear_endpoints.
    cbn -[setup_nodes]. rewrite length_fmap, setup_nodes_length.
    destruct Hok as [_ Hr]. by cbn.
  - injection H as <-. eapply node_count_ok_ext; [..|exact Hok].
    all: unfold click_node; by repeat case_bool_decide.
  - eapply node_count_ok_ext; [by eapply update_length|by eapply update_num_nodes|done].
Qed.

End node_count.

(** X12.  In every state the program reaches, the node list has exactly
    [num_nodes] nodes and [num_nodes] lies between 3 and 99, whatever number
    was applied. *)
Theorem X12_node_count_in_range :
  ∀ st, reachable st →
    length (AODVSimulator.nodes st) = AODVSimulator.num_nodes st ∧
    3 ≤ AODVSimulator.num_nodes st ≤ 99.
Proof.
  apply (reachable_ind node_count_ok).
  - intros in_range extra. unfold node_count_ok, AODVSimulator.init.
    rewrite setup_nodes_length. cbn. lia.
  - intros st c st' Hok H. by eapply handle_node_count_ok.
Qed.

(** 200 nodes are applied: 99 are built. *)
Lemma X12_node_count_in_range_witness :
  let st := state_after [ApplyNodes 200 (linked chain) no_extra] in
  AODVSimulator.num_nodes st = 99 ∧ length (AODVSimulator.nodes st) = 99.
Proof.
  intros st. split; [by vm_compute|].
  destruct (X12_node_count_in_range st) as [-> _]; [|by vm_compute].
  apply (reachable_run [ApplyNodes 200 (linked chain) no_extra]).
  vm_compute. reflexivity.
Defined.
